(** * DigitalData Manager (ddm.js): a shallow embedding of the reactive engine

    The engine of [src/js/ddm.js] is embedded as executable definitions:
    the path-addressed tree store, the diff walk, the wildcard listener
    registry, change and event dispatch with historical replay, and the
    TTL persistence against a key/value storage.

    Conventions of the embedding.
    - JavaScript [undefined] is [None] of an [option value]; the stored
      values are the JSON values of the data model.
    - A JavaScript object used as a data node is an association list in
      insertion order with unique keys (predicate [wf]); an object used only
      through [hasOwnProperty] and indexing (the listener registries, the
      table of persisted paths) is a [gmap].
    - Strings are sequences of 8-bit code units.
    - [JSON.parse (JSON.stringify v)] is the identity on the data model and
      [JSON.stringify] is injective on it, so [cloneObject] is the identity
      and comparing two serialisations is comparing the two values.
    - Listener callbacks are opaque: [JUser n] is the n-th function of the page,
      its result is given by an oracle over the calls made so far; a
      callback does not call back into the engine. *)

From stdpp Require Import gmap strings list pretty.
From Stdlib Require Import Ascii String QArith Qround Qcanon ZArith Lia.

Set Warnings "-register-all".

#[local] Arguments String.append !s1 s2 : simpl nomatch.

Local Close Scope Q_scope.
Local Close Scope Qc_scope.
Local Open Scope string_scope.
Local Open Scope list_scope.
Local Open Scope nat_scope.

(** ** Strings: [split('.')], [join('.')] and the wildcard suffix *)

Definition is_dot (c : ascii) : bool := Ascii.eqb c "."%char.

(** [s.split('.')]: never empty, the empty string gives one empty segment. *)
Fixpoint split_dot (s : string) : list string :=
  match s with
  | EmptyString => [EmptyString]
  | String c s' =>
      if is_dot c then EmptyString :: split_dot s'
      else match split_dot s' with
           | [] => [String c EmptyString]
           | h :: t => String c h :: t
           end
  end.

(** [l.join('.')]. *)
Fixpoint join_dot (l : list string) : string :=
  match l with
  | [] => EmptyString
  | [x] => x
  | x :: rest => x +:+ "." +:+ join_dot rest
  end.

Fixpoint dot_free (s : string) : bool :=
  match s with
  | EmptyString => true
  | String c s' => negb (is_dot c) && dot_free s'
  end.

Fixpoint string_rev_onto (s acc : string) : string :=
  match s with
  | EmptyString => acc
  | String c s' => string_rev_onto s' (String c acc)
  end.

Definition string_rev (s : string) : string := string_rev_onto s EmptyString.

(** [p.replace(/\.?\*\*?$/, "")]: the leftmost match is the longest of the
    suffixes [.**], [**], [.*], [*]. Written on the reversed string. *)
Definition strip_wildcard (p : string) : string :=
  match string_rev p with
  | String "*" (String "*" (String "." r)) => string_rev r
  | String "*" (String "*" r) => string_rev r
  | String "*" (String "." r) => string_rev r
  | String "*" r => string_rev r
  | _ => p
  end.

(** ** The data model *)

Inductive value : Type :=
| VNull
| VBool (b : bool)
| VNum (q : Qc)
| VStr (s : string)
| VList (l : list value)
| VMap (m : list (string * value)).

Abbreviation obj := (list (string * value)).

Definition Qc_eqb (a b : Qc) : bool := Qeq_bool (this a) (this b).

Fixpoint value_eqb (a b : value) {struct a} : bool :=
  match a, b with
  | VNull, VNull => true
  | VBool x, VBool y => Bool.eqb x y
  | VNum x, VNum y => Qc_eqb x y
  | VStr x, VStr y => String.eqb x y
  | VList x, VList y =>
      (fix go (x y : list value) {struct x} : bool :=
         match x, y with
         | [], [] => true
         | a :: x', b :: y' => value_eqb a b && go x' y'
         | _, _ => false
         end) x y
  | VMap x, VMap y =>
      (fix go (x y : obj) {struct x} : bool :=
         match x, y with
         | [], [] => true
         | (k, a) :: x', (k', b) :: y' =>
             String.eqb k k' && value_eqb a b && go x' y'
         | _, _ => false
         end) x y
  | _, _ => false
  end.

(** Equality of two possibly undefined values, as
    [JSON.stringify(a) === JSON.stringify(b)] decides it. *)
Definition same_json (a b : option value) : bool :=
  match a, b with
  | None, None => true
  | Some x, Some y => value_eqb x y
  | _, _ => false
  end.

(** Own property of an object: [o.hasOwnProperty(k) ? o[k] : undefined]. *)
Fixpoint own {A} (m : list (string * A)) (k : string) : option A :=
  match m with
  | [] => None
  | (k', v) :: m' => if String.eqb k' k then Some v else own m' k
  end.

(** [o[k] = v]: an existing key keeps its place, a new key goes last. *)
Fixpoint put {A} (m : list (string * A)) (k : string) (v : A) : list (string * A) :=
  match m with
  | [] => [(k, v)]
  | (k', v') :: m' =>
      if String.eqb k' k then (k', v) :: m' else (k', v') :: put m' k v
  end.

(** [delete o[k]]. *)
Fixpoint del {A} (m : list (string * A)) (k : string) : list (string * A) :=
  match m with
  | [] => []
  | (k', v') :: m' => if String.eqb k' k then del m' k else (k', v') :: del m' k
  end.

Definition keys (m : obj) : list string := map fst m.

(** Objects have each key once, at every depth. *)
Fixpoint wf (v : value) : Prop :=
  match v with
  | VList l => (fix all (l : list value) : Prop :=
                  match l with [] => True | a :: l' => wf a /\ all l' end) l
  | VMap m => NoDup (map fst m) /\
              (fix all (m : obj) : Prop :=
                 match m with [] => True | (_, a) :: m' => wf a /\ all m' end) m
  | _ => True
  end.

(** ** Type predicates of the public API

    Each takes a possibly undefined value. *)

Definition isObject (v : option value) : bool :=
  match v with Some (VMap _) => true | _ => false end.

Definition isArray (v : option value) : bool :=
  match v with Some (VList _) => true | _ => false end.

Definition isString (v : option value) : bool :=
  match v with Some (VStr _) => true | _ => false end.

(** [typeof obj === 'number' && isFinite(obj) && Math.floor(obj) === obj];
    every stored number is finite. *)
Definition isInteger (v : option value) : bool :=
  match v with
  | Some (VNum q) => Qeq_bool (inject_Z (Qfloor (this q))) (this q)
  | _ => false
  end.

(** [cloneObject]: the JSON round trip. *)
Definition cloneObject (v : option value) : option value := v.

(** ** Completions

    A call either returns or throws; what it did to the state before
    throwing stays done. *)

Inductive res (A : Type) : Type :=
| Ret (a : A)
| Throw.
Arguments Ret {A} a.
Arguments Throw {A}.

(** The i-th element of a list under its decimal key. *)
Fixpoint index_of_key {A} (l : list A) (i : nat) (k : string) : option A :=
  match l with
  | [] => None
  | a :: l' => if String.eqb (pretty i) k then Some a else index_of_key l' (S i) k
  end.

Fixpoint chars (s : string) : list value :=
  match s with
  | EmptyString => []
  | String c s' => VStr (String c EmptyString) :: chars s'
  end.

Definition num_of_nat (n : nat) : value := VNum (Q2Qc (inject_Z (Z.of_nat n))).

(** [v[k]] for a defined [v]: [null[k]] is a TypeError, objects give their
    own property, arrays and strings their elements and [length], numbers
    and booleans nothing. Inherited members are not part of the model. *)
Definition get_prop (v : value) (k : string) : res (option value) :=
  match v with
  | VNull => Throw
  | VMap m => Ret (own m k)
  | VList l =>
      if String.eqb k "length" then Ret (Some (num_of_nat (List.length l)))
      else Ret (index_of_key l 0 k)
  | VStr s =>
      if String.eqb k "length" then Ret (Some (num_of_nat (String.length s)))
      else Ret (index_of_key (chars s) 0 k)
  | VBool _ | VNum _ => Ret None
  end.

(** The reducer of [getObjectAtPath]:
    [(prev !== undefined) ? prev[cur] : undefined]. *)
Fixpoint walk_path (segs : list string) (prev : option value) : res (option value) :=
  match segs with
  | [] => Ret prev
  | cur :: rest =>
      match prev with
      | None => walk_path rest None
      | Some v =>
          match get_prop v cur with
          | Ret next => walk_path rest next
          | Throw => Throw
          end
      end
  end.

(** [typeof v]. *)
Definition typeof (v : option value) : string :=
  match v with
  | None => "undefined"
  | Some VNull | Some (VList _) | Some (VMap _) => "object"
  | Some (VBool _) => "boolean"
  | Some (VNum _) => "number"
  | Some (VStr _) => "string"
  end.

(** [a !== b] where one side is a primitive. *)
Definition strict_neq (a b : option value) : bool := negb (same_json a b).

(** [getObjectAtPath(path, obj)] in the tree [dd]. The source writes the
    default as [obj = typeof obj !== undefined ? obj : window._dd]: the
    string [typeof obj] is compared with the value [undefined]. *)
Definition getObjectAtPath (dd : obj) (path : string) (o : option value)
  : res (option value) :=
  let o := if strict_neq (Some (VStr (typeof o))) None then o else Some (VMap dd) in
  if String.eqb path "" then Ret o else walk_path (split_dot path) o.

(** ** Path resolver: writing *)

(** [mergeObjects(destination, source)], the source given as the object
    value [sv]; returns the destination after the merge. *)
Fixpoint merge_into (sv : value) (destination : obj) {struct sv} : obj :=
  match sv with
  | VMap source =>
      (fix props (source destination : obj) {struct source} : obj :=
         match source with
         | [] => destination
         | (property, v) :: rest =>
             props rest
               match v with
               | VMap _ =>
                   let d := match own destination property with
                            | Some (VMap dm) => dm
                            | _ => []
                            end in
                   put destination property (VMap (merge_into v d))
               | _ => put destination property v
               end
         end) source destination
  | _ => destination
  end.

Definition mergeObjects (destination source : obj) : obj :=
  merge_into (VMap source) destination.

(** The reducer of [setObjectAtPath] from the node [prev]. *)
Fixpoint set_at (segs : list string) (value : value) (prev : obj) : obj :=
  match segs with
  | [] => prev
  | [cur] =>
      match own prev cur, value with
      | Some (VMap pm), VMap vm => put prev cur (VMap (mergeObjects pm vm))
      | _, _ => put prev cur value
      end
  | cur :: rest =>
      match own prev cur with
      | Some (VMap pm) => put prev cur (VMap (set_at rest value pm))
      | _ => put prev cur (VMap (set_at rest value []))
      end
  end.

(** [setObjectAtPath(path, value)] on the tree [dd]. *)
Definition setObjectAtPath (path : string) (value : value) (dd : obj) : obj :=
  set_at (split_dot path) value dd.

(** ** Diff engine *)

(** [_getDifferences(obj1, obj2, differences, path)]; [obj2] is an object
    at every call. *)
Fixpoint _getDifferences (obj1 : option value) (obj2 : value)
    (differences : list string) (path : list string) {struct obj2} : list string :=
  match obj2 with
  | VMap m2 =>
      (fix props (m : obj) (differences : list string) {struct m} : list string :=
         match m with
         | [] => differences
         | (prop, v2) :: m' =>
             props m'
               match v2 with
               | VMap _ =>
                   let obj1Prop :=
                     match obj1 with
                     | Some (VMap m1) => own m1 prop
                     | _ => None
                     end in
                   let differences :=
                     match obj1Prop with
                     | None => differences ++ [join_dot (path ++ [prop])]
                     | Some _ => differences
                     end in
                   _getDifferences obj1Prop v2 differences (path ++ [prop])
               | _ =>
                   let obj1_prop :=
                     match obj1 with
                     | Some (VMap m1) => own m1 prop
                     | _ => None
                     end in
                   if negb (isObject obj1) || negb (same_json obj1_prop (Some v2))
                   then differences ++ [join_dot (path ++ [prop])]
                   else differences
               end
         end) m2 differences
  | _ => differences
  end.

(** The de-duplication loop of [getDifferences]: [all] is read from its
    last entry to its first. *)
Fixpoint uniq_from (all : list string) (differences : gset string)
    (result : list string) : list string :=
  match all with
  | [] => result
  | difference :: rest =>
      if decide (difference ∈ differences) then uniq_from rest differences result
      else uniq_from rest ({[difference]} ∪ differences) (result ++ [difference])
  end.

Definition getDifferences (obj1 obj2 : obj) : list string :=
  let dif1 := _getDifferences (Some (VMap obj1)) (VMap obj2) [] [] in
  let dif2 := _getDifferences (Some (VMap obj2)) (VMap obj1) [] [] in
  let all := dif1 ++ dif2 in
  uniq_from (rev all) ∅ [].

Definition qz (z : Z) : value := VNum (Q2Qc (inject_Z z)).

(** ** Listener registry *)

(** The JavaScript values that reach the engine as a callback, a flag, a
    debug id or a list of event names. [JUser n] is a function of the page,
    [JWriter p] the closure that [persist] creates for the path [p]. *)
Inductive js : Type :=
| JUndefined
| JBool (b : bool)
| JString (s : string)
| JStrings (l : list string)
| JUser (n : nat)
| JWriter (path : string).

(** [a === b]; an array stands for one reference. *)
Definition js_eqb (a b : js) : bool :=
  match a, b with
  | JUndefined, JUndefined => true
  | JBool x, JBool y => Bool.eqb x y
  | JString x, JString y => String.eqb x y
  | JStrings x, JStrings y => bool_decide (x = y)
  | JUser x, JUser y => Nat.eqb x y
  | JWriter x, JWriter y => String.eqb x y
  | _, _ => false
  end.

Definition js_isString (v : js) : bool :=
  match v with JString _ => true | _ => false end.

Definition js_isFunction (v : js) : bool :=
  match v with JUser _ | JWriter _ => true | _ => false end.

(** The object [{'handler': .., 'id': .., 'dependsOn': ..}] that
    [registerListener] pushes; [once] says that the record has its own
    property [once], [uid] is the identity of the object (the rank of its
    creation). *)
Record record : Type := mkRecord {
  uid : nat;
  handler : js;
  id : js;
  dependsOn : js;
  once : bool
}.

Abbreviation registry := (gmap string (list record)).

(** [l[i] === handler] in [registerListener]: [l[i]] is a record object made
    by [registerListener] itself, [handler] a value handed in by the caller;
    whatever that value is, it is not that object. *)
Definition record_is_value (r : record) (v : js) : bool :=
  match v with
  | JUndefined | JBool _ | JString _ => false
  | JStrings _ | JUser _ | JWriter _ => false
  end.

(** [registerListener(path, handler, listeners, dependsOn, id)]: the new
    registry and the returned flag; [fresh] is the identity of the record it
    may create. *)
Definition registerListener (fresh : nat) (path : string) (handler : js)
    (listeners : registry) (dependsOn id : js) : bool * registry :=
  let id := if js_isString dependsOn then dependsOn else id in
  let dependsOn := if js_isString dependsOn then JUndefined else dependsOn in
  let l := default [] (listeners !! path) in
  if existsb (fun li => record_is_value li handler) l then (false, listeners)
  else (true, <[path := l ++ [mkRecord fresh handler id dependsOn false]]> listeners).

(** One entry of the array that [getListeners] returns. *)
Definition entry (listenersToInspect : registry) (p : string)
  : list (string * list record) :=
  match listenersToInspect !! p with
  | Some handlers => [(p, handlers)]
  | None => []
  end.

(** The reducer of [getListeners]; [prev] holds the segments already
    passed. *)
Fixpoint getListeners_from (listenersToInspect : registry) (prev segs : list string)
    (listeners : list (string * list record)) : list (string * list record) :=
  match segs with
  | [] => listeners
  | [cur] =>
      let pStar := join_dot (prev ++ ["*"]) in
      let pFull := join_dot (prev ++ [cur]) in
      (listeners ++ entry listenersToInspect pStar) ++ entry listenersToInspect pFull
  | cur :: rest =>
      let pStar := join_dot (prev ++ [cur; "**"]) in
      getListeners_from listenersToInspect (prev ++ [cur]) rest
        (listeners ++ entry listenersToInspect pStar)
  end.

(** [getListeners(path, listenersToInspect)]. *)
Definition getListeners (path : string) (listenersToInspect : registry)
  : list (string * list record) :=
  rev (getListeners_from listenersToInspect [] (split_dot path)
         (entry listenersToInspect "**")).



(** ** The engine state *)

(** An item of the storage. The text of an item is kept as what it parses
    to: [CJson v] is the text [JSON.stringify(v)], [CUndefined] the text
    [undefined] (what [setItem] stores for an undefined value), [CRaw s n]
    any other text [s], with [n] what [parseInt(s, 10)] gives for it. *)
Inductive cell : Type :=
| CJson (v : value)
| CUndefined
| CRaw (s : string) (n : option Z).

(** What the error hook receives: the operation and the debug id. *)
Record report : Type := mkReport { fn : string; debug_id : js }.

(** A callback invocation: the record it was made through (none for the
    direct call of [change]), the function and its argument. *)
Record call : Type := mkCall {
  via : option nat;
  callee : js;
  argument : option value
}.

Record engine : Type := mkEngine {
  dd : obj;                          (* window._dd *)
  prev_dd : obj;                     (* _prev_dd *)
  events : list obj;                 (* _d.events, oldest first *)
  eventListeners : registry;
  propertyListeners : registry;
  persistenceListeners : registry;
  pathsToPersist : gmap string Z;
  storage_ok : bool;                 (* the storage probe succeeds *)
  storage : list (string * cell);    (* window.localStorage *)
  now : Z;                           (* new Date().getTime() *)
  next_uid : nat;                    (* identity of the next record *)
  calls : list call;                 (* callback invocations, newest first *)
  errors : list report               (* reports to the error hook, newest first *)
}.

Definition with_dd (v : obj) (s : engine) : engine :=
  mkEngine v (prev_dd s) (events s) (eventListeners s) (propertyListeners s)
    (persistenceListeners s) (pathsToPersist s) (storage_ok s) (storage s) (now s)
    (next_uid s) (calls s) (errors s).
Definition with_prev_dd (v : obj) (s : engine) : engine :=
  mkEngine (dd s) v (events s) (eventListeners s) (propertyListeners s)
    (persistenceListeners s) (pathsToPersist s) (storage_ok s) (storage s) (now s)
    (next_uid s) (calls s) (errors s).
Definition with_events (v : list obj) (s : engine) : engine :=
  mkEngine (dd s) (prev_dd s) v (eventListeners s) (propertyListeners s)
    (persistenceListeners s) (pathsToPersist s) (storage_ok s) (storage s) (now s)
    (next_uid s) (calls s) (errors s).
Definition with_eventListeners (v : registry) (s : engine) : engine :=
  mkEngine (dd s) (prev_dd s) (events s) v (propertyListeners s)
    (persistenceListeners s) (pathsToPersist s) (storage_ok s) (storage s) (now s)
    (next_uid s) (calls s) (errors s).
Definition with_propertyListeners (v : registry) (s : engine) : engine :=
  mkEngine (dd s) (prev_dd s) (events s) (eventListeners s) v
    (persistenceListeners s) (pathsToPersist s) (storage_ok s) (storage s) (now s)
    (next_uid s) (calls s) (errors s).
Definition with_persistenceListeners (v : registry) (s : engine) : engine :=
  mkEngine (dd s) (prev_dd s) (events s) (eventListeners s) (propertyListeners s)
    v (pathsToPersist s) (storage_ok s) (storage s) (now s) (next_uid s)
    (calls s) (errors s).
Definition with_pathsToPersist (v : gmap string Z) (s : engine) : engine :=
  mkEngine (dd s) (prev_dd s) (events s) (eventListeners s) (propertyListeners s)
    (persistenceListeners s) v (storage_ok s) (storage s) (now s) (next_uid s)
    (calls s) (errors s).
Definition with_storage (v : list (string * cell)) (s : engine) : engine :=
  mkEngine (dd s) (prev_dd s) (events s) (eventListeners s) (propertyListeners s)
    (persistenceListeners s) (pathsToPersist s) (storage_ok s) v (now s)
    (next_uid s) (calls s) (errors s).
Definition with_now (v : Z) (s : engine) : engine :=
  mkEngine (dd s) (prev_dd s) (events s) (eventListeners s) (propertyListeners s)
    (persistenceListeners s) (pathsToPersist s) (storage_ok s) (storage s) v
    (next_uid s) (calls s) (errors s).
Definition with_next_uid (v : nat) (s : engine) : engine :=
  mkEngine (dd s) (prev_dd s) (events s) (eventListeners s) (propertyListeners s)
    (persistenceListeners s) (pathsToPersist s) (storage_ok s) (storage s) (now s)
    v (calls s) (errors s).
Definition with_calls (v : list call) (s : engine) : engine :=
  mkEngine (dd s) (prev_dd s) (events s) (eventListeners s) (propertyListeners s)
    (persistenceListeners s) (pathsToPersist s) (storage_ok s) (storage s) (now s)
    (next_uid s) v (errors s).
Definition with_errors (v : list report) (s : engine) : engine :=
  mkEngine (dd s) (prev_dd s) (events s) (eventListeners s) (propertyListeners s)
    (persistenceListeners s) (pathsToPersist s) (storage_ok s) (storage s) (now s)
    (next_uid s) (calls s) v.

(** The three listener sets. *)
Inductive listenerSet : Type := PropertySet | PersistenceSet | EventSet.

#[global] Instance listenerSet_eq_dec : EqDecision listenerSet.
Proof. solve_decision. Defined.

Definition get_set (ls : listenerSet) (s : engine) : registry :=
  match ls with
  | PropertySet => propertyListeners s
  | PersistenceSet => persistenceListeners s
  | EventSet => eventListeners s
  end.

Definition with_set (ls : listenerSet) (v : registry) (s : engine) : engine :=
  match ls with
  | PropertySet => with_propertyListeners v s
  | PersistenceSet => with_persistenceListeners v s
  | EventSet => with_eventListeners v s
  end.

(** ** Stateful code: state passing with exceptions *)

Definition M (A : Type) : Type := engine -> res A * engine.

Definition ret {A} (a : A) : M A := fun s => (Ret a, s).

Definition bind {A B} (m : M A) (f : A -> M B) : M B :=
  fun s => match m s with
           | (Ret a, s') => f a s'
           | (Throw, s') => (Throw, s')
           end.

Definition throw {A} : M A := fun s => (Throw, s).

Definition gets {A} (f : engine -> A) : M A := fun s => (Ret (f s), s).

Definition modify (f : engine -> engine) : M unit := fun s => (Ret tt, f s).

Definition lift {A} (r : res A) : M A := fun s => (r, s).

(** [try { body } catch (e) { recover }]. *)
Definition try_catch {A} (body recover : M A) : M A :=
  fun s => match body s with
           | (Ret a, s') => (Ret a, s')
           | (Throw, s') => recover s'
           end.

Declare Scope js_scope.
Delimit Scope js_scope with js.
Notation "x <- m ;; k" := (bind m (fun x => k))
  (at level 100, m at next level, right associativity) : js_scope.
Notation "m ;; k" := (bind m (fun _ => k))
  (at level 100, right associativity) : js_scope.
Local Open Scope js_scope.

Definition when (b : bool) (m : M unit) : M unit := if b then m else ret tt.

Fixpoint fold_m {A B} (f : B -> A -> M B) (l : list A) (b : B) : M B :=
  match l with
  | [] => ret b
  | a :: l' => b' <- f b a ;; fold_m f l' b'
  end.

Definition for_each {A} (l : list A) (f : A -> M unit) : M unit :=
  fold_m (fun _ a => f a) l tt.

(** The state an operation leaves, and what it returned. *)
Definition exec {A} (m : M A) (s : engine) : engine := snd (m s).
Definition result {A} (m : M A) (s : engine) : res A := fst (m s).

(** ** Persistence writer *)

Definition storagePrefix : string := "dd_p_".
Definition storageExpirationPrefix : string := "dd_p_exp_".

(** [storageAvailable()]: the probe sets and removes [__storage_test__]. *)
Definition storageAvailable : M bool :=
  ok <- gets storage_ok ;;
  if ok then
    modify (fun s => with_storage (del (storage s) "__storage_test__") s) ;;
    ret true
  else ret false.

(** The integer held by a value accepted by [isInteger]. *)
Definition int_of (v : option value) : Z :=
  match v with Some (VNum q) => Qfloor (this q) | _ => 0%Z end.

(** The text [storage.setItem] stores for [JSON.stringify(value)]. *)
Definition stringify_cell (v : option value) : cell :=
  match v with Some x => CJson x | None => CUndefined end.

Definition setItem (k : string) (c : cell) : M unit :=
  modify (fun s => with_storage (put (storage s) k c) s).

Definition removeItem (k : string) : M unit :=
  modify (fun s => with_storage (del (storage s) k) s).

(** [_persist(key, value, ttl)]. *)
Definition _persist (key : string) (value ttl : option value) : M unit :=
  let ttl := if isInteger ttl then int_of ttl else 30%Z in
  ok <- storageAvailable ;;
  when ok
    (now <- gets now ;;
     let storageKey := storagePrefix +:+ key in
     let storageValue := stringify_cell value in
     let expiresKey := storageExpirationPrefix +:+ key in
     let expiresValue := (now + ttl * 60000)%Z in
     if (now <? expiresValue)%Z then
       setItem storageKey storageValue ;;
       setItem expiresKey (CJson (qz expiresValue))
     else
       removeItem storageKey ;;
       removeItem expiresKey).

(** [_unpersist(key)]. *)
Definition _unpersist (key : string) : M unit :=
  _persist key (Some VNull) (Some (qz 0)).

(** ** Callbacks *)

Inductive outcome : Type :=
| ReturnsTrue         (* the callback returns [true] *)
| Returns             (* it returns anything else *)
| Throws.             (* it throws *)

(** What a page function does at a call, given the calls made so far, the
    current one first. *)
Definition oracle : Type := list call -> outcome.

(** [handleError(error, name, args, id)] with the hook in place. *)
Definition handleError (name : string) (id : js) : M unit :=
  modify (fun s => with_errors (mkReport name id :: errors s) s).

(** [cloneDDtoPreviousDD()]. *)
Definition cloneDDtoPreviousDD : M unit :=
  modify (fun s => with_prev_dd (dd s) s).

(** [registerListener] on one of the three listener sets. *)
Definition register (ls : listenerSet) (path : string) (handler dependsOn id : js)
  : M bool :=
  fun s =>
    let '(done, listeners) :=
      registerListener (next_uid s) path handler (get_set ls s) dependsOn id in
    (Ret done, with_next_uid (S (next_uid s)) (with_set ls listeners s)).

(** [_d.isTriggered(name)] on the event log. *)
Definition event_named (name : string) (e : obj) : bool :=
  same_json (own e "name") (Some (VStr name)).

Definition isTriggered (events : list obj) (name : string) : bool :=
  existsb (event_named name) (rev events).

(** [_arrayHasValue(arr, value)]. *)
Definition _arrayHasValue (arr : list js) (v : js) : bool :=
  existsb (fun x => js_eqb x v) (rev arr).

Section Engine.

Variable beh : oracle.

(** [f(a) === true], the call made through the record [u]. *)
Definition invoke (u : option nat) (f : js) (a : option value) : M bool :=
  match f with
  | JUser _ =>
      modify (fun s => with_calls (mkCall u f a :: calls s) s) ;;
      cs <- gets calls ;;
      match beh cs with
      | ReturnsTrue => ret true
      | Returns => ret false
      | Throws => throw
      end
  | JWriter path =>
      modify (fun s => with_calls (mkCall u f a :: calls s) s) ;;
      ttl <- gets (fun s => pathsToPersist s !! path) ;;
      _persist path a (qz <$> ttl) ;;
      ret false
  | _ => throw
  end.

(** [handlerObject.once = true]; the record is the object held by the
    listener set. *)
Definition mark_once (ls : listenerSet) (p : string) (h : nat) : M unit :=
  modify (fun s =>
    with_set ls
      (alter (alter (fun r => mkRecord (uid r) (handler r) (id r) (dependsOn r) true) h)
         p (get_set ls s)) s).

(** The record at index [h] of the listeners of [p]. *)
Definition record_at (ls : listenerSet) (p : string) (h : nat) (s : engine)
  : option record :=
  default [] (get_set ls s !! p) !! h.

(** The guarded invocation that every dispatch site repeats:
    [try { if(!r.hasOwnProperty("once") && r.handler(arg) === true) r.once = true; }
     catch (e) { handleError(e, name, .., r.id); }]
    for the record [r] at index [h] of the listeners of [p]; [arg] computes
    the argument. *)
Definition guarded_call (ls : listenerSet) (p : string) (h : nat)
    (arg : M (option value)) (name : string) : M unit :=
  r <- gets (record_at ls p h) ;;
  match r with
  | None => ret tt
  | Some r =>
      try_catch
        (if once r then ret tt
         else
           a <- arg ;;
           b <- invoke (Some (uid r)) (handler r) a ;;
           when b (mark_once ls p h))
        (handleError name (id r))
  end.

(** The number of records under [p]: [listeners[l].handlers.length]. *)
Definition handlers_length (ls : listenerSet) (p : string) (s : engine) : nat :=
  List.length (default [] (get_set ls s !! p)).

(** The body of the loop over [listeners[l].handlers] in
    [invokeChangeListenersForListenerSet]. *)
Definition invoke_change_handler (ls : listenerSet) (invokePath : string)
    (invokedFunctions : list js) (h : nat) : M (list js) :=
  guarded_call ls invokePath h
    (d <- gets dd ;;
     lift (getObjectAtPath d (strip_wildcard invokePath) (Some (VMap d))))
    "listener-changehandler" ;;
  r <- gets (record_at ls invokePath h) ;;
  ret (invokedFunctions ++ match r with Some r => [handler r] | None => [] end).

(** The body of the loop over [listeners]. *)
Definition invoke_change_listener (ls : listenerSet)
    (acc : gset string * list js) (l : string * list record)
  : M (gset string * list js) :=
  let invokePath := fst l in
  if decide (invokePath ∈ fst acc) then ret acc
  else
    n <- gets (handlers_length ls invokePath) ;;
    fs <- fold_m (invoke_change_handler ls invokePath) (seq 0 n) (snd acc) ;;
    ret ({[invokePath]} ∪ fst acc, fs).

(** [invokeChangeListenersForListenerSet(listenerSet)]. *)
Definition invokeChangeListenersForListenerSet (ls : listenerSet) : M (list js) :=
  previous <- gets prev_dd ;;
  current <- gets dd ;;
  let differences := rev (getDifferences previous current) in
  acc <- fold_m
           (fun acc d =>
              listeners <- gets (fun s => getListeners d (get_set ls s)) ;;
              fold_m (invoke_change_listener ls) listeners acc)
           differences (∅, []) ;;
  ret (snd acc).

(** [invokeChangeListeners()]. *)
Definition invokeChangeListeners : M (list js) :=
  invokedPersistenceListeners <- invokeChangeListenersForListenerSet PersistenceSet ;;
  invokedChangeListeners <- invokeChangeListenersForListenerSet PropertySet ;;
  ret (invokedPersistenceListeners ++ invokedChangeListeners).

(** *** Persistence *)

(** [_d.persist(path, ttl)]. *)
Definition persist (path : string) (ttl : option value) : M unit :=
  try_catch
    (let ttl := if isInteger ttl then int_of ttl else 30%Z in
     tracked <- gets (fun s => pathsToPersist s !! path) ;;
     when (negb (bool_decide (is_Some tracked)))
       (let persistenceListener := JWriter path in
        register PersistenceSet path persistenceListener JUndefined JUndefined ;;
        register PersistenceSet (path +:+ ".**") persistenceListener JUndefined JUndefined ;;
        ret tt) ;;
     modify (fun s => with_pathsToPersist (<[path := ttl]> (pathsToPersist s)) s) ;;
     d <- gets dd ;;
     v <- lift (getObjectAtPath d path None) ;;
     when (negb (String.eqb (typeof v) "undefined"))
       (v' <- lift (getObjectAtPath d path None) ;;
        _persist path v' (Some (qz ttl))))
    (handleError "persist" JUndefined).

(** [_d.unpersist(path)]. *)
Definition unpersist (path : string) : M unit :=
  modify (fun s =>
    with_persistenceListeners
      (delete (path +:+ ".**") (delete path (persistenceListeners s))) s) ;;
  _unpersist path.

(** *** Reading *)

(** [_d.has(path)]. *)
Definition has (path : string) : M bool :=
  d <- gets dd ;;
  v <- lift (getObjectAtPath d path (Some (VMap d))) ;;
  ret (negb (String.eqb (typeof v) "undefined")).

Definition is_space (c : ascii) : bool :=
  let n := nat_of_ascii c in
  ((9 <=? n) && (n <=? 13)) || (n =? 32) || (n =? 160).

Fixpoint trim_left (s : string) : string :=
  match s with
  | EmptyString => EmptyString
  | String c s' => if is_space c then trim_left s' else s
  end.

(** [s.trim()]. *)
Definition trim (s : string) : string :=
  string_rev (trim_left (string_rev (trim_left s))).

(** The tests of [_d.empty] on the value found. *)
Definition empty_value (o : option value) : bool :=
  match o with
  | None | Some VNull => true
  | _ =>
      if isObject o then same_json o (Some (VMap []))
      else if isArray o then
        match o with Some (VList l) => (List.length l =? 0) | _ => false end
      else if isString o then
        match o with Some (VStr s) => String.eqb (trim s) "" | _ => false end
      else negb (isInteger o)
  end.

(** [_d.empty(path)]. *)
Definition empty (path : string) : M bool :=
  d <- gets dd ;;
  o <- lift (getObjectAtPath d path (Some (VMap d))) ;;
  ret (empty_value o).

(** *** Writing *)

(** [_d.set(path, value, persist, ttl)]. *)
Definition set (path : string) (val : value) (persist_flag : js)
    (ttl : option value) : M value :=
  cloneDDtoPreviousDD ;;
  when (js_eqb persist_flag (JBool true))
    (persist path (Some (qz (if isInteger ttl then int_of ttl else 30%Z)))) ;;
  modify (fun s => with_dd (setObjectAtPath path val (dd s)) s) ;;
  invokeChangeListeners ;;
  ret val.

(** [_d.get(path, defaultValue, createNonExisting)]. *)
Definition get (path : string) (defaultValue : option value)
    (createNonExisting : js) : M (option value) :=
  d <- gets dd ;;
  v <- lift (getObjectAtPath d path (Some (VMap d))) ;;
  match v, defaultValue with
  | None, Some dv =>
      if js_eqb createNonExisting (JBool true) then
        r <- set path dv JUndefined None ;; ret (cloneObject (Some r))
      else ret (cloneObject defaultValue)
  | _, _ => ret (cloneObject v)
  end.

(** The element of [l] under the decimal key [k] replaced through [f]. *)
Fixpoint update_at_key (l : list value) (i : nat) (k : string)
    (f : value -> option value) : option (list value) :=
  match l with
  | [] => Some []
  | a :: l' =>
      if String.eqb (pretty i) k then
        match f a with
        | Some a' => Some (a' :: l')
        | None => None
        end
      else
        match update_at_key l' (S i) k f with
        | Some r => Some (a :: r)
        | None => None
        end
  end.

(** [delete parentObject[propertyToDelete]] where [parentObject] is the node
    that [segs] reaches from [v], a defined node that is not [null]; gives
    [v] after the deletion. An object loses the key; [length] and the
    characters of a string stay (the deletion fails silently). The deletion
    of an element of an array would leave a hole, which the data model does
    not have: there is no result then. *)
Fixpoint delete_in (segs : list string) (propertyToDelete : string) (v : value)
  : option value :=
  match segs with
  | [] =>
      match v with
      | VMap m => Some (VMap (del m propertyToDelete))
      | VList l =>
          if String.eqb propertyToDelete "length" then Some v
          else match index_of_key l 0 propertyToDelete with
               | Some _ => None
               | None => Some v
               end
      | _ => Some v
      end
  | cur :: rest =>
      match v with
      | VMap m =>
          match own m cur with
          | Some c =>
              match delete_in rest propertyToDelete c with
              | Some c' => Some (VMap (put m cur c'))
              | None => None
              end
          | None => Some v
          end
      | VList l =>
          match update_at_key l 0 cur (delete_in rest propertyToDelete) with
          | Some l' => Some (VList l')
          | None => None
          end
      | _ => Some v
      end
  end.

(** [_d.erase(path)]. The flag returned is not part of the source: it is
    false when the deletion would leave a hole in an array; the model then
    does nothing. *)
Definition erase (path : string) : M bool :=
  present <- has path ;;
  if negb present then ret true
  else
    let split := split_dot path in
    let propertyToDelete := List.last split "" in
    let parentPath := join_dot (removelast split) in
    let parentSegs := if String.eqb parentPath "" then [] else split_dot parentPath in
    d <- gets dd ;;
    match delete_in parentSegs propertyToDelete (VMap d) with
    | None => ret false
    | Some d' =>
        try_catch
          (cloneDDtoPreviousDD ;;
           parentObject <- lift (getObjectAtPath d parentPath (Some (VMap d))) ;;
           match parentObject with
           | None | Some VNull => throw
           | Some _ =>
               modify (fun s => with_dd (match d' with VMap m => m | _ => dd s end) s)
           end ;;
           invokeChangeListeners ;;
           ret tt)
          (handleError "delete" JUndefined) ;;
        ret true
    end.

(** [_d.push(path, value)]. *)
Definition push (path : string) (val : value) : M (option value) :=
  try_catch
    (cloneDDtoPreviousDD ;;
     a <- get path None JUndefined ;;
     let stored :=
       match a with
       | Some (VList l) =>
           VList (l ++ match val with VList vs => vs | _ => [val] end)
       | _ => VList [val]
       end in
     modify (fun s => with_dd (setObjectAtPath path stored (dd s)) s) ;;
     invokeChangeListeners ;;
     ret a)
    (handleError "push" JUndefined ;; ret None).

(** *** Change listeners *)

(** [_d.change(path, onlyInvokeOnChanges, handler, id)]. *)
Definition change (path : string) (onlyInvokeOnChanges handler id : js) : M unit :=
  try_catch
    (let id := if js_isString handler then handler else id in
     let handler := if js_isString handler then onlyInvokeOnChanges else handler in
     let handler := if js_eqb handler JUndefined then onlyInvokeOnChanges else handler in
     registered <- register PropertySet path handler id JUndefined ;;
     when (registered &&
           (js_isFunction onlyInvokeOnChanges
            || negb (js_eqb onlyInvokeOnChanges (JBool true))))
       (d <- gets dd ;;
        v <- lift (getObjectAtPath d (strip_wildcard path) (Some (VMap d))) ;;
        when (negb (String.eqb (typeof v) "undefined"))
          (invoke None handler v ;; ret tt)))
    (handleError "change" JUndefined).

(** *** Events *)

(** The name under which an event was logged. *)
Definition event_name (e : obj) : string :=
  match own e "name" with Some (VStr s) => s | _ => "" end.

(** The body of the loop over [listeners[l].handlers] in [trigger]. *)
Definition trigger_handler (eventName : string) (event : obj)
    (invokedHandlers : list js) (p : string) (h : nat) : M unit :=
  r <- gets (record_at EventSet p h) ;;
  match r with
  | None => ret tt
  | Some handlerObject =>
      match dependsOn handlerObject with
      | JStrings deps =>
          evs <- gets events ;;
          let numTriggered :=
            fold_left
              (fun n d => n + if String.eqb d eventName || isTriggered evs d
                              then 1 else 0)
              (rev deps) 0 in
          when ((numTriggered =? List.length deps)
                && negb (_arrayHasValue invokedHandlers (handler handlerObject)))
            (guarded_call EventSet p h (ret (Some (VMap event))) "listener-handler")
      | _ =>
          when (negb (_arrayHasValue invokedHandlers (handler handlerObject)))
            (guarded_call EventSet p h (ret (Some (VMap event))) "listener-handler")
      end
  end.

(** [_d.trigger(eventName, payload)]. *)
Definition trigger (eventName : string) (payload : option value) : M unit :=
  try_catch
    (let event := match payload with Some (VMap m) => m | _ => [] end in
     let event := put event "name" (VStr eventName) in
     t <- gets now ;;
     let event := put event "timestamp" (qz t) in
     invokedHandlers <-
       match own event "dd" with
       | Some (VMap patch) =>
           cloneDDtoPreviousDD ;;
           modify (fun s => with_dd (mergeObjects (dd s) patch) s) ;;
           invokeChangeListeners
       | _ => ret []
       end ;;
     listeners <- gets (fun s => getListeners eventName (eventListeners s)) ;;
     for_each listeners
       (fun l =>
          n <- gets (handlers_length EventSet (fst l)) ;;
          for_each (seq 0 n)
            (trigger_handler eventName event invokedHandlers (fst l))) ;;
     modify (fun s => with_events (events s ++ [event]) s))
    (handleError "trigger" JUndefined).

(** The name argument of [listen]: one event or an array of events. *)
Inductive names : Type :=
| One (name : string)
| Many (name : list string).

(** The body of the loop over [listeners[l].handlers] in the replay of
    [listen]. *)
Definition replay_handler (listener : js) (triggeredEvents : gset string)
    (event : obj) (p : string) (h : nat) : M unit :=
  r <- gets (record_at EventSet p h) ;;
  match r with
  | None => ret tt
  | Some handlerObject =>
      match dependsOn handlerObject with
      | JStrings deps =>
          let numTriggered :=
            fold_left
              (fun n d => n + if decide (d ∈ triggeredEvents) then 1 else 0)
              (rev deps) 0 in
          when ((numTriggered =? List.length deps)
                && js_eqb listener (handler handlerObject))
            (guarded_call EventSet p h (ret (Some (VMap event))) "listener-handler")
      | _ =>
          when (js_eqb listener (handler handlerObject))
            (guarded_call EventSet p h (ret (Some (VMap event))) "listener-handler")
      end
  end.

(** The loop of [listen] over the events that have taken place. *)
Fixpoint replay (listener : js) (evs : list obj) (triggeredEvents : gset string)
  : M unit :=
  match evs with
  | [] => ret tt
  | event :: rest =>
      let triggeredEvents := {[event_name event]} ∪ triggeredEvents in
      listeners <- gets (fun s => getListeners (event_name event) (eventListeners s)) ;;
      for_each (rev listeners)
        (fun l =>
           n <- gets (handlers_length EventSet (fst l)) ;;
           for_each (rev (seq 0 n))
             (replay_handler listener triggeredEvents event (fst l))) ;;
      replay listener rest triggeredEvents
  end.

(** [_d.listen(name, invokeHandlerOnHistoricalEvents, handler, id)]. *)
Definition listen (name : names) (invokeHandlerOnHistoricalEvents handler id : js)
  : M unit :=
  try_catch
    (let id' := if js_isString handler then handler else id in
     let handler :=
       if js_isString handler then invokeHandlerOnHistoricalEvents
       else if js_eqb handler JUndefined then invokeHandlerOnHistoricalEvents
       else handler in
     match name with
     | Many ns =>
         for_each (rev ns)
           (fun n => register EventSet n handler (JStrings ns) id' ;; ret tt)
     | One n => register EventSet n handler id' JUndefined ;; ret tt
     end ;;
     when (negb (js_eqb invokeHandlerOnHistoricalEvents (JBool false)))
       (evs <- gets events ;;
        replay handler evs ∅))
    (handleError "listen" JUndefined).

(** [_d.unlisten(name, handler)]. *)
Definition unlisten (name : string) (listener : js) : M unit :=
  modify (fun s =>
    with_eventListeners
      (alter (filter (fun r => js_eqb (handler r) listener = false)) name
         (eventListeners s)) s).

(** *** Start-up restore *)

Fixpoint string_drop (n : nat) (s : string) : string :=
  match n, s with
  | S n', String _ s' => string_drop n' s'
  | _, _ => s
  end.

(** [parseInt(text, 10)] of an item; a number is read up to its decimal
    point. *)
Definition parseInt_cell (c : cell) : option Z :=
  match c with
  | CJson (VNum q) =>
      Some (if Qle_bool 0 (this q) then Qfloor (this q) else Qceiling (this q))
  | CRaw _ n => n
  | _ => None
  end.

(** [JSON.parse(text)] of an item. *)
Definition JSON_parse (c : cell) : res value :=
  match c with
  | CJson v => Ret v
  | _ => Throw
  end.

(** The body of the loop of [restorePersistedDD] for one key of the
    storage. *)
Definition restore_key (key : string) : M unit :=
  when (String.prefix storageExpirationPrefix key)
    (let ddKey := string_drop (String.length storageExpirationPrefix) key in
     st <- gets storage ;;
     t <- gets now ;;
     match own st (storagePrefix +:+ ddKey), own st key ≫= parseInt_cell with
     | Some c, Some expiry =>
         if (expiry >? t)%Z then
           v <- lift (JSON_parse c) ;;
           modify (fun s => with_dd (setObjectAtPath ddKey v (dd s)) s) ;;
           tracked <- gets (fun s => pathsToPersist s !! ddKey) ;;
           when (negb (bool_decide (is_Some tracked))) (persist ddKey None)
         else
           removeItem key ;;
           removeItem (storagePrefix +:+ ddKey)
     | _, _ =>
         removeItem key ;;
         removeItem (storagePrefix +:+ ddKey)
     end) ;;
  st <- gets storage ;;
  when (bool_decide (is_Some (String.index 0 "dd_p_" key))
        && match own st key with Some CUndefined => true | _ => false end)
    (removeItem key).

(** [restorePersistedDD()]: a key removed before its turn is not visited. *)
Definition restorePersistedDD : M unit :=
  ok <- storageAvailable ;;
  when ok
    (try_catch
       (ks <- gets (fun s => map fst (storage s)) ;;
        for_each ks
          (fun key =>
             st <- gets storage ;;
             when (bool_decide (is_Some (own st key))) (restore_key key)))
       (ret tt)).


End Engine.

(** ** Helpers of the public API outside the engine *)

(** [!obj]: the values that count as false. *)
Definition falsy (o : option value) : bool :=
  match o with
  | None | Some VNull | Some (VBool false) | Some (VStr EmptyString) => true
  | Some (VNum q) => Qc_eqb q (Q2Qc 0)
  | _ => false
  end.

(** [_d.isEmptyObject(obj)]. *)
Definition isEmptyObject (o : option value) : bool :=
  if falsy o || match o with None | Some VNull => true | _ => false end
     || String.eqb (typeof o) "undefined"
  then true
  else if isObject o then same_json o (Some (VMap []))
  else if isArray o then
    match o with Some (VList l) => (List.length l =? 0) | _ => false end
  else if isString o then
    match o with Some (VStr s) => String.eqb (trim s) "" | _ => false end
  else negb (isInteger o).

(** [getRootDomain()], on the host name of the page. *)
Definition getRootDomain (hostname : string) : string :=
  let domain := hostname in
  let splitArr := split_dot domain in
  let arrLen := List.length splitArr in
  if 2 <? arrLen then
    let domain := nth (arrLen - 2) splitArr "" +:+ "." +:+ nth (arrLen - 1) splitArr "" in
    if (String.length (nth (arrLen - 1) splitArr "") =? 2)
       && (String.length (nth (arrLen - 2) splitArr "") =? 2)
    then nth (arrLen - 3) splitArr "" +:+ "." +:+ domain
    else domain
  else domain.

(** A character with a meaning of its own in a regular expression. *)
Definition regex_special (c : ascii) : bool :=
  existsb (Ascii.eqb c) (list_ascii_of_string "\^$.|?*+()[]{}").

Fixpoint plain (s : string) : bool :=
  match s with
  | EmptyString => true
  | String c s' => negb (regex_special c) && plain s'
  end.

Definition is_sep (c : ascii) : bool := Ascii.eqb c "&"%char || Ascii.eqb c "#"%char.

(** The group of the regular expression, at the start of [s]: the longest
    run of characters other than [&] and [#]. *)
Fixpoint value_run (s : string) : string :=
  match s with
  | EmptyString => EmptyString
  | String c s' => if is_sep c then EmptyString else String c (value_run s')
  end.

(** The [exec] of the regular expression made of one of [?] and [&], the
    name, [=] and a group of characters other than [&] and [#], for a name
    of plain characters; [needle] is the name followed by [=]. It gives the
    group of the leftmost match. *)
Fixpoint exec_param (source needle : string) : option string :=
  match source with
  | EmptyString => None
  | String c rest =>
      if (Ascii.eqb c "?"%char || Ascii.eqb c "&"%char) && String.prefix needle rest
      then Some (value_run (string_drop (String.length needle) rest))
      else exec_param rest needle
  end.

(** [getParam(sourceString, paramName)], behind [getUrlParam] and
    [getRefParam]. The name is made part of a regular expression as it is:
    the model covers the names of plain characters, and gives no result
    for the others. *)
Definition getParam (sourceString paramName : string) : option string :=
  if String.eqb paramName "" then Some ""
  else if plain paramName then
    Some match exec_param sourceString (paramName +:+ "=") with
         | Some found => found
         | None => ""
         end
  else None.

(** ** Runs of the engine *)

(** The engine before start-up, with the storage and the clock of the
    page. *)
Definition initial (ok : bool) (st : list (string * cell)) (t : Z) : engine :=
  mkEngine [] [] [] ∅ ∅ ∅ ∅ ok st t 0 [] [].

(** Loading the script: [window._dd = {}; restorePersistedDD();]. *)
Definition boot (ok : bool) (st : list (string * cell)) (t : Z) : engine :=
  exec restorePersistedDD (initial ok st t).

(** A call of the public API, or time passing. *)
Inductive op : Type :=
| OpGet (path : string) (defaultValue : option value) (createNonExisting : js)
| OpSet (path : string) (val : value) (persist_flag : js) (ttl : option value)
| OpErase (path : string)
| OpPush (path : string) (val : value)
| OpHas (path : string)
| OpEmpty (path : string)
| OpChange (path : string) (onlyInvokeOnChanges handler id : js)
| OpTrigger (eventName : string) (payload : option value)
| OpListen (name : names) (invokeHandlerOnHistoricalEvents handler id : js)
| OpUnlisten (name : string) (handler : js)
| OpPersist (path : string) (ttl : option value)
| OpUnpersist (path : string)
| OpTick (ms : Z).

Definition run_op (beh : oracle) (o : op) : M unit :=
  match o with
  | OpGet p d c => get beh p d c ;; ret tt
  | OpSet p v f t => set beh p v f t ;; ret tt
  | OpErase p => erase beh p ;; ret tt
  | OpPush p v => push beh p v ;; ret tt
  | OpHas p => has p ;; ret tt
  | OpEmpty p => empty p ;; ret tt
  | OpChange p a b c => change beh p a b c
  | OpTrigger n p => trigger beh n p
  | OpListen n a b c => listen beh n a b c
  | OpUnlisten n h => unlisten n h
  | OpPersist p t => persist p t
  | OpUnpersist p => unpersist p
  | OpTick ms => modify (fun s => with_now (now s + ms)%Z s)
  end.

(** A script of the page: each call runs to completion, whether it returns
    or throws. *)
Definition run (beh : oracle) (script : list op) (s : engine) : engine :=
  fold_left (fun s o => exec (run_op beh o) s) script s.

(** The invocations of [f] among [cs]. *)
Definition count_calls (f : js) (cs : list call) : nat :=
  List.length (filter (fun c => js_eqb (callee c) f = true) cs).

(** ** Predicates used in the statements *)

(** The patterns that [getListeners] looks up for the segments [segs] after
    the segments [prev], in the order of the lookups. *)
Fixpoint candidates (prev segs : list string) : list string :=
  match segs with
  | [] => []
  | [cur] => [join_dot (prev ++ ["*"]); join_dot (prev ++ [cur])]
  | cur :: rest => join_dot (prev ++ [cur; "**"]) :: candidates (prev ++ [cur]) rest
  end.

(** The pattern grammar, on the text of pattern and path. *)
Inductive matches (path : string) : string -> Prop :=
| matches_all : matches path "**"
| matches_exact : matches path path
| matches_top : dot_free path = true -> matches path "*"
| matches_child (p c : string) :
    dot_free c = true -> path = p +:+ "." +:+ c -> matches path (p +:+ ".*")
| matches_below (p rest : string) :
    path = p +:+ "." +:+ rest -> matches path (p +:+ ".**").

(** Every character of [s] is white space. *)
Fixpoint all_space (s : string) : bool :=
  match s with
  | EmptyString => true
  | String c s' => is_space c && all_space s'
  end.

(** The node under the keys [ks], going through objects only. *)
Fixpoint node_at (v : value) (ks : list string) : option value :=
  match ks with
  | [] => Some v
  | k :: rest =>
      match v with
      | VMap m => match own m k with
                  | Some c => node_at c rest
                  | None => None
                  end
      | _ => None
      end
  end.

(** The value [v] under the keys [r], each in an object of its own. *)
Fixpoint nest (r : list string) (v : value) : value :=
  match r with
  | [] => v
  | k :: r' => VMap [(k, nest r' v)]
  end.

(** [a] lacks what [b] holds under the keys [ks]: [b] has an object there
    and [a] has nothing, or [b] has a value that is not an object there and
    [a] has not the equal value. *)
Definition differs_from (a : option value) (b : value) (ks : list string) : Prop :=
  match node_at b ks with
  | Some (VMap _) => (a ≫= fun v => node_at v ks) = None
  | Some leaf => (a ≫= fun v => node_at v ks) <> Some leaf
  | None => False
  end.

(** The records that a listener set holds under the pattern [p]. *)
Definition holds (s : engine) (ls : listenerSet) (p : string) (r : record) : Prop :=
  exists l, get_set ls s !! p = Some l /\ r ∈ l.

Definition user_fn (f : js) : bool :=
  match f with JUser _ => true | _ => false end.

(** The record [r] with its own property [once]. *)
Definition set_once (r : record) : record :=
  mkRecord (uid r) (handler r) (id r) (dependsOn r) true.

(** [s'] is [s] but for the calls, the listener set [ls], the storage and
    the error reports. *)
Definition touches (ls : listenerSet) (s s' : engine) : Prop :=
  dd s' = dd s /\ prev_dd s' = prev_dd s /\ events s' = events s
  /\ pathsToPersist s' = pathsToPersist s /\ storage_ok s' = storage_ok s
  /\ now s' = now s /\ next_uid s' = next_uid s
  /\ forall ls', ls' <> ls -> get_set ls' s' = get_set ls' s.

(** What the guarded invocation of the record at index [h] under [p] does
    to the engine, [ra] being what the computation of the argument gives:
    nothing, when there is no such record or it has its property [once];
    nothing but a report, when the argument cannot be computed or the
    handler is not a function; or else one call, after which the record has
    its property [once] exactly when the call was to a function of the page
    that returned true. *)
Inductive guarded_effect (beh : oracle) (ls : listenerSet) (p : string) (h : nat)
    (ra : res (option value)) (s s' : engine) : Prop :=
| guarded_skip :
    s' = s ->
    (record_at ls p h s = None
     \/ exists r, record_at ls p h s = Some r /\ once r = true) ->
    guarded_effect beh ls p h ra s s'
| guarded_report (r : record) :
    record_at ls p h s = Some r -> once r = false ->
    (ra = Throw \/ js_isFunction (handler r) = false) ->
    touches ls s s' -> get_set ls s' = get_set ls s -> calls s' = calls s ->
    guarded_effect beh ls p h ra s s'
| guarded_invoked (r : record) (a : option value) :
    record_at ls p h s = Some r -> once r = false ->
    ra = Ret a ->
    js_isFunction (handler r) = true ->
    touches ls s s' ->
    calls s' = mkCall (Some (uid r)) (handler r) a :: calls s ->
    get_set ls s' =
      (if user_fn (handler r)
          && match beh (mkCall (Some (uid r)) (handler r) a :: calls s) with
             | ReturnsTrue => true
             | _ => false
             end
       then alter (alter set_once h) p (get_set ls s)
       else get_set ls s) ->
    guarded_effect beh ls p h ra s s'.

(** The call [c], made after the calls [earlier], was to a function of the
    page and returned true. *)
Definition returned_true (beh : oracle) (c : call) (earlier : list call) : Prop :=
  user_fn (callee c) = true /\ beh (c :: earlier) = ReturnsTrue.

(** Among the calls [cs], one made through the record [u] returned true. *)
Definition fired (beh : oracle) (u : nat) (cs : list call) : Prop :=
  exists later c earlier,
    cs = later ++ c :: earlier /\ via c = Some u /\ returned_true beh c earlier.

(** No call is made through a record after a call through it returned
    true. *)
Definition once_only (beh : oracle) (cs : list call) : Prop :=
  forall later c earlier u,
    cs = later ++ c :: earlier -> via c = Some u -> returned_true beh c earlier ->
    forall c', In c' later -> via c' <> Some u.

(** Every record through which a call returned true has its property
    [once], in whichever listener set it is. *)
Definition fired_marked (beh : oracle) (s : engine) : Prop :=
  forall u ls p r, fired beh u (calls s) -> holds s ls p r -> uid r = u -> once r = true.

(** The records are distinct objects, made before the next one. *)
Definition uids_fresh (s : engine) : Prop :=
  (forall ls p r, holds s ls p r -> uid r < next_uid s)
  /\ (forall c u, In c (calls s) -> via c = Some u -> u < next_uid s).

Definition uids_apart (s : engine) : Prop :=
  (forall ls p l, get_set ls s !! p = Some l -> NoDup (uid <$> l))
  /\ (forall ls p r ls' p' r',
        holds s ls p r -> holds s ls' p' r' -> uid r = uid r' -> ls = ls' /\ p = p').

(** The invariant of the engine behind the fire-once rule. *)
Definition fire_once_inv (beh : oracle) (s : engine) : Prop :=
  uids_fresh s /\ uids_apart s /\ fired_marked beh s /\ once_only beh (calls s).

(** Two states of the engine that differ at most in the reports made to
    the error hook. *)
Definition same_but_errors (s1 s2 : engine) : Prop :=
  with_errors [] s1 = with_errors [] s2.

(** The page whose functions return where those of [beh] throw. *)
Definition calm (beh : oracle) : oracle :=
  fun cs => match beh cs with
            | Throws => Returns
            | o => o
            end.

(** An oracle for examples: every function of the page returns, and not
    true. *)
Definition quiet : oracle := fun _ => Returns.

(** *** Dependency gating *)

(** The record of the handler [JUser n] that depends on the events [dl],
    under [p] at index [i]; when [o] holds it has not its property [once]. *)
Definition spot (n : nat) (dl : list string) (p : string) (i : nat) (o : bool) (s : engine) : Prop :=
  exists r, record_at EventSet p i s = Some r /\ handler r = JUser n
            /\ dependsOn r = JStrings dl /\ (o = true -> once r = false).

(** The state of the engine between the steps of the scenario: which of
    the two events is in the log, how often the handler was called, and
    that its only records are the two that [listen] made. *)
Definition gating_inv (n : nat) (x y : string) (ix iy : nat) (dl : list string)
    (tx ty : bool) (c : nat) (o : bool) (s : engine) : Prop :=
  isTriggered (events s) x = tx /\ isTriggered (events s) y = ty
  /\ count_calls (JUser n) (calls s) = c
  /\ (forall ls p i r, record_at ls p i s = Some r -> handler r = JUser n ->
        ls = EventSet /\ ((p = x /\ i = ix) \/ (p = y /\ i = iy)))
  /\ spot n dl x ix false s /\ spot n dl y iy o s.

(** The handler [JUser n] is not among the functions [fs]. *)
Definition clean (n : nat) (fs : list js) : Prop := _arrayHasValue fs (JUser n) = false.

(** *** The walk of [_getDifferences], property by property *)

(** The property in [obj1] that the walk compares with: [obj1[prop]] when
    [obj1] is an object. *)
Definition child (obj1 : option value) (prop : string) : option value :=
  match obj1 with
  | Some (VMap m1) => own m1 prop
  | _ => None
  end.

(** The loop of [_getDifferences] over the properties of [obj2]. *)
Fixpoint walk_props (obj1 : option value) (path : list string) (m : obj)
    (differences : list string) : list string :=
  match m with
  | [] => differences
  | (prop, v2) :: m' =>
      walk_props obj1 path m'
        match v2 with
        | VMap _ =>
            _getDifferences (child obj1 prop) v2
              match child obj1 prop with
              | None => differences ++ [join_dot (path ++ [prop])]
              | Some _ => differences
              end
              (path ++ [prop])
        | _ =>
            if negb (isObject obj1) || negb (same_json (child obj1 prop) (Some v2))
            then differences ++ [join_dot (path ++ [prop])]
            else differences
        end
  end.

(** What one binding of [obj2] contributes to the walk. *)
Definition binding_differs (obj1 : option value) (path : list string) (s : string)
    (kv : string * value) : Prop :=
  exists ks, s = join_dot (path ++ fst kv :: ks)
             /\ differs_from (child obj1 (fst kv)) (snd kv) ks.

(** *** Statements on stateful code *)

(** [keeps I m]: [m] keeps the invariant [I], whether it returns or throws.
    [returns I m]: moreover it returns. *)
Definition keeps {A} (I : engine -> Prop) (m : M A) : Prop :=
  forall s, I s -> I (snd (m s)).

Definition returns {A} (I : engine -> Prop) (m : M A) : Prop :=
  forall s, I s -> (exists a, fst (m s) = Ret a) /\ I (snd (m s)).

(** A computation of an argument leaves the engine as it is. *)
Definition reads (arg : M (option value)) : Prop := forall s, snd (arg s) = s.

(** [agree m1 m2]: from states that differ in the error reports only, [m1]
    and [m2] complete alike and leave such states. [soft d m1 m2]: or [m1]
    throws where [m2] returns [d]. *)
Definition agree {A} (m1 m2 : M A) : Prop :=
  forall s1 s2, same_but_errors s1 s2 ->
    fst (m1 s1) = fst (m2 s2) /\ same_but_errors (snd (m1 s1)) (snd (m2 s2)).

Definition soft {A} (d : A) (m1 m2 : M A) : Prop :=
  forall s1 s2, same_but_errors s1 s2 ->
    (fst (m1 s1) = fst (m2 s2) \/ (fst (m1 s1) = Throw /\ fst (m2 s2) = Ret d))
    /\ same_but_errors (snd (m1 s1)) (snd (m2 s2)).

(** [yields P Q m]: from a state in [P], [m] returns a value and a state in
    [Q]. *)
Definition yields {A} (P : engine -> Prop) (Q : A -> engine -> Prop) (m : M A) : Prop :=
  forall s, P s -> exists a, fst (m s) = Ret a /\ Q a (snd (m s)).

(** * Properties *)

(** *** Reading back what was written *)

(** What [setObjectAtPath] leaves at the end of the path, [old] being what
    was there: the merge when both are objects, or else the new value. *)
Definition stored (old : option value) (v : value) : value :=
  match old, v with
  | Some (VMap pm), VMap vm => VMap (mergeObjects pm vm)
  | _, _ => v
  end.

(** A strict prefix of the path holds [null]. *)
Definition through_null (d : obj) (path : string) : Prop :=
  exists q r, split_dot path = q ++ r /\ q <> [] /\ r <> []
              /\ walk_path q (Some (VMap d)) = Ret (Some VNull).

(** *** The loop of [mergeObjects], property by property *)

(** What [mergeObjects] leaves under a property of the source that holds
    [v], [old] being what the destination held there. *)
Definition merged_value (old : option value) (v : value) : value :=
  match v with
  | VMap vm => VMap (mergeObjects match old with Some (VMap dm) => dm | _ => [] end vm)
  | _ => v
  end.

(** The loop of [mergeObjects] over the properties of the source. *)
Fixpoint merge_props (source destination : obj) : obj :=
  match source with
  | [] => destination
  | (property, v) :: rest =>
      merge_props rest
        (put destination property (merged_value (own destination property) v))
  end.

(** *** Functions and registrations *)

(** No listener set holds a record of the function [h]. *)
Definition unregistered (h : js) (s : engine) : Prop :=
  forall ls p r, holds s ls p r -> handler r <> h.

(** The handler that [listen] and [change] register, from their second and
    third arguments. *)
Definition handler_of (second third : js) : js :=
  if js_isString third then second
  else if js_eqb third JUndefined then second else third.

(** The function that a call of the API hands in for registration. *)
Definition hands_in (o : op) : option js :=
  match o with
  | OpListen _ a b _ | OpChange _ a b _ => Some (handler_of a b)
  | _ => None
  end.

(** *** Start-up *)

(** What holds of the engine once the script is loaded, at the time [t]:
    nothing was called, triggered or reported, there are no event and no
    change listeners, and every tracked path has the default time to
    live. *)
Definition fresh_engine (t : Z) (s : engine) : Prop :=
  calls s = [] /\ events s = [] /\ errors s = []
  /\ eventListeners s = ∅ /\ propertyListeners s = ∅ /\ now s = t
  /\ forall p ttl, pathsToPersist s !! p = Some ttl -> ttl = 30%Z.

(** *** The items of a persisted path *)

(** The storage after the writer of [path] has stored the value [w] with
    the expiry time [expiry]: the probe key is gone and the two items of
    the path are set. *)
Definition written (path : string) (w : value) (expiry : Z)
    (st : list (string * cell)) : list (string * cell) :=
  put (put (del st "__storage_test__") (storagePrefix +:+ path) (CJson w))
    (storageExpirationPrefix +:+ path) (CJson (qz expiry)).

(** *** The replay of [listen] *)

(** The calls that the replay of [listen] makes through the record [u] of
    the function [f] for the logged events [evs], oldest first, before the
    calls [cs]: one call for each event, up to the first call that returns
    true. *)
Fixpoint replayed (beh : oracle) (u : nat) (f : js) (evs : list obj) (cs : list call)
  : list call :=
  match evs with
  | [] => cs
  | ev :: rest =>
      let cs' := mkCall (Some u) f (Some (VMap ev)) :: cs in
      match beh cs' with
      | ReturnsTrue => cs'
      | _ => replayed beh u f rest cs'
      end
  end.

Definition returns_true (x : outcome) : bool :=
  match x with ReturnsTrue => true | _ => false end.

(** A function that returns true at the second call made. *)
Definition twice : oracle :=
  fun cs => if (List.length cs =? 2) then ReturnsTrue else Returns.

(** ** Strings *)

Lemma append_assoc (a b c : string) : (a +:+ b) +:+ c = a +:+ (b +:+ c).
Proof. induction a as [|x a IH]; simpl; [reflexivity | now rewrite IH]. Qed.

Lemma append_nil_r (a : string) : a +:+ "" = a.
Proof. induction a as [|x a IH]; simpl; [reflexivity | now rewrite IH]. Qed.

Lemma append_length (a b : string) :
  String.length (a +:+ b) = String.length a + String.length b.
Proof. induction a as [|x a IH]; simpl; [reflexivity | now rewrite IH]. Qed.

Lemma append_inj_l (a b c : string) : a +:+ b = a +:+ c -> b = c.
Proof. induction a as [|x a IH]; simpl; intros H; [assumption | injection H; auto]. Qed.

Lemma split_dot_nonempty (s : string) : split_dot s <> [].
Proof.
  destruct s as [|c s]; simpl; [discriminate |].
  destruct (is_dot c); [discriminate |].
  destruct (split_dot s); discriminate.
Qed.

Lemma is_dot_true (c : ascii) : is_dot c = true -> c = "."%char.
Proof. unfold is_dot. apply Ascii.eqb_eq. Qed.

Lemma join_dot_cons (x : string) (l : list string) :
  l <> [] -> join_dot (x :: l) = x +:+ "." +:+ join_dot l.
Proof. destruct l; [congruence | reflexivity]. Qed.

Lemma join_split (s : string) : join_dot (split_dot s) = s.
Proof.
  induction s as [|c s IH]; [reflexivity |].
  simpl. destruct (is_dot c) eqn:E.
  - rewrite join_dot_cons by apply split_dot_nonempty.
    rewrite IH. simpl. now rewrite (is_dot_true c E).
  - pose proof (split_dot_nonempty s) as Hne.
    destruct (split_dot s) as [|h t]; [congruence |].
    destruct t as [|h' t].
    + simpl in *. now rewrite IH.
    + rewrite join_dot_cons by discriminate.
      rewrite join_dot_cons in IH by discriminate.
      rewrite <- IH. reflexivity.
Qed.

Lemma split_dot_free (s : string) : dot_free s = true -> split_dot s = [s].
Proof.
  induction s as [|c s IH]; [reflexivity |].
  simpl. intros H. apply andb_prop in H as [Hc Hs].
  apply negb_true_iff in Hc. rewrite Hc, (IH Hs). reflexivity.
Qed.

Lemma split_dot_app (p r : string) :
  split_dot (p +:+ "." +:+ r) = split_dot p ++ split_dot r.
Proof.
  induction p as [|c p IH]; [reflexivity |].
  change (split_dot (String c p +:+ "." +:+ r))
    with (split_dot (String c (p +:+ "." +:+ r))).
  cbn [split_dot]. destruct (is_dot c); [now rewrite IH |].
  rewrite IH.
  pose proof (split_dot_nonempty p) as Hne.
  destruct (split_dot p); [congruence | reflexivity].
Qed.

Lemma split_dot_segments (s : string) : Forall (fun x => dot_free x = true) (split_dot s).
Proof.
  induction s as [|c s IH]; simpl; [repeat constructor |].
  destruct (is_dot c) eqn:E; [constructor; [reflexivity | assumption] |].
  destruct (split_dot s) as [|h t]; [repeat constructor; simpl; now rewrite E |].
  inversion IH; subst. constructor; [simpl; now rewrite E | assumption].
Qed.

Lemma join_dot_app (l1 l2 : list string) :
  l1 <> [] -> l2 <> [] ->
  join_dot (l1 ++ l2) = join_dot l1 +:+ "." +:+ join_dot l2.
Proof.
  induction l1 as [|x l1 IH]; [congruence |].
  intros _ H2. destruct l1 as [|y l1].
  - simpl app. now rewrite join_dot_cons.
  - change ((x :: y :: l1) ++ l2) with (x :: ((y :: l1) ++ l2)).
    rewrite join_dot_cons by (simpl; discriminate).
    rewrite IH by (discriminate || assumption).
    rewrite (join_dot_cons x (y :: l1)) by discriminate.
    now rewrite !append_assoc.
Qed.

Lemma split_join (l : list string) :
  l <> [] -> Forall (fun x => dot_free x = true) l -> split_dot (join_dot l) = l.
Proof.
  induction l as [|x l IH]; [congruence |].
  intros _ H. inversion H as [|? ? Hx Hl]; subst.
  destruct l as [|y l].
  - simpl. now apply split_dot_free.
  - rewrite join_dot_cons by discriminate.
    rewrite split_dot_app, IH by (discriminate || assumption).
    now rewrite split_dot_free.
Qed.

(** A path cut at one of its dots is its segments cut in two. *)
Lemma split_dot_cut (path : string) (a b : list string) :
  split_dot path = a ++ b -> a <> [] -> b <> [] ->
  path = join_dot a +:+ "." +:+ join_dot b.
Proof.
  intros H Ha Hb. rewrite <- join_dot_app by assumption.
  rewrite <- H. symmetry. apply join_split.
Qed.

(** ** Wildcard matching ([getListeners]) *)

Lemma getListeners_from_candidates (reg : registry) (segs prev : list string)
    (acc : list (string * list record)) :
  getListeners_from reg prev segs acc
  = acc ++ flat_map (entry reg) (candidates prev segs).
Proof.
  revert prev acc. induction segs as [|cur rest IH]; intros prev acc.
  - simpl. now rewrite app_nil_r.
  - destruct rest as [|cur' rest].
    + simpl. now rewrite app_nil_r, <- app_assoc.
    + change (getListeners_from reg prev (cur :: cur' :: rest) acc)
        with (getListeners_from reg (prev ++ [cur]) (cur' :: rest)
                (acc ++ entry reg (join_dot (prev ++ [cur; "**"])))).
      rewrite IH.
      change (candidates prev (cur :: cur' :: rest))
        with (join_dot (prev ++ [cur; "**"]) :: candidates (prev ++ [cur]) (cur' :: rest)).
      simpl flat_map. now rewrite <- app_assoc.
Qed.

Lemma in_entry (reg : registry) (p pat : string) (hs : list record) :
  In (pat, hs) (entry reg p) <-> pat = p /\ reg !! pat = Some hs.
Proof.
  unfold entry. destruct (reg !! p) as [hs'|] eqn:E; simpl.
  - split.
    + intros [H | []]. injection H as <- <-. auto.
    + intros [-> H]. left. congruence.
  - split; [intros [] | intros [-> H]; congruence].
Qed.

Lemma in_flat_entry (reg : registry) (ps : list string) (pat : string)
    (hs : list record) :
  In (pat, hs) (flat_map (entry reg) ps) <-> In pat ps /\ reg !! pat = Some hs.
Proof.
  rewrite in_flat_map. split.
  - intros (p & Hp & Hin). apply in_entry in Hin as [-> H]. auto.
  - intros [Hin H]. exists pat. split; [assumption |]. apply in_entry. auto.
Qed.

(** The lookups of [getListeners]: the bare [**] and the candidates of the
    path. *)
Lemma getListeners_in (path pat : string) (reg : registry) (hs : list record) :
  In (pat, hs) (getListeners path reg) <->
  reg !! pat = Some hs /\ (pat = "**" \/ In pat (candidates [] (split_dot path))).
Proof.
  unfold getListeners. rewrite <- in_rev, getListeners_from_candidates, in_app_iff.
  rewrite in_entry, in_flat_entry. tauto.
Qed.

Lemma candidates_in (segs prev : list string) (pat : string) :
  segs <> [] ->
  In pat (candidates prev segs) <->
  (exists a b, segs = a ++ b /\ a <> [] /\ b <> [] /\ pat = join_dot (prev ++ a ++ ["**"]))
  \/ pat = join_dot (prev ++ removelast segs ++ ["*"])
  \/ pat = join_dot (prev ++ segs).
Proof.
  revert prev. induction segs as [|cur rest IH]; intros prev Hne; [congruence |].
  destruct rest as [|cur' rest].
  - simpl. split.
    + intros [<- | [<- | []]]; auto.
    + intros [(a & b & Hab & Ha & Hb & _) | [-> | ->]]; auto.
      exfalso. destruct a as [|x a]; [congruence |].
      destruct a; destruct b; simpl in Hab; congruence.
  - change (candidates prev (cur :: cur' :: rest))
      with (join_dot (prev ++ [cur; "**"]) :: candidates (prev ++ [cur]) (cur' :: rest)).
    change (removelast (cur :: cur' :: rest)) with (cur :: removelast (cur' :: rest)).
    cbn [In]. rewrite IH by discriminate.
    assert (Hassoc : forall l, (prev ++ [cur]) ++ l = prev ++ cur :: l)
      by (intros l; now rewrite <- app_assoc).
    split.
    + intros [<- | [(a & b & Hab & Ha & Hb & ->) | [-> | ->]]]; rewrite ?Hassoc; auto.
      * left. exists [cur], (cur' :: rest). repeat split; discriminate || reflexivity.
      * left. exists (cur :: a), b. rewrite Hab.
        repeat split; discriminate || assumption || reflexivity.
    + intros [(a & b & Hab & Ha & Hb & ->) | [-> | ->]]; rewrite ?Hassoc; auto.
      destruct a as [|x a]; [congruence |]. injection Hab as <- Hab.
      destruct a as [|y a].
      * left. reflexivity.
      * right. left. exists (y :: a), b. rewrite Hassoc.
        repeat split; discriminate || assumption || reflexivity.
Qed.

Lemma removelast_split_dot_free (path : string) :
  dot_free path = true -> removelast (split_dot path) = [].
Proof. intros H. now rewrite split_dot_free. Qed.

Lemma dot_free_app_dot (p r : string) : dot_free (p +:+ "." +:+ r) = false.
Proof.
  induction p as [|c p IH]; [reflexivity |].
  change (dot_free (String c p +:+ "." +:+ r))
    with (negb (is_dot c) && dot_free (p +:+ "." +:+ r)).
  rewrite IH. apply andb_false_r.
Qed.

(** The candidates of a path are the patterns of the grammar. *)
Lemma candidates_matches (path pat : string) :
  pat = "**" \/ In pat (candidates [] (split_dot path)) <-> matches path pat.
Proof.
  rewrite candidates_in by apply split_dot_nonempty. simpl app. split.
  - intros [-> | [(a & b & Hab & Ha & Hb & ->) | [-> | ->]]].
    + constructor.
    + rewrite join_dot_app by (assumption || discriminate). simpl join_dot.
      apply matches_below with (rest := join_dot b).
      now apply split_dot_cut.
    + remember (removelast (split_dot path)) as R eqn:E.
      pose proof (split_dot_nonempty path) as Hne.
      pose proof (split_dot_segments path) as Hseg.
      pose proof (app_removelast_last "" Hne) as Hsplit. rewrite <- E in Hsplit.
      rewrite Hsplit in Hseg. apply Forall_app in Hseg as [_ Hlast].
      inversion Hlast as [|? ? Hc _]; subst.
      destruct (removelast (split_dot path)) as [|x l].
      * simpl. apply matches_top.
        rewrite <- (join_split path), Hsplit. exact Hc.
      * rewrite join_dot_app by discriminate.
        apply (matches_child path (join_dot (x :: l)) (List.last (split_dot path) ""));
          [exact Hc |].
        apply (split_dot_cut path (x :: l) [List.last (split_dot path) ""]);
          [exact Hsplit | discriminate | discriminate].
    + rewrite join_split. constructor.
  - intros [| | Htop | p c Hc Hp | p rest Hp].
    + now left.
    + right. right. right. now rewrite join_split.
    + right. right. left. now rewrite removelast_split_dot_free.
    + right. right. left. subst path. rewrite split_dot_app, (split_dot_free c Hc).
      rewrite removelast_last, join_dot_app by (apply split_dot_nonempty || discriminate).
      now rewrite join_split.
    + right. left. exists (split_dot p), (split_dot rest). subst path.
      repeat split; try apply split_dot_nonempty.
      * apply split_dot_app.
      * rewrite join_dot_app by (apply split_dot_nonempty || discriminate).
        now rewrite join_split.
Qed.

Lemma append_same_length (a b x y : string) :
  String.length x = String.length y -> a +:+ x = b +:+ y -> a = b /\ x = y.
Proof.
  revert b. induction a as [|c a IH]; intros [|d b] Hlen H.
  - auto.
  - exfalso. apply (f_equal String.length) in H.
    change ("" +:+ x) with x in H. rewrite append_length in H. simpl in H. lia.
  - exfalso. apply (f_equal String.length) in H.
    change ("" +:+ y) with y in H. rewrite append_length in H. simpl in H. lia.
  - simpl in H. injection H as -> H. destruct (IH b Hlen H) as [-> ->]. auto.
Qed.

Lemma matches_child_iff (path p : string) :
  matches path (p +:+ ".*") <->
  exists c, dot_free c = true /\ path = p +:+ "." +:+ c.
Proof.
  split.
  - intros H. inversion H as [E | E | Htop E | p' c Hc Hp E | p' rest Hp E].
    + apply (append_same_length "" p "**" ".*") in E as [_ E]; [discriminate | reflexivity].
    + exists "*". split; reflexivity.
    + apply (f_equal String.length) in E. rewrite append_length in E. simpl in E. lia.
    + apply append_same_length in E as [-> _]; [| reflexivity]. eauto.
    + exfalso. change (p' +:+ ".**") with (p' +:+ "." +:+ "**") in E.
      rewrite <- append_assoc in E.
      apply append_same_length in E as [_ E]; [discriminate | reflexivity].
  - intros (c & Hc & ->). now apply matches_child with (c := c).
Qed.

Lemma matches_below_iff (path p : string) :
  matches path (p +:+ ".**") <-> exists rest, path = p +:+ "." +:+ rest.
Proof.
  split.
  - intros H. inversion H as [E | E | Htop E | p' c Hc Hp E | p' rest Hp E].
    + apply (f_equal String.length) in E. rewrite append_length in E. simpl in E. lia.
    + exists "**". reflexivity.
    + apply (f_equal String.length) in E. rewrite append_length in E. simpl in E. lia.
    + exfalso. change (p +:+ ".**") with (p +:+ "." +:+ "**") in E.
      rewrite <- append_assoc in E.
      apply append_same_length in E as [_ E]; [discriminate | reflexivity].
    + apply append_same_length in E as [-> _]; [| reflexivity]. eauto.
  - intros (rest & ->). now apply matches_below with (rest := rest).
Qed.

(** C2, as amended: for a changed or triggered path, the registered
    patterns that [getListeners] returns are exactly the registered ones
    among: the bare pattern [**], the path itself, [p.*] for the parent [p]
    of the path ([*] for a path of one segment) and [p.**] for the strict
    prefixes [p] of the path. So a listener on [p.*] fires exactly for the
    direct children of [p], and a listener on [p.**] exactly for the strict
    descendants of [p] at any depth, not for [p] itself. *)
Theorem getListeners_grammar (path : string) (reg : registry) :
  (forall pat, In pat (map fst (getListeners path reg)) <->
               is_Some (reg !! pat) /\ matches path pat)
  /\ (forall p, In (p +:+ ".*") (map fst (getListeners path reg)) <->
        is_Some (reg !! (p +:+ ".*")) /\
        exists c, dot_free c = true /\ path = p +:+ "." +:+ c)
  /\ (forall p, In (p +:+ ".**") (map fst (getListeners path reg)) <->
        is_Some (reg !! (p +:+ ".**")) /\
        exists rest, path = p +:+ "." +:+ rest)
  /\ ~ In (path +:+ ".**") (map fst (getListeners path reg)).
Proof.
  assert (Hmain : forall pat, In pat (map fst (getListeners path reg)) <->
                              is_Some (reg !! pat) /\ matches path pat).
  { intros pat. rewrite in_map_iff. split.
    - intros ([pat' hs] & <- & Hin). apply getListeners_in in Hin as [Hreg Hc].
      split; [eauto | now apply candidates_matches].
    - intros [[hs Hreg] Hm]. exists (pat, hs). split; [reflexivity |].
      apply getListeners_in. split; [assumption | now apply candidates_matches]. }
  split; [exact Hmain | split; [| split]].
  - intros p. now rewrite Hmain, matches_child_iff.
  - intros p. now rewrite Hmain, matches_below_iff.
  - intros Hin. apply Hmain in Hin as [_ Hm].
    apply matches_below_iff in Hm as [rest Hm].
    apply (f_equal String.length) in Hm. rewrite !append_length in Hm. simpl in Hm. lia.
Qed.

(** C2, as stated, fails: a listener on [user.**] is not returned for the
    path [user] itself. *)
Lemma getListeners_deep_wildcard_own_path :
  getListeners "user"
    (<["user.**" := [mkRecord 0 (JUser 0) JUndefined JUndefined false]]> ∅) = []
  /\ map fst (getListeners "user.address.zip"
       (<["user.**" := [mkRecord 0 (JUser 0) JUndefined JUndefined false]]> ∅))
     = ["user.**"].
Proof. split; vm_compute; reflexivity. Qed.

(** ** The emptiness predicate ([empty]) *)

Lemma trim_left_empty (s : string) : trim_left s = "" <-> all_space s = true.
Proof.
  induction s as [|c s IH]; simpl; [tauto |].
  destruct (is_space c); simpl; [assumption |].
  split; discriminate.
Qed.

Lemma trim_left_all_space (s : string) :
  all_space (trim_left s) = true -> trim_left s = "".
Proof.
  induction s as [|c s IH]; simpl; [reflexivity |].
  destruct (is_space c) eqn:E; [assumption |].
  simpl. rewrite E. discriminate.
Qed.

Lemma string_rev_onto_all_space (s acc : string) :
  all_space (string_rev_onto s acc) = all_space s && all_space acc.
Proof.
  revert acc. induction s as [|c s IH]; intros acc; simpl; [reflexivity |].
  rewrite IH. simpl. destruct (is_space c), (all_space s); reflexivity.
Qed.

Lemma string_rev_onto_empty (s acc : string) :
  string_rev_onto s acc = "" -> s = "" /\ acc = "".
Proof.
  revert acc. induction s as [|c s IH]; intros acc; simpl; [auto |].
  intros H. apply IH in H as [_ H]. discriminate.
Qed.

(** [s.trim() === ''] holds exactly for the strings of white space. *)
Lemma trim_empty (s : string) : trim s = "" <-> all_space s = true.
Proof.
  unfold trim, string_rev. split.
  - intros H. apply string_rev_onto_empty in H as [H _].
    apply trim_left_empty in H. rewrite string_rev_onto_all_space in H.
    apply andb_prop in H as [H _].
    apply trim_left_all_space in H. now apply trim_left_empty.
  - intros H. apply trim_left_empty in H. rewrite H. reflexivity.
Qed.

Lemma isInteger_iff (q : Qc) :
  isInteger (Some (VNum q)) = true <-> exists z, q = Q2Qc (inject_Z z).
Proof.
  unfold isInteger. rewrite Qeq_bool_iff. split.
  - intros H. exists (Qfloor (this q)). apply Qc_is_canon.
    change (this (Q2Qc (inject_Z (Qfloor (this q)))))
      with (Qred (inject_Z (Qfloor (this q)))).
    apply (Qeq_trans _ (inject_Z (Qfloor (this q))));
      [apply Qeq_sym; exact H | apply Qeq_sym, Qred_correct].
  - intros [z ->].
    change (this (Q2Qc (inject_Z z))) with (Qred (inject_Z z)).
    rewrite (Qfloor_comp _ _ (Qred_correct (inject_Z z))), Qfloor_Z.
    apply Qeq_sym, Qred_correct.
Qed.




(** ** Writing below a node that is not an object ([setObjectAtPath]) *)

Lemma own_put_eq {A} (m : list (string * A)) (k : string) (v : A) :
  own (put m k v) k = Some v.
Proof.
  induction m as [|[k' v'] m IH]; simpl.
  - now rewrite String.eqb_refl.
  - destruct (String.eqb k' k) eqn:E; simpl; rewrite E; [reflexivity | exact IH].
Qed.

Lemma own_put_ne {A} (m : list (string * A)) (k k' : string) (v : A) :
  k <> k' -> own (put m k v) k' = own m k'.
Proof.
  intros Hne. induction m as [|[k0 v0] m IH]; simpl.
  - apply String.eqb_neq in Hne. now rewrite Hne.
  - destruct (String.eqb k0 k) eqn:E; simpl.
    + apply String.eqb_eq in E. subst k0.
      apply String.eqb_neq in Hne. now rewrite Hne.
    + now rewrite IH.
Qed.

Lemma set_at_cons (cur : string) (rest : list string) (v : value) (prev : obj) :
  rest <> [] ->
  set_at (cur :: rest) v prev =
  match own prev cur with
  | Some (VMap pm) => put prev cur (VMap (set_at rest v pm))
  | _ => put prev cur (VMap (set_at rest v []))
  end.
Proof. destruct rest; [congruence | reflexivity]. Qed.

Lemma set_at_fresh (r : list string) (v : value) :
  r <> [] -> VMap (set_at r v []) = nest r v.
Proof.
  induction r as [|k r IH]; [congruence |]. intros _.
  destruct r as [|k' r].
  - simpl. now destruct v.
  - rewrite set_at_cons by discriminate. cbn [own put nest].
    now rewrite IH by discriminate.
Qed.

Lemma node_at_nest (q r : list string) (v : value) :
  node_at (nest (q ++ r) v) q = Some (nest r v).
Proof.
  induction q as [|k q IH]; [reflexivity |].
  simpl. now rewrite String.eqb_refl.
Qed.



(** ** Immediate persistence ([persist]) *)

Lemma walk_path_undefined (segs : list string) : walk_path segs None = Ret None.
Proof. induction segs as [|k segs IH]; [reflexivity | exact IH]. Qed.

(** With its second argument left out, [getObjectAtPath] finds nothing,
    whatever the tree holds. *)
Lemma getObjectAtPath_default (d : obj) (path : string) :
  getObjectAtPath d path None = Ret None.
Proof.
  unfold getObjectAtPath. cbn [typeof strict_neq same_json negb].
  destruct (String.eqb path ""); [reflexivity | apply walk_path_undefined].
Qed.

Lemma register_storage (ls : listenerSet) (p : string) (h d i : js) (s : engine) :
  storage (snd (register ls p h d i s)) = storage s
  /\ dd (snd (register ls p h d i s)) = dd s
  /\ exists b, fst (register ls p h d i s) = Ret b.
Proof.
  unfold register. destruct (registerListener _ _ _ _ _ _) as [b reg].
  destruct ls; simpl; eauto.
Qed.

(** [persist] never reaches the writer: the storage is as it was. *)
Lemma persist_keeps_storage (path : string) (ttl : option value) (s : engine) :
  storage (exec (persist path ttl) s) = storage s
  /\ dd (exec (persist path ttl) s) = dd s.
Proof.
  unfold exec, persist, try_catch, bind, gets, when, modify, lift, ret.
  cbn [fst snd].
  destruct (negb (bool_decide (is_Some (pathsToPersist s !! path)))).
  - destruct (register PersistenceSet path (JWriter path) JUndefined JUndefined s)
      as [r1 s1] eqn:E1.
    pose proof (register_storage PersistenceSet path (JWriter path) JUndefined JUndefined s)
      as (Hs1 & Hd1 & b1 & Hb1).
    rewrite E1 in Hs1, Hd1, Hb1. cbn [fst snd] in *. subst r1.
    destruct (register PersistenceSet (path +:+ ".**") (JWriter path) JUndefined JUndefined s1)
      as [r2 s2] eqn:E2.
    pose proof (register_storage PersistenceSet (path +:+ ".**") (JWriter path)
                  JUndefined JUndefined s1) as (Hs2 & Hd2 & b2 & Hb2).
    rewrite E2 in Hs2, Hd2, Hb2. cbn [fst snd] in *. subst r2.
    cbn [dd with_pathsToPersist]. rewrite getObjectAtPath_default.
    simpl. split; congruence.
  - cbn [dd with_pathsToPersist]. rewrite getObjectAtPath_default.
    simpl. auto.
Qed.

(** C4 on the code: with the value ["v"] at [k], an available and empty
    storage and a ttl of 60 minutes, [persist("k", 60)] writes nothing,
    although [has("k")] holds; the writer runs only at the next change. *)
Theorem persist_skips_present_value :
  let s := with_dd [("k", VStr "v")] (initial true [] 1000) in
  result (has "k") s = Ret true
  /\ storage (exec (persist "k" (Some (qz 60))) s) = []
  /\ storage (run (fun _ => Returns)
                [OpPersist "k" (Some (qz 60)); OpSet "k" (VStr "w") JUndefined None] s)
     = [("dd_p_k", CJson (VStr "w")); ("dd_p_exp_k", CJson (qz 3601000))].
Proof. repeat split; vm_compute; reflexivity. Qed.

(** ** Registering a handler twice ([registerListener]) *)

(** The test of [registerListener] for an earlier registration never
    succeeds: a record is added at every call. *)
Lemma registerListener_always_adds (u : nat) (path : string) (h d i : js)
    (reg : registry) :
  exists r, handler r = h /\ uid r = u /\ once r = false /\
    registerListener u path h reg d i
    = (true, <[path := default [] (reg !! path) ++ [r]]> reg).
Proof.
  unfold registerListener.
  assert (H : existsb (fun li => record_is_value li h) (default [] (reg !! path)) = false).
  { induction (default [] (reg !! path)) as [|r l IH]; [reflexivity |].
    simpl. rewrite IH. now destruct h. }
  rewrite H.
  exists (mkRecord u h (if js_isString d then d else i)
            (if js_isString d then JUndefined else d) false).
  repeat split.
Qed.

(** C3 on the code: the same function registered twice for the same event
    gives two records, and one trigger calls the function twice; the same
    holds for a change listener. *)
Theorem same_handler_registered_twice :
  let beh : oracle := fun _ => Returns in
  let s1 := run beh [OpListen (One "e") (JBool false) (JUser 1) JUndefined]
              (initial true [] 0) in
  let s2 := run beh [OpListen (One "e") (JBool false) (JUser 1) JUndefined] s1 in
  (List.length <$> eventListeners s1 !! "e") = Some 1
  /\ (List.length <$> eventListeners s2 !! "e") = Some 2
  /\ count_calls (JUser 1) (calls (run beh [OpTrigger "e" None] s2)) = 2
  /\ count_calls (JUser 1)
       (calls (run beh [OpChange "a" (JBool true) (JUser 1) JUndefined;
                        OpChange "a" (JBool true) (JUser 1) JUndefined;
                        OpSet "a" (qz 1) JUndefined None] (initial true [] 0))) = 2.
Proof. repeat split; vm_compute; reflexivity. Qed.

(** ** Persistence round trip ([_persist], [restorePersistedDD]) *)

(** C7 on the code: with a value at [k], [persist("k", 60)] stores nothing,
    so a start-up one second later restores nothing and tracks no path.
    With a ttl of 0 nothing is restored either. When the value is written
    after [persist("k", 60)], the start-up restores it and tracks [k]
    again. *)
Theorem persist_then_restore :
  let beh : oracle := fun _ => Returns in
  let s := with_dd [("k", VStr "v")] (initial true [] 1000) in
  let stored60 := storage (run beh [OpPersist "k" (Some (qz 60))] s) in
  let stored0 := storage (run beh [OpPersist "k" (Some (qz 0));
                                   OpSet "k" (VStr "w") JUndefined None] s) in
  let later := storage (run beh [OpPersist "k" (Some (qz 60));
                                 OpSet "k" (VStr "w") JUndefined None] s) in
  dd (boot true stored60 2000) = []
  /\ pathsToPersist (boot true stored60 2000) !! "k" = None
  /\ dd (boot true stored0 2000) = []
  /\ storage (boot true stored0 2000) = []
  /\ dd (boot true later 2000) = [("k", VStr "w")]
  /\ pathsToPersist (boot true later 2000) !! "k" = Some 30%Z
  /\ dd (boot true later (1000 + 60 * 60000)) = [].
Proof. repeat split; vm_compute; reflexivity. Qed.

(** ** The diff engine ([getDifferences]) *)

Lemma value_ind_nested (P : value -> Prop) :
  P VNull -> (forall b, P (VBool b)) -> (forall q, P (VNum q)) ->
  (forall s, P (VStr s)) ->
  (forall l, Forall P l -> P (VList l)) ->
  (forall m, Forall (fun kv => P (snd kv)) m -> P (VMap m)) ->
  forall v, P v.
Proof.
  intros Hnull Hbool Hnum Hstr Hlist Hmap.
  fix IH 1. intros [| b | q | s | l | m].
  - exact Hnull.
  - apply Hbool.
  - apply Hnum.
  - apply Hstr.
  - apply Hlist. induction l as [|a l IHl]; constructor; [apply IH | exact IHl].
  - apply Hmap. induction m as [|[k a] m IHm]; constructor; [apply IH | exact IHm].
Qed.

Lemma Qc_eqb_eq (a b : Qc) : Qc_eqb a b = true <-> a = b.
Proof.
  unfold Qc_eqb. rewrite Qeq_bool_iff. split.
  - apply Qc_is_canon.
  - intros ->. apply Qeq_refl.
Qed.

(** Two values have the same serialisation exactly when they are equal. *)
Lemma value_eqb_eq (a b : value) : value_eqb a b = true <-> a = b.
Proof.
  revert b. induction a as [| x | x | x | l IH | m IH] using value_ind_nested;
    intros [| y | y | y | l' | m']; simpl; try (split; [discriminate | congruence]);
    try tauto.
  - rewrite Bool.eqb_true_iff. split; congruence.
  - rewrite Qc_eqb_eq. split; congruence.
  - rewrite String.eqb_eq. split; congruence.
  - revert l'. induction IH as [|a l Ha _ IHl]; intros [|b l'];
      try (split; [discriminate | congruence]); [tauto |].
    rewrite andb_true_iff, Ha. specialize (IHl l').
    split.
    + intros [-> H]. apply IHl in H. congruence.
    + intros H. injection H as -> ->. split; [reflexivity |]. now apply IHl.
  - revert m'. induction IH as [|[k a] m Ha _ IHm]; intros [|[k' b] m'];
      try (split; [discriminate | congruence]); [tauto |].
    rewrite !andb_true_iff, String.eqb_eq. simpl in Ha. rewrite Ha.
    specialize (IHm m'). split.
    + intros [[-> ->] H]. apply IHm in H. congruence.
    + intros H. injection H as -> -> ->. repeat split. now apply IHm.
Qed.

Lemma same_json_eq (a b : option value) : same_json a b = true <-> a = b.
Proof.
  destruct a, b; simpl; try (split; [discriminate | congruence]); [| tauto].
  rewrite value_eqb_eq. split; congruence.
Qed.

Lemma _getDifferences_object (obj1 : option value) (m2 : obj)
    (differences path : list string) :
  _getDifferences obj1 (VMap m2) differences path = walk_props obj1 path m2 differences.
Proof.
  cbn [_getDifferences]. revert differences.
  induction m2 as [|[prop v2] m2 IH]; intros differences; [reflexivity |].
  cbn [walk_props]. rewrite <- IH. reflexivity.
Qed.

Lemma node_at_child (o1 : option value) (k : string) (ks : list string) :
  (o1 ≫= fun v => node_at v (k :: ks)) = (child o1 k ≫= fun v => node_at v ks).
Proof.
  destruct o1 as [[| | | | |m1]|]; reflexivity.
Qed.

Lemma differs_from_cons (o1 : option value) (m2 : obj) (k : string)
    (ks : list string) :
  differs_from o1 (VMap m2) (k :: ks) <->
  exists c, own m2 k = Some c /\ differs_from (child o1 k) c ks.
Proof.
  unfold differs_from. rewrite node_at_child. cbn [node_at].
  destruct (own m2 k) as [c|]; [| split; [tauto | intros (c & H & _); discriminate]].
  split; [eauto | intros (c' & H & Hd); now injection H as <-].
Qed.

Lemma differs_from_leaf (o1 : option value) (v2 : value) (ks : list string) :
  isObject (Some v2) = false -> ks <> [] -> ~ differs_from o1 v2 ks.
Proof.
  intros Hv Hks. destruct ks as [|k ks]; [congruence |].
  unfold differs_from. destruct v2; simpl; try tauto. discriminate.
Qed.

Lemma own_in_nodup {A} (m : list (string * A)) (k : string) (v : A) :
  NoDup (map fst m) -> (In (k, v) m <-> own m k = Some v).
Proof.
  induction m as [|[k' v'] m IH]; simpl; intros Hnd.
  - split; [tauto | discriminate].
  - inversion Hnd as [|? ? Hnot Hnd']; subst.
    destruct (String.eqb k' k) eqn:E.
    + apply String.eqb_eq in E. subst k'. split.
      * intros [H | H]; [congruence |].
        exfalso. apply Hnot. apply list_elem_of_In, in_map_iff. now exists (k, v).
      * intros H. left. congruence.
    + apply String.eqb_neq in E. rewrite <- IH by assumption. split.
      * intros [H | H]; [congruence | assumption].
      * auto.
Qed.

Lemma wf_object (m : obj) :
  wf (VMap m) <-> NoDup (map fst m) /\ Forall (fun kv => wf (snd kv)) m.
Proof.
  cbn [wf]. split; intros [Hnd H]; (split; [assumption |]); clear Hnd.
  - induction m as [|[k a] m IH]; constructor; [apply H | apply IH, H].
  - induction m as [|[k a] m IH]; [exact I |].
    inversion H; subst. split; [assumption | now apply IH].
Qed.

(** One walk records the paths of what [obj2] holds and [obj1] lacks. *)
Lemma _getDifferences_in (obj2 : value) :
  wf obj2 ->
  forall (obj1 : option value) (differences path : list string) (s : string),
    In s (_getDifferences obj1 obj2 differences path) <->
    In s differences
    \/ exists ks, ks <> [] /\ s = join_dot (path ++ ks) /\ differs_from obj1 obj2 ks.
Proof.
  induction obj2 as [| b | q | str | l _ | m2 IH] using value_ind_nested;
    intros Hwf obj1 differences path s;
    try (cbn [_getDifferences]; split; [auto |];
         intros [H | (ks & Hks & _ & H)]; [assumption |];
         now apply differs_from_leaf in H).
  rewrite _getDifferences_object.
  apply wf_object in Hwf as [Hnd Hwf].
  assert (Hloop : forall m acc,
            Forall (fun kv => wf (snd kv)) m ->
            Forall (fun kv => wf (snd kv) ->
                      forall (obj1 : option value) (differences path : list string) (s : string),
                        In s (_getDifferences obj1 (snd kv) differences path) <->
                        In s differences
                        \/ exists ks, ks <> [] /\ s = join_dot (path ++ ks)
                                      /\ differs_from obj1 (snd kv) ks) m ->
            In s (walk_props obj1 path m acc) <->
            In s acc \/ Exists (binding_differs obj1 path s) m).
  { clear. intros m. induction m as [|[k c] m IHm]; intros acc Hwf IH.
    - simpl. rewrite Exists_nil. tauto.
    - inversion Hwf as [|? ? Hc Hwf']; subst. inversion IH as [|? ? IHc IH']; subst.
      cbn [walk_props]. rewrite IHm by assumption. rewrite Exists_cons.
      cbn [snd] in IHc, Hc.
      assert (Hstep : In s match c with
                 | VMap _ =>
                     _getDifferences (child obj1 k) c
                       match child obj1 k with
                       | None => acc ++ [join_dot (path ++ [k])]
                       | Some _ => acc
                       end (path ++ [k])
                 | _ =>
                     if negb (isObject obj1) || negb (same_json (child obj1 k) (Some c))
                     then acc ++ [join_dot (path ++ [k])]
                     else acc
                 end <-> In s acc \/ binding_differs obj1 path s (k, c)).
      { unfold binding_differs. cbn [fst snd].
        assert (Hleaf : isObject (Some c) = false ->
                  (In s (if negb (isObject obj1) || negb (same_json (child obj1 k) (Some c))
                         then acc ++ [join_dot (path ++ [k])] else acc)
                   <-> In s acc \/ exists ks, s = join_dot (path ++ k :: ks)
                                              /\ differs_from (child obj1 k) c ks)).
        { intros Hc'.
          assert (Hcond : negb (isObject obj1) || negb (same_json (child obj1 k) (Some c)) = true
                          <-> differs_from (child obj1 k) c []).
          { unfold differs_from. cbn [node_at].
            replace (child obj1 k ≫= fun v => Some v) with (child obj1 k)
              by (now destruct (child obj1 k)).
            rewrite orb_true_iff, !negb_true_iff.
            assert (Hs : same_json (child obj1 k) (Some c) = false
                         <-> child obj1 k <> Some c).
            { rewrite <- same_json_eq. now destruct (same_json _ _). }
            rewrite Hs. split.
            - intros [Ho | Hne].
              + assert (child obj1 k = None) as ->
                  by (destruct obj1 as [[]|]; try reflexivity; discriminate).
                now destruct c.
              + now destruct c.
            - intros H. right. now destruct c. }
          destruct (negb (isObject obj1) || negb (same_json (child obj1 k) (Some c))) eqn:E.
          - rewrite in_app_iff. simpl. split.
            + intros [H | [<- | []]]; [now left |]. right. exists []. split; [reflexivity |].
              now apply Hcond.
            + intros [H | (ks & -> & Hd)]; [now left |].
              destruct ks as [|k' ks]; [right; now left |].
              now apply differs_from_leaf in Hd.
          - split; [now left |]. intros [H | (ks & -> & Hd)]; [assumption |].
            destruct ks as [|k' ks].
            + apply Hcond in Hd. discriminate.
            + now apply differs_from_leaf in Hd. }
        destruct c as [| b | q | str | l | m']; try (apply Hleaf; reflexivity).
        rewrite (IHc Hc).
        assert (Hhead : In s match child obj1 k with
                             | None => acc ++ [join_dot (path ++ [k])]
                             | Some _ => acc
                             end
                        <-> In s acc \/ (s = join_dot (path ++ [k])
                                         /\ differs_from (child obj1 k) (VMap m') [])).
        { unfold differs_from. cbn [node_at].
          destruct (child obj1 k); simpl.
          - split; [now left |]. intros [H | [_ H]]; [assumption | discriminate].
          - rewrite in_app_iff. simpl. split.
            + intros [H | [<- | []]]; auto.
            + intros [H | [-> _]]; auto. }
        rewrite Hhead. split.
        - intros [[H | [-> Hd]] | (ks & Hks & -> & Hd)].
          + now left.
          + right. now exists [].
          + right. exists ks. now rewrite <- app_assoc in *.
        - intros [H | (ks & -> & Hd)]; [now left; left |].
          destruct ks as [|k' ks].
          + left. right. auto.
          + right. exists (k' :: ks). rewrite <- app_assoc.
            repeat split; [discriminate | assumption]. }
      rewrite Hstep. tauto. }
  rewrite Hloop by assumption.
  apply or_iff_compat_l. rewrite Exists_exists. split.
  - intros ([k c] & Hin & ks & -> & Hd). apply list_elem_of_In in Hin.
    cbn [fst snd] in *. exists (k :: ks).
    split; [discriminate | split; [reflexivity |]].
    apply differs_from_cons. exists c.
    split; [now apply own_in_nodup | assumption].
  - intros (ks & Hks & -> & Hd). destruct ks as [|k ks]; [congruence |].
    apply differs_from_cons in Hd as (c & Hown & Hd).
    exists (k, c). split; [apply list_elem_of_In; now apply own_in_nodup |].
    now exists ks.
Qed.

Lemma uniq_from_spec (all : list string) :
  forall (seen : gset string) (result : list string),
    (forall x, x ∈ seen <-> In x result) -> NoDup result ->
    NoDup (uniq_from all seen result)
    /\ forall s, In s (uniq_from all seen result) <-> In s result \/ In s all.
Proof.
  induction all as [|d all IH]; intros seen result Hseen Hnd.
  - simpl. split; [assumption | tauto].
  - cbn [uniq_from]. destruct (decide (d ∈ seen)) as [Hin | Hnot].
    + destruct (IH seen result Hseen Hnd) as [H1 H2]. split; [assumption |].
      intros s. rewrite H2. simpl. split; [tauto |].
      intros [H | [<- | H]]; auto. left. now apply Hseen.
    + destruct (IH ({[d]} ∪ seen) (result ++ [d])) as [H1 H2].
      * intros x. rewrite elem_of_union, elem_of_singleton, in_app_iff, Hseen.
        simpl. split; [intros [-> | H] | intros [H | [-> | []]]]; auto.
      * apply NoDup_app. split; [assumption | split; [| apply NoDup_singleton]].
        intros x Hx Hx'. apply list_elem_of_singleton in Hx'. subst x.
        apply Hnot, Hseen. now apply list_elem_of_In.
      * split; [assumption |]. intros s. rewrite H2, in_app_iff. simpl. tauto.
Qed.



(** ** Reasoning on stateful code *)

Section Rules.

Context {A B : Type} (I : engine -> Prop).

Lemma returns_keeps (m : M A) : returns I m -> keeps I m.
Proof. intros H s Hs. now apply H. Qed.

Lemma keeps_ret (a : A) : keeps I (ret a).
Proof. now intros s Hs. Qed.

Lemma returns_ret (a : A) : returns I (ret a).
Proof. intros s Hs. split; [now exists a | assumption]. Qed.

Lemma keeps_throw : keeps I (@throw A).
Proof. now intros s Hs. Qed.

Lemma keeps_gets (f : engine -> A) : keeps I (gets f).
Proof. now intros s Hs. Qed.

Lemma returns_gets (f : engine -> A) : returns I (gets f).
Proof. intros s Hs. split; [now exists (f s) | assumption]. Qed.

Lemma keeps_lift (r : res A) : keeps I (lift r).
Proof. now intros s Hs. Qed.

Lemma keeps_modify (f : engine -> engine) :
  (forall s, I s -> I (f s)) -> keeps I (modify f).
Proof. intros H s Hs. now apply H. Qed.

Lemma returns_modify (f : engine -> engine) :
  (forall s, I s -> I (f s)) -> returns I (modify f).
Proof. intros H s Hs. split; [now exists tt | now apply H]. Qed.

Lemma keeps_bind (m : M A) (k : A -> M B) :
  keeps I m -> (forall a, keeps I (k a)) -> keeps I (bind m k).
Proof.
  intros Hm Hk s Hs. unfold bind. specialize (Hm s Hs).
  destruct (m s) as [[a|] s']; [now apply Hk | assumption].
Qed.

Lemma returns_bind (m : M A) (k : A -> M B) :
  returns I m -> (forall a, returns I (k a)) -> returns I (bind m k).
Proof.
  intros Hm Hk s Hs. unfold bind. destruct (Hm s Hs) as [[a Ha] Hs'].
  destruct (m s) as [[a'|] s']; [now apply Hk | discriminate].
Qed.

(** What [gets] returns is read from the state in which the rest runs. *)
Lemma keeps_bind_gets (f : engine -> A) (k : A -> M B) :
  (forall s, I s -> I (snd (k (f s) s))) -> keeps I (bind (gets f) k).
Proof. intros H s Hs. now apply H. Qed.

Lemma returns_bind_gets (f : engine -> A) (k : A -> M B) :
  (forall s, I s -> (exists b, fst (k (f s) s) = Ret b) /\ I (snd (k (f s) s))) ->
  returns I (bind (gets f) k).
Proof. intros H s Hs. now apply H. Qed.

Lemma keeps_try_catch (body recover : M A) :
  keeps I body -> keeps I recover -> keeps I (try_catch body recover).
Proof.
  intros Hb Hr s Hs. unfold try_catch. specialize (Hb s Hs).
  destruct (body s) as [[a|] s']; [assumption | now apply Hr].
Qed.

Lemma returns_try_catch (body recover : M A) :
  keeps I body -> returns I recover -> returns I (try_catch body recover).
Proof.
  intros Hb Hr s Hs. unfold try_catch. specialize (Hb s Hs).
  destruct (body s) as [[a|] s']; [split; [now exists a | assumption] | now apply Hr].
Qed.

Lemma keeps_fold_m (f : B -> A -> M B) (l : list A) (b : B) :
  (forall b a, keeps I (f b a)) -> keeps I (fold_m f l b).
Proof.
  intros H. revert b. induction l as [|a l IH]; intros b; simpl.
  - now intros s Hs.
  - intros s Hs. unfold bind. specialize (H b a s Hs).
    destruct (f b a s) as [[b'|] s']; [now apply IH | assumption].
Qed.

Lemma returns_fold_m (f : B -> A -> M B) (l : list A) (b : B) :
  (forall b a, In a l -> returns I (f b a)) -> returns I (fold_m f l b).
Proof.
  revert b. induction l as [|a l IH]; intros b H; simpl.
  - intros s Hs. split; [now exists b | assumption].
  - intros s Hs. unfold bind. destruct (H b a (or_introl eq_refl) s Hs) as [[b' Hb'] Hs'].
    destruct (f b a s) as [[b''|] s']; [| discriminate].
    apply IH; [intros; apply H; now right | assumption].
Qed.

End Rules.

Lemma keeps_when (I : engine -> Prop) (b : bool) (m : M unit) :
  keeps I m -> keeps I (when b m).
Proof. intros H. destruct b; [assumption | apply keeps_ret]. Qed.

Lemma returns_when (I : engine -> Prop) (b : bool) (m : M unit) :
  returns I m -> returns I (when b m).
Proof. intros H. destruct b; [assumption | apply returns_ret]. Qed.

Lemma keeps_for_each {A} (I : engine -> Prop) (l : list A) (f : A -> M unit) :
  (forall a, keeps I (f a)) -> keeps I (for_each l f).
Proof. intros H. apply (keeps_fold_m I (fun _ a => f a)). intros _ a. apply H. Qed.

Lemma returns_for_each {A} (I : engine -> Prop) (l : list A) (f : A -> M unit) :
  (forall a, In a l -> returns I (f a)) -> returns I (for_each l f).
Proof.
  intros H. apply (returns_fold_m I (fun _ a => f a)). intros _ a Ha. now apply H.
Qed.

Lemma for_each_app {A} (l1 l2 : list A) (f : A -> M unit) (s : engine) :
  for_each (l1 ++ l2) f s = (for_each l1 f ;; for_each l2 f) s.
Proof.
  unfold for_each. revert s. induction l1 as [|a l1 IH]; intros s; simpl.
  - reflexivity.
  - unfold bind. destruct (f a s) as [[[]|] s']; [| reflexivity].
    rewrite IH. reflexivity.
Qed.

(** ** The effect of one guarded invocation *)

Lemma get_set_with_set (ls ls' : listenerSet) (reg : registry) (s : engine) :
  get_set ls' (with_set ls reg s) = if decide (ls' = ls) then reg else get_set ls' s.
Proof. destruct ls, ls'; reflexivity. Qed.

Lemma touches_refl (ls : listenerSet) (s : engine) : touches ls s s.
Proof. repeat split; auto. Qed.

(** [_persist] returns and writes to the storage only. *)
Lemma _persist_effect (key : string) (v ttl : option value) (s : engine) :
  exists st, _persist key v ttl s = (Ret tt, with_storage st s).
Proof.
  unfold _persist, storageAvailable, bind, gets, when, modify, ret, setItem, removeItem.
  destruct (storage_ok s) eqn:Hok; cbn [fst snd].
  - cbn [now with_storage].
    destruct (now s <? now s + (if isInteger ttl then int_of ttl else 30) * 60000)%Z;
      eexists; reflexivity.
  - exists (storage s). destruct s; reflexivity.
Qed.

Section Effects.

Variable beh : oracle.

Lemma touches_with_set (ls : listenerSet) (reg : registry) (s s0 : engine) :
  touches ls s s0 -> touches ls s (with_set ls reg s0).
Proof.
  intros (H1 & H2 & H3 & H4 & H5 & H6 & H7 & H8).
  repeat split; try (now destruct ls).
  intros ls' Hne. rewrite get_set_with_set.
  destruct (decide (ls' = ls)); [contradiction | now apply H8].
Qed.

Lemma touches_with_calls (ls : listenerSet) (cs : list call) (s s0 : engine) :
  touches ls s s0 -> touches ls s (with_calls cs s0).
Proof.
  intros (H1 & H2 & H3 & H4 & H5 & H6 & H7 & H8).
  repeat split; auto; intros ls' Hne; rewrite <- H8 by assumption; now destruct ls'.
Qed.

Lemma touches_with_errors (ls : listenerSet) (er : list report) (s s0 : engine) :
  touches ls s s0 -> touches ls s (with_errors er s0).
Proof.
  intros (H1 & H2 & H3 & H4 & H5 & H6 & H7 & H8).
  repeat split; auto; intros ls' Hne; rewrite <- H8 by assumption; now destruct ls'.
Qed.

Lemma touches_with_storage (ls : listenerSet) (st : list (string * cell))
    (s s0 : engine) :
  touches ls s s0 -> touches ls s (with_storage st s0).
Proof.
  intros (H1 & H2 & H3 & H4 & H5 & H6 & H7 & H8).
  repeat split; auto; intros ls' Hne; rewrite <- H8 by assumption; now destruct ls'.
Qed.

Lemma guarded_call_effect (ls : listenerSet) (p : string) (h : nat)
    (arg : M (option value)) (name : string) (s : engine) :
  reads arg ->
  exists s', guarded_call beh ls p h arg name s = (Ret tt, s')
             /\ guarded_effect beh ls p h (fst (arg s)) s s'.
Proof.
  intros Harg. unfold guarded_call, bind, gets, try_catch.
  destruct (record_at ls p h s) as [r|] eqn:Hr.
  2:{ exists s. split; [reflexivity |]. apply guarded_skip; auto. }
  destruct (once r) eqn:Honce.
  { exists s. split; [reflexivity |]. apply guarded_skip; eauto. }
  specialize (Harg s).
  destruct (arg s) as [[a|] s0]; cbn [fst snd] in *; subst s0.
  2:{ eexists. split; [reflexivity |].
      apply (guarded_report beh ls p h _ s _ r);
        try assumption; try (now left); try (now destruct ls);
        apply touches_with_errors, touches_refl. }
  unfold invoke, bind, modify, gets, throw.
  destruct (handler r) as [| b | str | strs | n | wpath] eqn:Hh;
    try (eexists; split; [reflexivity |];
         apply (guarded_report beh ls p h _ s _ r);
           try assumption; try (right; now rewrite Hh); try (now destruct ls);
           apply touches_with_errors, touches_refl).
  - (* a function of the page *)
    cbn [calls with_calls].
    destruct (beh (mkCall (Some (uid r)) (JUser n) a :: calls s)) eqn:Hbeh;
      cbn [ret when mark_once modify handleError];
      (eexists; split; [reflexivity |];
       apply (guarded_invoked beh ls p h _ s _ r a);
         try assumption; try reflexivity;
         try (now rewrite Hh); try (rewrite Hh; now destruct ls);
         try (try apply touches_with_set; try apply touches_with_errors;
              apply touches_with_calls, touches_refl);
         rewrite Hh, Hbeh; cbn [user_fn andb]; try rewrite get_set_with_set;
         try (destruct (decide (ls = ls)); [| contradiction]); now destruct ls).
  - (* the writer of a persisted path *)
    destruct (_persist_effect wpath a
                (qz <$> pathsToPersist (with_calls (mkCall (Some (uid r)) (JWriter wpath) a :: calls s) s) !! wpath)
                (with_calls (mkCall (Some (uid r)) (JWriter wpath) a :: calls s) s))
      as [st Hst].
    rewrite Hst. cbn [ret when].
    eexists. split; [reflexivity |].
    apply (guarded_invoked beh ls p h _ s _ r a);
      try assumption; try reflexivity;
      try (now rewrite Hh); try (rewrite Hh; now destruct ls);
      try (apply touches_with_storage, touches_with_calls, touches_refl).
Qed.

End Effects.

(** ** Fire-once *)

Section FireOnce.

Variable beh : oracle.

Lemma fired_cons (u : nat) (c : call) (cs : list call) :
  fired beh u (c :: cs) <->
  fired beh u cs \/ (via c = Some u /\ returned_true beh c cs).
Proof.
  split.
  - intros (later & c0 & earlier & Heq & Hvia & Hret).
    destruct later as [|c1 later]; simpl in Heq; injection Heq as ? ?; subst.
    + now right.
    + left. now exists later, c0, earlier.
  - intros [(later & c0 & earlier & -> & Hvia & Hret) | [Hvia Hret]].
    + now exists (c :: later), c0, earlier.
    + now exists [], c, cs.
Qed.

Lemma once_only_cons (c : call) (cs : list call) :
  once_only beh (c :: cs) <->
  once_only beh cs /\ forall u, fired beh u cs -> via c <> Some u.
Proof.
  split.
  - intros H. split.
    + intros later c0 earlier u -> Hvia Hret c' Hin.
      apply (H (c :: later) c0 earlier u); auto. now right.
    + intros u (later & c0 & earlier & -> & Hvia & Hret).
      apply (H (c :: later) c0 earlier u); auto. now left.
  - intros [H1 H2] later c0 earlier u Heq Hvia Hret c' Hin.
    destruct later as [|c1 later]; [destruct Hin |].
    simpl in Heq. injection Heq as ? ?; subst.
    destruct Hin as [<- | Hin].
    + apply H2. now exists later, c0, earlier.
    + now apply (H1 later c0 earlier u).
Qed.

(** The invariant reads the listener sets, the calls and the rank of the
    next record only. *)
Lemma fire_once_inv_ext (s s' : engine) :
  (forall ls, get_set ls s' = get_set ls s) -> next_uid s' = next_uid s ->
  calls s' = calls s -> fire_once_inv beh s -> fire_once_inv beh s'.
Proof.
  intros Hreg Hn Hc ((F1 & F2) & (A1 & A2) & M & O).
  assert (Hh : forall ls p r, holds s' ls p r <-> holds s ls p r)
    by (intros; unfold holds; now rewrite Hreg).
  repeat split.
  - intros ls p r H. rewrite Hn. apply (F1 ls p r). now apply Hh.
  - intros c u. rewrite Hc, Hn. apply F2.
  - intros ls p l. rewrite Hreg. apply A1.
  - apply (A2 ls p r ls' p' r'); [now apply Hh | now apply Hh | assumption].
  - apply (A2 ls p r ls' p' r'); [now apply Hh | now apply Hh | assumption].
  - intros u ls p r. rewrite Hc, Hh. apply M.
  - now rewrite Hc.
Qed.

Lemma record_at_holds (ls : listenerSet) (p : string) (h : nat) (s : engine)
    (r : record) :
  record_at ls p h s = Some r -> holds s ls p r.
Proof.
  unfold record_at, holds. destruct (get_set ls s !! p) as [l|]; simpl.
  - intros H. exists l. split; [reflexivity |]. apply list_elem_of_lookup. eauto.
  - now rewrite lookup_nil.
Qed.

Lemma uid_alter_set_once (h : nat) (l : list record) :
  uid <$> alter set_once h l = uid <$> l.
Proof.
  rewrite (list_fmap_alter uid set_once (fun u => u)).
  - now apply list_alter_id.
  - apply Forall_forall. reflexivity.
Qed.

(** The records of a listener set after one of them got its property
    [once]. *)
Lemma holds_marked (ls : listenerSet) (p : string) (h : nat) (s s' : engine)
    (ls' : listenerSet) (p' : string) (r' : record) :
  get_set ls s' = alter (alter set_once h) p (get_set ls s) ->
  (forall ls0, ls0 <> ls -> get_set ls0 s' = get_set ls0 s) ->
  holds s' ls' p' r' ->
  exists r0 i, holds s ls' p' r0 /\ uid r' = uid r0
               /\ (once r0 = true -> once r' = true)
               /\ record_at ls' p' i s = Some r0
               /\ (ls' = ls -> p' = p -> i = h -> once r' = true).
Proof.
  intros Hls Hother (l' & Hl' & Hin).
  assert (Hplain : get_set ls' s !! p' = Some l' ->
            exists r0 i, holds s ls' p' r0 /\ uid r' = uid r0
               /\ (once r0 = true -> once r' = true)
               /\ record_at ls' p' i s = Some r0
               /\ (ls' = ls -> p' = p -> i = h -> once r' = true)).
  { intros H. apply list_elem_of_lookup in Hin as [i Hi].
    exists r', i.
    split; [exists l'; split; [assumption | apply list_elem_of_lookup; eauto] |].
    split; [reflexivity |]. split; [auto |].
    split; [unfold record_at; now rewrite H |].
    intros -> -> ->.
    rewrite Hls, lookup_alter_eq, H in Hl'. simpl in Hl'. injection Hl' as Hl'.
    assert (Hh : alter set_once h l' !! h = Some r') by now rewrite Hl'.
    rewrite list_lookup_alter_eq, Hi in Hh. simpl in Hh. injection Hh as Hh.
    now rewrite <- Hh. }
  destruct (decide (ls' = ls)) as [-> | Hne]; [| apply Hplain; now rewrite <- Hother].
  destruct (decide (p' = p)) as [-> | Hnp].
  2:{ apply Hplain. rewrite Hls, lookup_alter_ne in Hl'; auto. }
  rewrite Hls, lookup_alter_eq in Hl'.
  destruct (get_set ls s !! p) as [l|] eqn:Hl; [| discriminate].
  simpl in Hl'. injection Hl' as <-.
  apply list_elem_of_lookup in Hin as [i Hi].
  destruct (decide (i = h)) as [-> | Hih].
  - rewrite list_lookup_alter_eq in Hi.
    destruct (l !! h) as [r0|] eqn:Hr0; [| discriminate].
    simpl in Hi. injection Hi as <-.
    exists r0, h.
    split; [exists l; split; [assumption | apply list_elem_of_lookup; eauto] |].
    split; [reflexivity |]. split; [reflexivity |].
    split; [unfold record_at; now rewrite Hl | reflexivity].
  - rewrite list_lookup_alter_ne in Hi by auto.
    exists r', i.
    split; [exists l; split; [assumption | apply list_elem_of_lookup; eauto] |].
    split; [reflexivity |]. split; [auto |].
    split; [unfold record_at; now rewrite Hl |].
    intros _ _ ->. contradiction.
Qed.

Lemma list_marked (ls : listenerSet) (p : string) (h : nat) (s s' : engine)
    (ls0 : listenerSet) (p0 : string) (l0 : list record) :
  get_set ls s' = alter (alter set_once h) p (get_set ls s) ->
  (forall ls1, ls1 <> ls -> get_set ls1 s' = get_set ls1 s) ->
  get_set ls0 s' !! p0 = Some l0 ->
  exists l, get_set ls0 s !! p0 = Some l /\ uid <$> l0 = uid <$> l.
Proof.
  intros Hls Hother Hl0.
  destruct (decide (ls0 = ls)) as [-> | Hne].
  - rewrite Hls, lookup_alter in Hl0. destruct (decide (p = p0)) as [-> | Hnp].
    + destruct (get_set ls s !! p0) as [l|]; [| discriminate].
      simpl in Hl0. injection Hl0 as <-. exists l.
      split; [reflexivity | apply uid_alter_set_once].
    + eauto.
  - rewrite Hother in Hl0 by assumption. eauto.
Qed.

Lemma via_not_fired (s : engine) (ls : listenerSet) (p : string) (h : nat)
    (r : record) (u : nat) :
  fired_marked beh s -> record_at ls p h s = Some r -> once r = false ->
  fired beh u (calls s) -> Some (uid r) <> Some u.
Proof.
  intros M Hr Honce Hf Heq. injection Heq as <-.
  apply record_at_holds in Hr. specialize (M (uid r) ls p r Hf Hr eq_refl).
  congruence.
Qed.

(** One guarded invocation keeps the invariant. *)
Lemma guarded_effect_inv (ls : listenerSet) (p : string) (h : nat)
    (ra : res (option value)) (s s' : engine) :
  fire_once_inv beh s -> guarded_effect beh ls p h ra s s' -> fire_once_inv beh s'.
Proof.
  intros Hinv Heff.
  destruct Heff as [-> _ | r Hr Honce _ Ht Hreg Hcalls | r a Hr Honce _ Hfn Ht Hcalls Hreg].
  - assumption.
  - destruct Ht as (_ & _ & _ & _ & _ & _ & Hn & Hother).
    apply (fire_once_inv_ext s s'); auto.
    intros ls0. destruct (decide (ls0 = ls)) as [-> |]; auto.
  - destruct Ht as (_ & _ & _ & _ & _ & _ & Hn & Hother).
    destruct Hinv as ((F1 & F2) & (A1 & A2) & M & O).
    pose proof (record_at_holds ls p h s r Hr) as Hholds.
    assert (Honly : once_only beh (calls s')).
    { rewrite Hcalls. apply once_only_cons. split; [assumption |].
      intros u Hf. cbn [via]. now apply (via_not_fired s ls p h r u). }
    assert (Hcs : forall c u, In c (calls s') -> via c = Some u -> u < next_uid s').
    { intros c u. rewrite Hcalls, Hn. intros [<- | Hin] Hvia.
      - cbn [via] in Hvia. injection Hvia as <-. now apply (F1 ls p r).
      - now apply (F2 c u). }
    destruct (user_fn (handler r)
              && match beh (mkCall (Some (uid r)) (handler r) a :: calls s) with
                 | ReturnsTrue => true
                 | _ => false
                 end) eqn:Hmark.
    + (* the record is marked *)
      repeat split; try assumption.
      * intros ls0 p0 r0 Hh. rewrite Hn.
        destruct (holds_marked ls p h s s' ls0 p0 r0 Hreg Hother Hh)
          as (r1 & i & Hh1 & Hu & _). rewrite Hu. now apply (F1 ls0 p0 r1).
      * intros ls0 p0 l0 Hl0.
        destruct (list_marked ls p h s s' ls0 p0 l0 Hreg Hother Hl0) as (l & Hl & ->).
        now apply (A1 ls0 p0 l).
      * destruct (holds_marked ls p h s s' ls0 p0 r0 Hreg Hother H)
          as (r1 & i & Hh1 & Hu1 & _).
        destruct (holds_marked ls p h s s' ls' p' r' Hreg Hother H0)
          as (r2 & j & Hh2 & Hu2 & _).
        apply (A2 ls0 p0 r1 ls' p' r2); congruence.
      * destruct (holds_marked ls p h s s' ls0 p0 r0 Hreg Hother H)
          as (r1 & i & Hh1 & Hu1 & _).
        destruct (holds_marked ls p h s s' ls' p' r' Hreg Hother H0)
          as (r2 & j & Hh2 & Hu2 & _).
        apply (A2 ls0 p0 r1 ls' p' r2); congruence.
      * intros u ls0 p0 r0 Hf Hh Hu.
        destruct (holds_marked ls p h s s' ls0 p0 r0 Hreg Hother Hh)
          as (r1 & i & Hh1 & Hu1 & Hmono & Hat & Hhit).
        rewrite Hcalls in Hf. apply fired_cons in Hf as [Hf | [Hvia _]].
        -- apply Hmono. apply (M u ls0 p0 r1); congruence.
        -- cbn [via] in Hvia. injection Hvia as Hvia.
           assert (Hsame : uid r1 = uid r) by congruence.
           destruct (A2 ls0 p0 r1 ls p r Hh1 Hholds Hsame) as [-> ->].
           apply Hhit; auto.
           unfold record_at in Hr, Hat.
           destruct (get_set ls s !! p) as [l|] eqn:Hl;
             [| simpl in Hr; now rewrite lookup_nil in Hr].
           simpl in Hr, Hat.
           apply (NoDup_lookup (uid <$> l) i h (uid r)).
           ++ now apply (A1 ls p l).
           ++ rewrite list_lookup_fmap, Hat. simpl. now rewrite Hsame.
           ++ now rewrite list_lookup_fmap, Hr.
    + (* the record is as it was *)
      assert (Hsets : forall ls0, get_set ls0 s' = get_set ls0 s).
      { intros ls0. destruct (decide (ls0 = ls)) as [-> |]; auto. }
      assert (Hh : forall ls0 p0 r0, holds s' ls0 p0 r0 <-> holds s ls0 p0 r0)
        by (intros; unfold holds; now rewrite Hsets).
      repeat split; try assumption.
      * intros ls0 p0 r0 H. rewrite Hn. apply (F1 ls0 p0 r0). now apply Hh.
      * intros ls0 p0 l0. rewrite Hsets. apply A1.
      * apply (A2 ls0 p0 r0 ls' p' r'); [now apply Hh | now apply Hh | assumption].
      * apply (A2 ls0 p0 r0 ls' p' r'); [now apply Hh | now apply Hh | assumption].
      * intros u ls0 p0 r0 Hf Hh0 Hu.
        rewrite Hcalls in Hf. apply fired_cons in Hf as [Hf | [Hvia [Huser Hret]]].
        -- apply (M u ls0 p0 r0); auto. now apply Hh.
        -- cbn [callee] in Huser. rewrite Huser, Hret in Hmark. discriminate.
Qed.

End FireOnce.

(** ** Invariants of the engine

    An invariant that every elementary update of the engine keeps is kept
    by every operation; each lemma below asks for the updates that its
    operation makes. *)

Create HintDb engine_inv.

Ltac k_step :=
  lazymatch goal with
  | |- keeps _ (bind _ _) => apply keeps_bind; [| intros ?]
  | |- returns _ (bind _ _) => apply returns_bind; [| intros ?]
  | |- keeps _ (ret _) => apply keeps_ret
  | |- returns _ (ret _) => apply returns_ret
  | |- keeps _ (gets _) => apply keeps_gets
  | |- returns _ (gets _) => apply returns_gets
  | |- keeps _ (lift _) => apply keeps_lift
  | |- keeps _ throw => apply keeps_throw
  | |- keeps _ (when _ _) => apply keeps_when
  | |- returns _ (when _ _) => apply returns_when
  | |- keeps _ (try_catch _ _) => apply keeps_try_catch
  | |- returns _ (try_catch _ _) => apply returns_try_catch
  | |- keeps _ (for_each _ _) => apply keeps_for_each; intros ?
  | |- returns _ (for_each _ _) => apply returns_for_each; intros ? ?
  | |- keeps _ (fold_m _ _ _) => apply keeps_fold_m; intros ? ?
  | |- returns _ (fold_m _ _ _) => apply returns_fold_m; intros ? ? ?
  | |- keeps _ (modify _) => apply keeps_modify; intros ? ?
  | |- returns _ (modify _) => apply returns_modify; intros ? ?
  | |- keeps _ (if ?b then _ else _) => destruct b
  | |- returns _ (if ?b then _ else _) => destruct b
  | |- keeps _ (match ?x with _ => _ end) => destruct x
  | |- returns _ (match ?x with _ => _ end) => destruct x
  end.

Lemma reads_ret (a : option value) : reads (ret a).
Proof. now intros s. Qed.

Lemma reads_lookup (path : string) : 
  reads (d <- gets dd ;; lift (getObjectAtPath d path (Some (VMap d)))).
Proof. now intros s. Qed.

Section Closure.

Variable beh : oracle.
Variable I : engine -> Prop.
Variable allowed : listenerSet -> Prop.

Hypothesis I_dd : forall v s, I s -> I (with_dd v s).
Hypothesis I_prev_dd : forall v s, I s -> I (with_prev_dd v s).
Hypothesis I_events : forall v s, I s -> I (with_events v s).
Hypothesis I_pathsToPersist : forall v s, I s -> I (with_pathsToPersist v s).
Hypothesis I_storage : forall v s, I s -> I (with_storage v s).
Hypothesis I_now : forall v s, I s -> I (with_now v s).
Hypothesis I_errors : forall v s, I s -> I (with_errors v s).
Hypothesis I_guarded :
  forall ls p h ra s s', allowed ls -> I s -> guarded_effect beh ls p h ra s s' -> I s'.
Hypothesis I_register :
  forall ls p h d i s, allowed ls -> I s -> I (snd (register ls p h d i s)).
Hypothesis I_direct :
  forall f a s, I s -> I (with_calls (mkCall None f a :: calls s) s).
Hypothesis I_unlisten :
  forall name h s,
    I s ->
    I (with_eventListeners
         (alter (filter (fun r => js_eqb (handler r) h = false)) name (eventListeners s)) s).
Hypothesis I_unpersist :
  forall path s,
    I s ->
    I (with_persistenceListeners
         (delete (path +:+ ".**") (delete path (persistenceListeners s))) s).

Lemma k_handleError (name : string) (i : js) : returns I (handleError name i).
Proof. unfold handleError. k_step. now apply I_errors. Qed.

Lemma k_cloneDDtoPreviousDD : returns I cloneDDtoPreviousDD.
Proof. unfold cloneDDtoPreviousDD. k_step. now apply I_prev_dd. Qed.

Lemma k__persist (key : string) (v ttl : option value) : returns I (_persist key v ttl).
Proof.
  intros s Hs. destruct (_persist_effect key v ttl s) as [st ->].
  split; [now exists tt | now apply I_storage].
Qed.

Lemma k_register (ls : listenerSet) (p : string) (h d i : js) :
  allowed ls -> returns I (register ls p h d i).
Proof.
  intros Hls s Hs. split; [| now apply I_register].
  unfold register. destruct (registerListener _ _ _ _ _ _). eauto.
Qed.

Lemma k_guarded_call (ls : listenerSet) (p : string) (h : nat)
    (arg : M (option value)) (name : string) :
  allowed ls -> reads arg -> returns I (guarded_call beh ls p h arg name).
Proof.
  intros Hls Harg s Hs.
  destruct (guarded_call_effect beh ls p h arg name s Harg) as (s' & -> & Heff).
  split; [now exists tt | now apply (I_guarded ls p h (fst (arg s)) s s')].
Qed.

#[local] Hint Resolve returns_keeps k_handleError k_cloneDDtoPreviousDD k__persist
  k_register k_guarded_call reads_ret reads_lookup : engine_inv.

Ltac k_auto := cbv zeta; repeat k_step; auto with engine_inv.

Lemma k_invoke_change_handler (ls : listenerSet) (p : string) (fs : list js) (h : nat) :
  allowed ls -> returns I (invoke_change_handler beh ls p fs h).
Proof. intros Hls. unfold invoke_change_handler. k_auto. Qed.

#[local] Hint Resolve k_invoke_change_handler : engine_inv.

Lemma k_invoke_change_listener (ls : listenerSet) (acc : gset string * list js)
    (l : string * list record) :
  allowed ls -> returns I (invoke_change_listener beh ls acc l).
Proof. intros Hls. unfold invoke_change_listener. k_auto. Qed.

#[local] Hint Resolve k_invoke_change_listener : engine_inv.

Lemma k_invokeChangeListenersForListenerSet (ls : listenerSet) :
  allowed ls -> returns I (invokeChangeListenersForListenerSet beh ls).
Proof. intros Hls. unfold invokeChangeListenersForListenerSet. k_auto. Qed.

#[local] Hint Resolve k_invokeChangeListenersForListenerSet : engine_inv.

Lemma k_invokeChangeListeners :
  allowed PersistenceSet -> allowed PropertySet -> returns I (invokeChangeListeners beh).
Proof. intros H1 H2. unfold invokeChangeListeners. k_auto. Qed.

Lemma k_persist (path : string) (ttl : option value) :
  allowed PersistenceSet -> returns I (persist path ttl).
Proof. intros H1. unfold persist. k_auto. Qed.

Lemma k_unpersist (path : string) : returns I (unpersist path).
Proof. unfold unpersist, _unpersist. k_auto. Qed.

Lemma k_has (path : string) : keeps I (has path).
Proof. unfold has. k_auto. Qed.

Lemma k_empty (path : string) : keeps I (empty path).
Proof. unfold empty. k_auto. Qed.

#[local] Hint Resolve k_invokeChangeListeners k_persist k_unpersist k_has k_empty
  : engine_inv.

Lemma k_set (path : string) (v : value) (flag : js) (ttl : option value) :
  allowed PersistenceSet -> allowed PropertySet -> returns I (set beh path v flag ttl).
Proof. intros H1 H2. unfold set. k_auto. Qed.

#[local] Hint Resolve k_set : engine_inv.

Lemma k_get (path : string) (d : option value) (c : js) :
  allowed PersistenceSet -> allowed PropertySet -> keeps I (get beh path d c).
Proof. intros H1 H2. unfold get. k_auto. Qed.

#[local] Hint Resolve k_get : engine_inv.

Lemma k_erase (path : string) :
  allowed PersistenceSet -> allowed PropertySet -> keeps I (erase beh path).
Proof. intros H1 H2. unfold erase. k_auto. Qed.

Lemma k_push (path : string) (v : value) :
  allowed PersistenceSet -> allowed PropertySet -> returns I (push beh path v).
Proof. intros H1 H2. unfold push. k_auto. Qed.

Lemma k_invoke_direct (f : js) (a : option value) : keeps I (invoke beh None f a).
Proof. unfold invoke. destruct f; k_auto. Qed.

#[local] Hint Resolve k_invoke_direct : engine_inv.

Lemma k_change (path : string) (a b c : js) :
  allowed PropertySet -> returns I (change beh path a b c).
Proof. intros H1. unfold change. k_auto. Qed.

Lemma k_trigger_handler (eventName : string) (event : obj) (invoked : list js)
    (p : string) (h : nat) :
  allowed EventSet -> returns I (trigger_handler beh eventName event invoked p h).
Proof. intros H1. unfold trigger_handler. k_auto. Qed.

#[local] Hint Resolve k_trigger_handler : engine_inv.

Lemma k_trigger (eventName : string) (payload : option value) :
  allowed PersistenceSet -> allowed PropertySet -> allowed EventSet ->
  returns I (trigger beh eventName payload).
Proof. intros H1 H2 H3. unfold trigger. k_auto. Qed.

Lemma k_replay_handler (listener : js) (seen : gset string) (event : obj)
    (p : string) (h : nat) :
  allowed EventSet -> returns I (replay_handler beh listener seen event p h).
Proof. intros H1. unfold replay_handler. k_auto. Qed.

#[local] Hint Resolve k_replay_handler : engine_inv.

Lemma k_replay (listener : js) (evs : list obj) (seen : gset string) :
  allowed EventSet -> returns I (replay beh listener evs seen).
Proof.
  intros H1. revert seen. induction evs as [|e evs IH]; intros seen.
  - apply returns_ret.
  - cbn [replay]. k_auto.
Qed.

#[local] Hint Resolve k_replay : engine_inv.

Lemma k_listen (name : names) (a b c : js) :
  allowed EventSet -> returns I (listen beh name a b c).
Proof. intros H1. unfold listen. k_auto. Qed.

Lemma k_unlisten (name : string) (h : js) : returns I (unlisten name h).
Proof. unfold unlisten. k_auto. Qed.

Lemma k_restore_key (key : string) :
  allowed PersistenceSet -> keeps I (restore_key key).
Proof. intros H1. unfold restore_key, removeItem, JSON_parse. k_auto. Qed.

#[local] Hint Resolve k_restore_key : engine_inv.

Lemma k_restorePersistedDD : allowed PersistenceSet -> returns I restorePersistedDD.
Proof. intros H1. unfold restorePersistedDD, storageAvailable. k_auto. Qed.

Lemma k_run_op (o : op) :
  allowed PersistenceSet -> allowed PropertySet -> allowed EventSet ->
  keeps I (run_op beh o).
Proof.
  intros H1 H2 H3. destruct o; unfold run_op; k_auto;
    auto using k_erase, k_push, k_change, k_trigger, k_listen, k_unlisten with engine_inv.
Qed.

Lemma k_run (script : list op) (s : engine) :
  allowed PersistenceSet -> allowed PropertySet -> allowed EventSet ->
  I s -> I (run beh script s).
Proof.
  intros H1 H2 H3. unfold run. revert s.
  induction script as [|o script IH]; intros s Hs; simpl; [assumption |].
  apply IH. now apply k_run_op.
Qed.


End Closure.

(** ** Fire-once, on every run *)

Section FireOnceRuns.

Variable beh : oracle.

Lemma holds_with_set (ls : listenerSet) (reg : registry) (s s' : engine)
    (ls0 : listenerSet) (p0 : string) (r0 : record) :
  (forall ls1, get_set ls1 s' = if decide (ls1 = ls) then reg else get_set ls1 s) ->
  holds s' ls0 p0 r0 <->
  exists l, (if decide (ls0 = ls) then reg else get_set ls0 s) !! p0 = Some l /\ r0 ∈ l.
Proof. intros H. unfold holds. now rewrite H. Qed.

Lemma inv_register (ls : listenerSet) (p : string) (h d i : js) (s : engine) :
  fire_once_inv beh s -> fire_once_inv beh (snd (register ls p h d i s)).
Proof.
  intros ((F1 & F2) & (A1 & A2) & M & O). unfold register.
  destruct (registerListener_always_adds (next_uid s) p h d i (get_set ls s))
    as (r & Hh & Hu & Ho & ->). cbn [snd].
  set (s' := with_next_uid (S (next_uid s))
               (with_set ls (<[p:=default [] (get_set ls s !! p) ++ [r]]> (get_set ls s)) s)).
  assert (Hn : next_uid s' = S (next_uid s)) by now destruct ls.
  assert (Hc : calls s' = calls s) by now destruct ls.
  assert (Hsets : forall ls1, get_set ls1 s'
            = if decide (ls1 = ls)
              then <[p:=default [] (get_set ls s !! p) ++ [r]]> (get_set ls s)
              else get_set ls1 s).
  { intros ls1. destruct ls, ls1; reflexivity. }
  assert (Hlist : forall ls0 p0 l0, get_set ls0 s' !! p0 = Some l0 ->
            get_set ls0 s !! p0 = Some l0
            \/ (ls0 = ls /\ p0 = p /\ l0 = default [] (get_set ls s !! p) ++ [r])).
  { intros ls0 p0 l0. rewrite Hsets. destruct (decide (ls0 = ls)) as [-> |]; [| auto].
    rewrite lookup_insert_Some. intros [[-> <-] | [_ H]]; auto. }
  assert (Hold : forall ls0 p0 r0, holds s' ls0 p0 r0 ->
            holds s ls0 p0 r0 \/ (ls0 = ls /\ p0 = p /\ r0 = r)).
  { intros ls0 p0 r0 (l0 & Hl0 & Hin).
    destruct (Hlist ls0 p0 l0 Hl0) as [H | (-> & -> & ->)].
    - left. now exists l0.
    - apply elem_of_app in Hin as [Hin | Hin].
      + left. destruct (get_set ls s !! p) as [l|] eqn:Hl.
        * now exists l.
        * now apply elem_of_nil in Hin.
      + right. apply list_elem_of_singleton in Hin. auto. }
  repeat split.
  - intros ls0 p0 r0 H. rewrite Hn.
    destruct (Hold ls0 p0 r0 H) as [H' | (_ & _ & ->)]; [| lia].
    specialize (F1 ls0 p0 r0 H'). lia.
  - intros c u. rewrite Hc, Hn. intros Hin Hvia. specialize (F2 c u Hin Hvia). lia.
  - intros ls0 p0 l0 Hl0. destruct (Hlist ls0 p0 l0 Hl0) as [H | (-> & -> & ->)].
    + now apply (A1 ls0 p0 l0).
    + rewrite fmap_app. apply NoDup_app. split; [| split].
      * destruct (get_set ls s !! p) as [l|] eqn:Hl; [now apply (A1 ls p l) |].
        apply NoDup_nil_2.
      * intros u Hu1 Hu2. simpl in Hu2. apply list_elem_of_singleton in Hu2. subst u.
        apply list_elem_of_fmap in Hu1 as (r1 & Hr1 & Hin).
        destruct (get_set ls s !! p) as [l|] eqn:Hl; [| now apply elem_of_nil in Hin].
        assert (uid r1 < next_uid s) by (apply (F1 ls p r1); now exists l).
        lia.
      * apply NoDup_singleton.
  - destruct (Hold _ _ _ H) as [Ha | (-> & -> & ->)];
      destruct (Hold _ _ _ H0) as [Hb | (-> & -> & ->)]; auto.
    + now apply (A2 ls0 p0 r0 ls' p' r').
    + specialize (F1 _ _ _ Ha). lia.
    + specialize (F1 _ _ _ Hb). lia.
  - destruct (Hold _ _ _ H) as [Ha | (-> & -> & ->)];
      destruct (Hold _ _ _ H0) as [Hb | (-> & -> & ->)]; auto.
    + now apply (A2 ls0 p0 r0 ls' p' r').
    + specialize (F1 _ _ _ Ha). lia.
    + specialize (F1 _ _ _ Hb). lia.
  - intros u ls0 p0 r0. rewrite Hc. intros Hf H Hu0.
    destruct (Hold ls0 p0 r0 H) as [H' | (-> & -> & ->)].
    + now apply (M u ls0 p0 r0).
    + exfalso. destruct Hf as (later & c & earlier & Heq & Hvia & _).
      assert (u < next_uid s).
      { apply (F2 c u); [| assumption]. rewrite Heq. apply in_or_app. right. now left. }
      lia.
  - now rewrite Hc.
Qed.

Lemma inv_direct (f : js) (a : option value) (s : engine) :
  fire_once_inv beh s ->
  fire_once_inv beh (with_calls (mkCall None f a :: calls s) s).
Proof.
  intros ((F1 & F2) & (A1 & A2) & M & O).
  assert (Hsets : forall ls, get_set ls (with_calls (mkCall None f a :: calls s) s)
                             = get_set ls s) by (intros ls; now destruct ls).
  assert (Hh : forall ls0 p0 r0,
            holds (with_calls (mkCall None f a :: calls s) s) ls0 p0 r0 <-> holds s ls0 p0 r0)
    by (intros; unfold holds; now rewrite Hsets).
  repeat split.
  - intros ls0 p0 r0 H. apply (F1 ls0 p0 r0). now apply Hh.
  - intros c u [<- | Hin] Hvia; [discriminate | now apply (F2 c u)].
  - intros ls0 p0 l0. rewrite Hsets. apply A1.
  - apply (A2 ls p r ls' p' r'); [now apply Hh | now apply Hh | assumption].
  - apply (A2 ls p r ls' p' r'); [now apply Hh | now apply Hh | assumption].
  - intros u ls0 p0 r0 Hf H Hu. cbn [calls with_calls] in Hf.
    apply fired_cons in Hf as [Hf | [Hvia _]]; [| discriminate].
    apply (M u ls0 p0 r0); auto; now apply Hh.
  - cbn [calls with_calls]. apply once_only_cons. split; [assumption |].
    intros u _. discriminate.
Qed.

(** Taking records away keeps the invariant. *)
Lemma inv_shrink (s s' : engine) :
  next_uid s' = next_uid s -> calls s' = calls s ->
  (forall ls p l', get_set ls s' !! p = Some l' ->
     exists l, get_set ls s !! p = Some l /\ l' `sublist_of` l) ->
  fire_once_inv beh s -> fire_once_inv beh s'.
Proof.
  intros Hn Hc Hsub ((F1 & F2) & (A1 & A2) & M & O).
  assert (Hh : forall ls0 p0 r0, holds s' ls0 p0 r0 -> holds s ls0 p0 r0).
  { intros ls0 p0 r0 (l' & Hl' & Hin). destruct (Hsub ls0 p0 l' Hl') as (l & Hl & Hs).
    exists l. split; [assumption | now apply (elem_of_sublist l' l)]. }
  repeat split.
  - intros ls0 p0 r0 H. rewrite Hn. apply (F1 ls0 p0 r0). now apply Hh.
  - intros c u. rewrite Hc, Hn. apply F2.
  - intros ls0 p0 l' Hl'. destruct (Hsub ls0 p0 l' Hl') as (l & Hl & Hs).
    apply (sublist_NoDup _ (uid <$> l)); [now apply (A1 ls0 p0 l) |].
    now apply fmap_sublist.
  - apply (A2 ls p r ls' p' r'); auto.
  - apply (A2 ls p r ls' p' r'); auto.
  - intros u ls0 p0 r0. rewrite Hc. intros Hf H Hu. apply (M u ls0 p0 r0); auto.
  - now rewrite Hc.
Qed.

Lemma inv_unlisten (name : string) (h : js) (s : engine) :
  fire_once_inv beh s ->
  fire_once_inv beh
    (with_eventListeners
       (alter (filter (fun r => js_eqb (handler r) h = false)) name (eventListeners s)) s).
Proof.
  apply inv_shrink; try reflexivity.
  intros ls p l'. destruct ls; cbn [get_set]; try (intros H; exists l'; now split).
  change (eventListeners (with_eventListeners ?x s)) with x.
  rewrite lookup_alter. destruct (decide (name = p)) as [-> |].
  - destruct (eventListeners s !! p) as [l|]; [| discriminate].
    simpl. intros H. injection H as <-. exists l. split; [reflexivity |].
    apply sublist_filter.
  - intros H. exists l'. now split.
Qed.

Lemma inv_unpersist (path : string) (s : engine) :
  fire_once_inv beh s ->
  fire_once_inv beh
    (with_persistenceListeners
       (delete (path +:+ ".**") (delete path (persistenceListeners s))) s).
Proof.
  apply inv_shrink; try reflexivity.
  intros ls p l'. destruct ls; cbn [get_set]; try (intros H; exists l'; now split).
  change (persistenceListeners (with_persistenceListeners ?x s)) with x.
  intros H. apply lookup_delete_Some in H as [_ H].
  apply lookup_delete_Some in H as [_ H]. exists l'. now split.
Qed.

Lemma inv_initial (ok : bool) (st : list (string * cell)) (t : Z) :
  fire_once_inv beh (initial ok st t).
Proof.
  assert (Hh : forall ls p r, ~ holds (initial ok st t) ls p r).
  { intros ls p r (l & Hl & _). destruct ls; cbn in Hl; now rewrite lookup_empty in Hl. }
  repeat split.
  - intros ls p r H. now apply Hh in H.
  - intros c u [].
  - intros ls p l Hl. destruct ls; cbn in Hl; now rewrite lookup_empty in Hl.
  - now apply Hh in H.
  - now apply Hh in H.
  - intros u ls p r _ H. now apply Hh in H.
  - intros later c earlier u Heq. now destruct later.
Qed.

Lemma inv_frame (s s' : engine) :
  (forall ls, get_set ls s' = get_set ls s) -> next_uid s' = next_uid s ->
  calls s' = calls s -> fire_once_inv beh s -> fire_once_inv beh s'.
Proof. apply fire_once_inv_ext. Qed.


End FireOnceRuns.

(** ** A handler that throws *)

Ltac same_states :=
  let H := fresh in
  intros [] [] H; unfold same_but_errors in *; cbn in H;
  injection H as; subst; try reflexivity.

Lemma same_but_errors_refl (s : engine) : same_but_errors s s.
Proof. reflexivity. Qed.

Lemma same_but_errors_with_errors (er : list report) (s1 s2 : engine) :
  same_but_errors s1 s2 -> same_but_errors (with_errors er s1) s2.
Proof. revert s1 s2. same_states. Qed.

Section Agreement.

Context {A B : Type}.

Lemma agree_ret (a : A) : agree (ret a) (ret a).
Proof. now intros s1 s2 H. Qed.

Lemma agree_throw : agree (@throw A) (@throw A).
Proof. now intros s1 s2 H. Qed.

Lemma agree_lift (r : res A) : agree (lift r) (lift r).
Proof. now intros s1 s2 H. Qed.

Lemma agree_gets (f : engine -> A) :
  (forall s1 s2, same_but_errors s1 s2 -> f s1 = f s2) -> agree (gets f) (gets f).
Proof. intros Hf s1 s2 H. cbn. split; [f_equal; now apply Hf | assumption]. Qed.

Lemma agree_bind (m1 m2 : M A) (k1 k2 : A -> M B) :
  agree m1 m2 -> (forall a, agree (k1 a) (k2 a)) -> agree (bind m1 k1) (bind m2 k2).
Proof.
  intros Hm Hk s1 s2 H. unfold bind. destruct (Hm s1 s2 H) as [Hr Hs].
  destruct (m1 s1) as [[a1|] s1'], (m2 s2) as [[a2|] s2']; cbn in Hr, Hs;
    try discriminate.
  - injection Hr as <-. now apply Hk.
  - now split.
Qed.

Lemma agree_try_catch (b1 b2 r1 r2 : M A) :
  agree b1 b2 -> agree r1 r2 -> agree (try_catch b1 r1) (try_catch b2 r2).
Proof.
  intros Hb Hr s1 s2 H. unfold try_catch. destruct (Hb s1 s2 H) as [Hres Hs].
  destruct (b1 s1) as [[a1|] s1'], (b2 s2) as [[a2|] s2']; cbn in Hres, Hs;
    try discriminate.
  - now split.
  - now apply Hr.
Qed.

Lemma agree_fold_m (f1 f2 : B -> A -> M B) (l : list A) (b : B) :
  (forall b a, agree (f1 b a) (f2 b a)) -> agree (fold_m f1 l b) (fold_m f2 l b).
Proof.
  intros Hf. revert b. induction l as [|a l IH]; intros b; simpl.
  - now intros s1 s2 H.
  - intros s1 s2 H. unfold bind. destruct (Hf b a s1 s2 H) as [Hr Hs].
    destruct (f1 b a s1) as [[b1|] s1'], (f2 b a s2) as [[b2|] s2']; cbn in Hr, Hs;
      try discriminate.
    + injection Hr as <-. now apply IH.
    + now split.
Qed.

Lemma soft_of_agree (d : A) (m1 m2 : M A) : agree m1 m2 -> soft d m1 m2.
Proof. intros Hm s1 s2 H. destruct (Hm s1 s2 H). auto. Qed.

(** After a common prefix. *)
Lemma soft_bind (d : B) (m1 m2 : M A) (k1 k2 : A -> M B) :
  agree m1 m2 -> (forall a, soft d (k1 a) (k2 a)) -> soft d (bind m1 k1) (bind m2 k2).
Proof.
  intros Hm Hk s1 s2 H. unfold bind. destruct (Hm s1 s2 H) as [Hr Hs].
  destruct (m1 s1) as [[a1|] s1'], (m2 s2) as [[a2|] s2']; cbn in Hr, Hs;
    try discriminate.
  - injection Hr as <-. now apply Hk.
  - split; [now left | assumption].
Qed.

(** Before a suffix that does nothing on the value that stands for the
    exception. *)
Lemma soft_then (d : A) (e : B) (m1 m2 : M A) (k1 k2 : A -> M B) :
  soft d m1 m2 -> (forall a, agree (k1 a) (k2 a)) ->
  (forall s, k2 d s = (Ret e, s)) ->
  soft e (bind m1 k1) (bind m2 k2).
Proof.
  intros Hm Hk Hd s1 s2 H. unfold bind. destruct (Hm s1 s2 H) as [[Hr | [Hr1 Hr2]] Hs].
  - destruct (m1 s1) as [[a1|] s1'], (m2 s2) as [[a2|] s2']; cbn in Hr, Hs;
      try discriminate.
    + injection Hr as <-. destruct (Hk a1 s1' s2' Hs). auto.
    + split; [now left | assumption].
  - destruct (m1 s1) as [[a1|] s1'], (m2 s2) as [[a2|] s2']; cbn in Hr1, Hr2, Hs;
      try discriminate.
    injection Hr2 as ->. rewrite Hd. cbn. split; [now right | assumption].
Qed.

(** An exception caught by a handler that only reports it. *)
Lemma agree_caught (d : A) (b1 b2 r1 r2 : M A) :
  soft d b1 b2 -> agree r1 r2 ->
  (forall s, exists er, r1 s = (Ret d, with_errors er s)) ->
  agree (try_catch b1 r1) (try_catch b2 r2).
Proof.
  intros Hb Hr Hrep s1 s2 H. unfold try_catch.
  destruct (Hb s1 s2 H) as [[Hres | [Hr1 Hr2]] Hs].
  - destruct (b1 s1) as [[a1|] s1'], (b2 s2) as [[a2|] s2']; cbn in Hres, Hs;
      try discriminate.
    + now split.
    + now apply Hr.
  - destruct (b1 s1) as [[a1|] s1'], (b2 s2) as [[a2|] s2']; cbn in Hr1, Hr2, Hs;
      try discriminate.
    injection Hr2 as ->. destruct (Hrep s1') as [er ->]. cbn.
    split; [reflexivity | now apply same_but_errors_with_errors].
Qed.

End Agreement.

Lemma agree_modify (f : engine -> engine) :
  (forall s1 s2, same_but_errors s1 s2 -> same_but_errors (f s1) (f s2)) ->
  agree (modify f) (modify f).
Proof. intros Hf s1 s2 H. cbn. split; [reflexivity | now apply Hf]. Qed.

Lemma agree_when (b : bool) (m1 m2 : M unit) :
  agree m1 m2 -> agree (when b m1) (when b m2).
Proof. intros H. destruct b; [assumption | apply agree_ret]. Qed.

Lemma soft_when (b : bool) (m1 m2 : M unit) :
  soft tt m1 m2 -> soft tt (when b m1) (when b m2).
Proof. intros H. destruct b; [assumption | apply soft_of_agree, agree_ret]. Qed.

Lemma agree_for_each {A} (l : list A) (f1 f2 : A -> M unit) :
  (forall a, agree (f1 a) (f2 a)) -> agree (for_each l f1) (for_each l f2).
Proof.
  intros H. apply (agree_fold_m (fun _ a => f1 a) (fun _ a => f2 a)). intros _ a. apply H.
Qed.

Create HintDb engine_agree.

Ltac a_step :=
  lazymatch goal with
  | |- agree (bind _ _) (bind _ _) => apply agree_bind; [| intros ?]
  | |- agree (ret _) (ret _) => apply agree_ret
  | |- agree (gets _) (gets _) => apply agree_gets; same_states
  | |- agree (lift _) (lift _) => apply agree_lift
  | |- agree throw throw => apply agree_throw
  | |- agree (when _ _) (when _ _) => apply agree_when
  | |- agree (try_catch _ _) (try_catch _ _) => apply agree_try_catch
  | |- agree (for_each _ _) (for_each _ _) => apply agree_for_each; intros ?
  | |- agree (fold_m _ _ _) (fold_m _ _ _) => apply agree_fold_m; intros ? ?
  | |- agree (modify _) (modify _) => apply agree_modify; same_states
  | |- agree (if ?b then _ else _) (if ?b then _ else _) => destruct b
  | |- agree (match ?x with _ => _ end) (match ?x with _ => _ end) => destruct x
  end.

Ltac a_auto := cbv zeta; repeat a_step; auto with engine_agree.

Lemma agree_handleError (name : string) (i : js) :
  agree (handleError name i) (handleError name i).
Proof. unfold handleError. a_auto. Qed.

Lemma agree__persist (key : string) (v ttl : option value) :
  agree (_persist key v ttl) (_persist key v ttl).
Proof. unfold _persist, storageAvailable, setItem, removeItem. a_auto. Qed.

Lemma agree_register (ls : listenerSet) (p : string) (h d i : js) :
  agree (register ls p h d i) (register ls p h d i).
Proof.
  unfold register. destruct ls; same_states;
    cbn; destruct (registerListener _ _ _ _ _ _); now split.
Qed.

Lemma agree_cloneDDtoPreviousDD : agree cloneDDtoPreviousDD cloneDDtoPreviousDD.
Proof. unfold cloneDDtoPreviousDD. a_auto. Qed.

Lemma agree_mark_once (ls : listenerSet) (p : string) (h : nat) :
  agree (mark_once ls p h) (mark_once ls p h).
Proof. unfold mark_once. destruct ls; a_auto. Qed.

#[global] Hint Resolve agree_handleError agree__persist agree_register
  agree_cloneDDtoPreviousDD agree_mark_once : engine_agree.

Section Calm.

Variable beh : oracle.

Lemma soft_invoke (u : option nat) (f : js) (a : option value) :
  soft false (invoke beh u f a) (invoke (calm beh) u f a).
Proof.
  unfold invoke. destruct f; try solve [apply soft_of_agree; a_auto].
  intros s1 s2 H. unfold bind, modify, gets. cbn [fst snd calls with_calls].
  assert (Hc : calls s1 = calls s2) by (revert s1 s2 H; same_states).
  assert (Hs : same_but_errors (with_calls (mkCall u (JUser n) a :: calls s1) s1)
                               (with_calls (mkCall u (JUser n) a :: calls s2) s2))
    by (revert s1 s2 H Hc; same_states).
  unfold calm. rewrite <- Hc in *.
  destruct (beh (mkCall u (JUser n) a :: calls s1)); cbn; auto.
Qed.

Lemma agree_guarded_call (ls : listenerSet) (p : string) (h : nat)
    (arg : M (option value)) (name : string) :
  agree arg arg ->
  agree (guarded_call beh ls p h arg name) (guarded_call (calm beh) ls p h arg name).
Proof.
  intros Harg. unfold guarded_call. apply agree_bind.
  { apply agree_gets. unfold record_at. destruct ls; same_states. }
  intros [r|]; [| apply agree_ret].
  apply (agree_caught tt).
  - destruct (once r); [apply soft_of_agree, agree_ret |].
    apply soft_bind; [assumption | intros a].
    apply (soft_then false tt).
    + apply soft_invoke.
    + intros b. apply agree_when, agree_mark_once.
    + reflexivity.
  - apply agree_handleError.
  - intros s. eexists. reflexivity.
Qed.

Lemma agree_lookup (path : string) :
  agree (d <- gets dd ;; lift (getObjectAtPath d path (Some (VMap d))))
        (d <- gets dd ;; lift (getObjectAtPath d path (Some (VMap d)))).
Proof. a_auto. Qed.

#[local] Hint Resolve agree_guarded_call agree_lookup agree_ret : engine_agree.

Lemma agree_invoke_change_handler (ls : listenerSet) (p : string) (fs : list js)
    (h : nat) :
  agree (invoke_change_handler beh ls p fs h)
        (invoke_change_handler (calm beh) ls p fs h).
Proof.
  unfold invoke_change_handler. apply agree_bind; [auto with engine_agree | intros _].
  apply agree_bind; [| intros ?; apply agree_ret].
  apply agree_gets. unfold record_at. destruct ls; same_states.
Qed.

#[local] Hint Resolve agree_invoke_change_handler : engine_agree.

Lemma agree_invoke_change_listener (ls : listenerSet) (acc : gset string * list js)
    (l : string * list record) :
  agree (invoke_change_listener beh ls acc l)
        (invoke_change_listener (calm beh) ls acc l).
Proof.
  unfold invoke_change_listener. cbv zeta.
  destruct (decide (fst l ∈ fst acc)); [apply agree_ret |].
  apply agree_bind.
  { apply agree_gets. unfold handlers_length. destruct ls; same_states. }
  intros len. a_auto.
Qed.

#[local] Hint Resolve agree_invoke_change_listener : engine_agree.

Lemma agree_invokeChangeListenersForListenerSet (ls : listenerSet) :
  agree (invokeChangeListenersForListenerSet beh ls)
        (invokeChangeListenersForListenerSet (calm beh) ls).
Proof.
  unfold invokeChangeListenersForListenerSet. cbv zeta.
  apply agree_bind; [apply agree_gets; same_states | intros previous].
  apply agree_bind; [apply agree_gets; same_states | intros current].
  apply agree_bind; [| intros ?; apply agree_ret].
  apply agree_fold_m. intros acc d. apply agree_bind.
  { apply agree_gets. destruct ls; same_states. }
  intros listeners. a_auto.
Qed.

#[local] Hint Resolve agree_invokeChangeListenersForListenerSet : engine_agree.

Lemma agree_invokeChangeListeners :
  agree (invokeChangeListeners beh) (invokeChangeListeners (calm beh)).
Proof. unfold invokeChangeListeners. a_auto. Qed.

Lemma agree_persist (path : string) (ttl : option value) :
  agree (persist path ttl) (persist path ttl).
Proof. unfold persist. a_auto. Qed.

Lemma agree_unpersist (path : string) : agree (unpersist path) (unpersist path).
Proof. unfold unpersist, _unpersist. a_auto. Qed.

Lemma agree_has (path : string) : agree (has path) (has path).
Proof. unfold has. a_auto. Qed.

Lemma agree_empty (path : string) : agree (empty path) (empty path).
Proof. unfold empty. a_auto. Qed.

#[local] Hint Resolve agree_invokeChangeListeners agree_persist agree_unpersist
  agree_has agree_empty : engine_agree.

Lemma agree_set (path : string) (v : value) (flag : js) (ttl : option value) :
  agree (set beh path v flag ttl) (set (calm beh) path v flag ttl).
Proof. unfold set. a_auto. Qed.

#[local] Hint Resolve agree_set : engine_agree.

Lemma agree_get (path : string) (d : option value) (c : js) :
  agree (get beh path d c) (get (calm beh) path d c).
Proof. unfold get. a_auto. Qed.

#[local] Hint Resolve agree_get : engine_agree.

Lemma agree_erase (path : string) :
  agree (erase beh path) (erase (calm beh) path).
Proof. unfold erase. a_auto. Qed.

Lemma agree_push (path : string) (v : value) :
  agree (push beh path v) (push (calm beh) path v).
Proof. unfold push. a_auto. Qed.

Lemma agree_change (path : string) (a b c : js) :
  agree (change beh path a b c) (change (calm beh) path a b c).
Proof.
  unfold change. cbv zeta. apply (agree_caught tt).
  - apply soft_bind; [auto with engine_agree | intros registered].
    apply soft_when.
    apply soft_bind; [apply agree_gets; same_states | intros d].
    apply soft_bind; [apply agree_lift | intros v].
    apply soft_when. apply (soft_then false tt).
    + apply soft_invoke.
    + intros ?. apply agree_ret.
    + reflexivity.
  - apply agree_handleError.
  - intros s. eexists. reflexivity.
Qed.

Lemma agree_trigger_handler (eventName : string) (event : obj) (invoked : list js)
    (p : string) (h : nat) :
  agree (trigger_handler beh eventName event invoked p h)
        (trigger_handler (calm beh) eventName event invoked p h).
Proof. unfold trigger_handler. a_auto. Qed.

#[local] Hint Resolve agree_trigger_handler : engine_agree.

Lemma agree_trigger (eventName : string) (payload : option value) :
  agree (trigger beh eventName payload) (trigger (calm beh) eventName payload).
Proof. unfold trigger, handlers_length. a_auto. Qed.

Lemma agree_replay_handler (listener : js) (seen : gset string) (event : obj)
    (p : string) (h : nat) :
  agree (replay_handler beh listener seen event p h)
        (replay_handler (calm beh) listener seen event p h).
Proof. unfold replay_handler. a_auto. Qed.

#[local] Hint Resolve agree_replay_handler : engine_agree.

Lemma agree_replay (listener : js) (evs : list obj) (seen : gset string) :
  agree (replay beh listener evs seen) (replay (calm beh) listener evs seen).
Proof.
  revert seen. induction evs as [|e evs IH]; intros seen.
  - apply agree_ret.
  - cbn [replay]. unfold handlers_length. a_auto.
Qed.

#[local] Hint Resolve agree_replay : engine_agree.

Lemma agree_listen (name : names) (a b c : js) :
  agree (listen beh name a b c) (listen (calm beh) name a b c).
Proof. unfold listen. a_auto. Qed.

Lemma agree_unlisten (name : string) (h : js) :
  agree (unlisten name h) (unlisten name h).
Proof. unfold unlisten. a_auto. Qed.

Lemma agree_run_op (o : op) : agree (run_op beh o) (run_op (calm beh) o).
Proof.
  destruct o; unfold run_op; a_auto;
    auto using agree_erase, agree_push, agree_change, agree_trigger, agree_listen,
      agree_unlisten with engine_agree.
Qed.

Lemma agree_run (script : list op) (s1 s2 : engine) :
  same_but_errors s1 s2 ->
  same_but_errors (run beh script s1) (run (calm beh) script s2).
Proof.
  unfold run. revert s1 s2. induction script as [|o script IH]; intros s1 s2 H.
  - exact H.
  - simpl. apply IH. now apply agree_run_op.
Qed.


End Calm.

Lemma same_but_errors_fields (s1 s2 : engine) :
  same_but_errors s1 s2 ->
  calls s1 = calls s2 /\ dd s1 = dd s2 /\ events s1 = events s2
  /\ storage s1 = storage s2 /\ forall ls, get_set ls s1 = get_set ls s2.
Proof.
  revert s1 s2. same_states. repeat split.
Qed.

Lemma erase_returns (beh : oracle) (path : string) (s : engine) (b : bool) :
  result (has path) s = Ret b -> exists r, result (erase beh path) s = Ret r.
Proof.
  unfold result. intros Hhas.
  assert (Hs : has path s = (Ret b, s)).
  { revert Hhas. unfold has, bind, gets, lift, ret.
    destruct (getObjectAtPath (dd s) path (Some (VMap (dd s)))); cbn; congruence. }
  unfold erase. unfold bind at 1. rewrite Hs.
  destruct (negb b); [now exists true |]. cbv zeta.
  unfold bind at 1, gets at 1.
  destruct (delete_in _ _ _) as [d'|]; [| now exists false].
  match goal with
  | |- exists r, fst ((bind ?m ?k) s) = Ret r =>
      assert (Hm : returns (fun _ => True) m)
  end.
  { cbv zeta. unfold cloneDDtoPreviousDD, handleError. repeat k_step; auto;
      apply returns_keeps;
      apply (k_invokeChangeListeners beh (fun _ => True) (fun _ => True)); auto. }
  destruct (Hm s I) as [[[] Hr] _]. unfold bind.
  destruct (try_catch _ _ s) as [[[]|] s']; cbn in Hr; [| discriminate].
  now exists true.
Qed.


(** ** Operations that return: pre- and postconditions *)

Section Yields.

Context {A B : Type}.

Lemma yields_ret (P : engine -> Prop) (Q : A -> engine -> Prop) (a : A) :
  (forall s, P s -> Q a s) -> yields P Q (ret a).
Proof. intros H s Hs. exists a. split; [reflexivity | now apply H]. Qed.

Lemma yields_gets (P : engine -> Prop) (Q : A -> engine -> Prop) (f : engine -> A) :
  (forall s, P s -> Q (f s) s) -> yields P Q (gets f).
Proof. intros H s Hs. exists (f s). split; [reflexivity | now apply H]. Qed.

Lemma yields_bind (P : engine -> Prop) (R : A -> engine -> Prop)
    (Q : B -> engine -> Prop) (m : M A) (k : A -> M B) :
  yields P R m -> (forall a, yields (R a) Q (k a)) -> yields P Q (bind m k).
Proof.
  intros Hm Hk s Hs. unfold bind. destruct (Hm s Hs) as (a & Ha & HR).
  destruct (m s) as [[a'|] s']; cbn in Ha; [| discriminate].
  injection Ha as ->. now apply Hk.
Qed.

Lemma yields_weaken (P P' : engine -> Prop) (Q Q' : A -> engine -> Prop) (m : M A) :
  yields P Q m -> (forall s, P' s -> P s) -> (forall a s, Q a s -> Q' a s) ->
  yields P' Q' m.
Proof.
  intros Hm HP HQ s Hs. destruct (Hm s (HP s Hs)) as (a & Ha & Hq). eauto.
Qed.

Lemma yields_of_returns (I : engine -> Prop) (m : M A) :
  returns I m -> yields I (fun _ => I) m.
Proof. intros Hm s Hs. destruct (Hm s Hs) as [[a Ha] Hi]. eauto. Qed.

Lemma yields_try_catch (P : engine -> Prop) (Q : A -> engine -> Prop)
    (body recover : M A) :
  yields P Q body -> yields P Q (try_catch body recover).
Proof.
  intros Hb s Hs. unfold try_catch. destruct (Hb s Hs) as (a & Ha & Hq).
  destruct (body s) as [[a'|] s']; cbn in Ha; [| discriminate].
  injection Ha as ->. now exists a.
Qed.

Lemma yields_fold_m (J : B -> engine -> Prop) (f : B -> A -> M B) (l : list A)
    (b : B) :
  (forall b a, In a l -> yields (J b) J (f b a)) -> yields (J b) J (fold_m f l b).
Proof.
  revert b. induction l as [|a l IH]; intros b H; simpl.
  - intros s Hs. exists b. now split.
  - intros s Hs. unfold bind.
    destruct (H b a (or_introl eq_refl) s Hs) as (b' & Hb' & HJ).
    destruct (f b a s) as [[b''|] s']; cbn in Hb'; [| discriminate].
    injection Hb' as ->. apply IH; [intros; apply H; now right | assumption].
Qed.

End Yields.

Lemma yields_for_each {A} (I : engine -> Prop) (l : list A) (f : A -> M unit) :
  (forall a, In a l -> yields I (fun _ => I) (f a)) ->
  yields I (fun _ => I) (for_each l f).
Proof.
  intros H. apply (yields_fold_m (fun _ => I) (fun _ a => f a)). intros _ a Ha. now apply H.
Qed.

Lemma yields_when (I : engine -> Prop) (b : bool) (m : M unit) :
  yields I (fun _ => I) m -> yields I (fun _ => I) (when b m).
Proof. intros H. destruct b; [assumption | now apply yields_ret]. Qed.

(** ** Dependency gating ([listen] with an array of names, then [trigger]) *)

Lemma js_eqb_eq (a b : js) : js_eqb a b = true <-> a = b.
Proof.
  destruct a, b; simpl; try (split; [discriminate | congruence]); try tauto.
  - rewrite Bool.eqb_true_iff. split; congruence.
  - rewrite String.eqb_eq. split; congruence.
  - rewrite bool_decide_eq_true. split; congruence.
  - rewrite Nat.eqb_eq. split; congruence.
  - rewrite String.eqb_eq. split; congruence.
Qed.

Lemma count_calls_cons (f : js) (c : call) (cs : list call) :
  count_calls f (c :: cs)
  = (if js_eqb (callee c) f then 1 else 0) + count_calls f cs.
Proof.
  unfold count_calls. rewrite filter_cons.
  destruct (decide (js_eqb (callee c) f = true)) as [-> | H]; [reflexivity |].
  now destruct (js_eqb (callee c) f).
Qed.

(** The record at a place after the record at [(ls, p, i)] got its property
    [once]. *)
Lemma record_at_marked (ls : listenerSet) (p : string) (i : nat) (s s' : engine)
    (ls' : listenerSet) (p' : string) (i' : nat) :
  get_set ls s' = alter (alter set_once i) p (get_set ls s) ->
  (forall ls0, ls0 <> ls -> get_set ls0 s' = get_set ls0 s) ->
  record_at ls' p' i' s'
  = if decide (ls' = ls /\ p' = p /\ i' = i)
    then set_once <$> record_at ls p i s
    else record_at ls' p' i' s.
Proof.
  intros Hls Hother. unfold record_at.
  destruct (decide (ls' = ls)) as [-> | Hne].
  2:{ rewrite Hother by assumption.
      destruct (decide _) as [[? _] |]; [contradiction | reflexivity]. }
  rewrite Hls, lookup_alter. destruct (decide (p = p')) as [<- | Hnp].
  2:{ destruct (decide _) as [(_ & ? & _) |]; [congruence | reflexivity]. }
  destruct (get_set ls s !! p) as [l|]; simpl.
  - rewrite list_lookup_alter. destruct (decide (i = i')) as [<- | Hni].
    + destruct (decide _) as [|Hn]; [reflexivity | now destruct Hn].
    + destruct (decide _) as [(_ & _ & ?) |]; [congruence | reflexivity].
  - rewrite lookup_nil. now destruct (decide _).
Qed.

Section Gating.

Variable beh : oracle.
Variable n : nat.
Variables x y : string.
Variables ix iy : nat.
Variable dl : list string.

Local Ltac split6 := split; [| split; [| split; [| split; [| split]]]].

Lemma gating_inv_frame (tx ty : bool) (c : nat) (o : bool) (s s' : engine) :
  events s' = events s -> calls s' = calls s ->
  (forall ls, get_set ls s' = get_set ls s) ->
  gating_inv n x y ix iy dl tx ty c o s -> gating_inv n x y ix iy dl tx ty c o s'.
Proof.
  intros He Hc Hreg (H1 & H2 & H3 & H4 & H5 & H6).
  assert (Hat : forall ls p i, record_at ls p i s' = record_at ls p i s)
    by (intros; unfold record_at; now rewrite Hreg).
  unfold gating_inv, spot. rewrite He, Hc. split6; auto.
  - intros ls p i r. rewrite Hat. apply H4.
  - destruct H5 as (r & Hr & ?). exists r. now rewrite Hat.
  - destruct H6 as (r & Hr & ?). exists r. now rewrite Hat.
Qed.

Lemma spot_marked (ls : listenerSet) (p : string) (i : nat) (s s' : engine)
    (p' : string) (i' : nat) (o : bool) :
  get_set ls s' = alter (alter set_once i) p (get_set ls s) ->
  (forall ls0, ls0 <> ls -> get_set ls0 s' = get_set ls0 s) ->
  (o = true -> ~ (EventSet = ls /\ p' = p /\ i' = i)) ->
  spot n dl p' i' o s -> spot n dl p' i' o s'.
Proof.
  intros Hls Hother Hno (r & Hr & Hh & Hd & Ho). unfold spot.
  rewrite (record_at_marked ls p i s s' EventSet p' i' Hls Hother).
  destruct (decide _) as [(<- & -> & ->) | _].
  - rewrite Hr. exists (set_once r). repeat split; auto.
    intros ->. now destruct Hno.
  - now exists r.
Qed.

(** A guarded invocation elsewhere than at the two records leaves the
    state of the scenario as it is. *)
Lemma gating_inv_guarded (tx ty : bool) (c : nat) (o : bool) (ls : listenerSet)
    (p : string) (i : nat) (ra : res (option value)) (s s' : engine) :
  ~ (ls = EventSet /\ ((p = x /\ i = ix) \/ (p = y /\ i = iy))) ->
  gating_inv n x y ix iy dl tx ty c o s -> guarded_effect beh ls p i ra s s' ->
  gating_inv n x y ix iy dl tx ty c o s'.
Proof.
  intros Hplace HK Heff.
  destruct Heff as [-> _ | r Hr Honce _ Ht Hreg Hcalls | r a Hr Honce _ Hfn Ht Hcalls Hreg].
  - assumption.
  - destruct Ht as (_ & _ & He & _ & _ & _ & _ & Hother).
    apply (gating_inv_frame tx ty c o s s'); auto.
    intros ls0. destruct (decide (ls0 = ls)) as [-> |]; auto.
  - destruct Ht as (_ & _ & He & _ & _ & _ & _ & Hother).
    destruct HK as (H1 & H2 & H3 & H4 & H5 & H6).
    assert (Hh : handler r <> JUser n).
    { intros Hh. destruct (H4 ls p i r Hr Hh) as [-> Hpi]. apply Hplace. auto. }
    assert (Hcount : count_calls (JUser n) (calls s') = c).
    { rewrite Hcalls, count_calls_cons. cbn [callee].
      destruct (js_eqb (handler r) (JUser n)) eqn:E; [| assumption].
      apply js_eqb_eq in E. contradiction. }
    destruct (user_fn (handler r)
              && match beh (mkCall (Some (uid r)) (handler r) a :: calls s) with
                 | ReturnsTrue => true
                 | _ => false
                 end).
    + unfold gating_inv. rewrite He. split6; auto.
      * intros ls0 p0 i0 r0.
        rewrite (record_at_marked ls p i s s' ls0 p0 i0 Hreg Hother).
        destruct (decide _) as [(-> & -> & ->) | _]; [| apply H4].
        rewrite Hr. simpl. intros Heq. injection Heq as <-. cbn [handler set_once].
        intros Hh'. contradiction.
      * apply (spot_marked ls p i s s' x ix false Hreg Hother); [discriminate | assumption].
      * apply (spot_marked ls p i s s' y iy o Hreg Hother); [| assumption].
        intros _ (<- & -> & ->). apply Hplace. auto.
    + assert (Hsets : forall ls0, get_set ls0 s' = get_set ls0 s).
      { intros ls0. destruct (decide (ls0 = ls)) as [-> |]; auto. }
      assert (Hat : forall ls0 p0 i0, record_at ls0 p0 i0 s' = record_at ls0 p0 i0 s)
        by (intros; unfold record_at; now rewrite Hsets).
      unfold gating_inv, spot. rewrite He. split6; auto.
      * intros ls0 p0 i0 r0. rewrite Hat. apply H4.
      * destruct H5 as (r0 & Hr0 & ?). exists r0. now rewrite Hat.
      * destruct H6 as (r0 & Hr0 & ?). exists r0. now rewrite Hat.
Qed.

(** The guarded invocation of the record under [y] calls the handler. *)
Lemma gating_inv_fire (tx ty : bool) (c : nat) (a : option value) (s s' : engine) :
  ~ (y = x /\ iy = ix) ->
  gating_inv n x y ix iy dl tx ty c true s -> guarded_effect beh EventSet y iy (Ret a) s s' ->
  gating_inv n x y ix iy dl tx ty (S c) false s'.
Proof.
  intros Hxy (H1 & H2 & H3 & H4 & H5 & (ry & Hry & Hhy & Hdy & Hoy)) Heff.
  specialize (Hoy eq_refl).
  destruct Heff as [-> [Hnone | (r & Hr & Honce)]
                   | r Hr Honce [Hthrow | Hnf] Ht Hreg Hcalls
                   | r a' Hr Honce _ Hfn Ht Hcalls Hreg]; try congruence.
  - rewrite Hry in Hr. injection Hr as <-. rewrite Hhy in Hnf. discriminate.
  - rewrite Hry in Hr. injection Hr as <-.
    destruct Ht as (_ & _ & He & _ & _ & _ & _ & Hother).
    assert (Hcount : count_calls (JUser n) (calls s') = S c).
    { rewrite Hcalls, count_calls_cons. cbn [callee]. rewrite Hhy.
      cbn [js_eqb]. rewrite Nat.eqb_refl. simpl. now rewrite H3. }
    destruct (user_fn (handler ry)
              && match beh (mkCall (Some (uid ry)) (handler ry) a' :: calls s) with
                 | ReturnsTrue => true
                 | _ => false
                 end).
    + unfold gating_inv. rewrite He. split6; auto.
      * intros ls0 p0 i0 r0.
        rewrite (record_at_marked EventSet y iy s s' ls0 p0 i0 Hreg Hother).
        destruct (decide _) as [(-> & -> & ->) | _]; [auto | apply H4].
      * apply (spot_marked EventSet y iy s s' x ix false Hreg Hother);
          [discriminate | assumption].
      * apply (spot_marked EventSet y iy s s' y iy false Hreg Hother); [discriminate |].
        exists ry. repeat split; auto; discriminate.
    + assert (Hsets : forall ls0, get_set ls0 s' = get_set ls0 s).
      { intros ls0. destruct (decide (ls0 = EventSet)) as [-> |]; auto. }
      assert (Hat : forall ls0 p0 i0, record_at ls0 p0 i0 s' = record_at ls0 p0 i0 s)
        by (intros; unfold record_at; now rewrite Hsets).
      unfold gating_inv, spot. rewrite He. split6; auto.
      * intros ls0 p0 i0 r0. rewrite Hat. apply H4.
      * destruct H5 as (r0 & Hr0 & ?). exists r0. now rewrite Hat.
      * exists ry. rewrite Hat. repeat split; auto; discriminate.
Qed.

Hypothesis x_segments : split_dot x = [x].
Hypothesis y_segments : split_dot y = [y].
Hypothesis x_not_y : x <> y.
Hypothesis x_named : x <> "*" /\ x <> "**".
Hypothesis y_named : y <> "*" /\ y <> "**".
Hypothesis both_names : dl = [x; y] \/ dl = [y; x].

Lemma clean_app (fs gs : list js) : clean n fs -> clean n gs -> clean n (fs ++ gs).
Proof.
  unfold clean, _arrayHasValue. intros Hf Hg.
  now rewrite rev_app_distr, existsb_app, Hf, Hg.
Qed.

Lemma yields_modify (P : engine -> Prop) (Q : unit -> engine -> Prop)
    (f : engine -> engine) :
  (forall s, P s -> Q tt (f s)) -> yields P Q (modify f).
Proof. intros H s Hs. exists tt. split; [reflexivity | now apply H]. Qed.

Lemma yields_pure {A} (P : engine -> Prop) (Q : A -> engine -> Prop) (fact : Prop)
    (m : M A) :
  (fact -> yields P Q m) -> yields (fun s => P s /\ fact) Q m.
Proof. intros H s [Hs Hf]. now apply H. Qed.

Section Phase.

Variables tx ty : bool.
Variable c : nat.
Variable o : bool.

Let K : engine -> Prop := gating_inv n x y ix iy dl tx ty c o.

Lemma gating_guarded_call (ls : listenerSet) (p : string) (i : nat)
    (arg : M (option value)) (name : string) :
  ~ (ls = EventSet /\ ((p = x /\ i = ix) \/ (p = y /\ i = iy))) -> reads arg ->
  yields K (fun _ => K) (guarded_call beh ls p i arg name).
Proof.
  intros Hplace Harg s Hs.
  destruct (guarded_call_effect beh ls p i arg name s Harg) as (s' & Heq & Heff).
  rewrite Heq. exists tt. split; [reflexivity |].
  exact (gating_inv_guarded tx ty c o ls p i _ s s' Hplace Hs Heff).
Qed.

Lemma gating_change_handler (ls : listenerSet) (p : string) (fs : list js) (i : nat) :
  ls <> EventSet -> clean n fs ->
  yields K (fun fs' s => K s /\ clean n fs') (invoke_change_handler beh ls p fs i).
Proof.
  intros Hls Hfs s Hs. unfold invoke_change_handler, bind.
  destruct (gating_guarded_call ls p i
              (d <- gets dd ;;
               lift (getObjectAtPath d (strip_wildcard p) (Some (VMap d))))
              "listener-changehandler"
              ltac:(intros [? _]; contradiction) (reads_lookup _) s Hs)
    as ([] & Ha & HK).
  destruct (guarded_call _ _ _ _ _ _ s) as [[[]|] s']; cbn in Ha; [| discriminate].
  cbn [snd] in HK. cbn. eexists. split; [reflexivity |]. split; [assumption |].
  destruct (record_at ls p i s') as [r|] eqn:Hr; [| now rewrite app_nil_r].
  apply clean_app; [assumption |]. unfold clean, _arrayHasValue. simpl.
  rewrite orb_false_r. destruct (js_eqb (handler r) (JUser n)) eqn:E; [| reflexivity].
  apply js_eqb_eq in E. destruct HK as (_ & _ & _ & H4 & _).
  destruct (H4 _ _ _ _ Hr E) as [-> _]. contradiction.
Qed.

Lemma gating_change_listener (ls : listenerSet) (acc : gset string * list js)
    (l : string * list record) :
  ls <> EventSet ->
  yields (fun s => K s /\ clean n (snd acc)) (fun acc' s => K s /\ clean n (snd acc'))
    (invoke_change_listener beh ls acc l).
Proof.
  intros Hls. unfold invoke_change_listener. destruct (decide _).
  { apply yields_ret. auto. }
  apply (yields_bind _ (fun _ s => K s /\ clean n (snd acc))); [now apply yields_gets |].
  intros len.
  apply (yields_bind _ (fun fs s => K s /\ clean n fs)); [| intros fs; now apply yields_ret].
  apply (yields_fold_m (fun fs s => K s /\ clean n fs)).
  intros fs i _ s [Hs Hc]. now apply gating_change_handler.
Qed.

Lemma gating_change_set (ls : listenerSet) :
  ls <> EventSet ->
  yields K (fun fs s => K s /\ clean n fs) (invokeChangeListenersForListenerSet beh ls).
Proof.
  intros Hls. unfold invokeChangeListenersForListenerSet.
  apply (yields_bind _ (fun _ => K)); [now apply yields_gets |]. intros previous.
  apply (yields_bind _ (fun _ => K)); [now apply yields_gets |]. intros current.
  apply (yields_bind _ (fun acc s => K s /\ clean n (snd acc)));
    [| intros acc; now apply yields_ret].
  apply (yields_weaken (fun s => K s /\ clean n (snd (∅ : gset string, @nil js)))
           _ (fun acc s => K s /\ clean n (snd acc))); [| now split | auto].
  apply (yields_fold_m (fun acc s => K s /\ clean n (snd acc))).
  intros acc d _.
  apply (yields_bind _ (fun _ s => K s /\ clean n (snd acc))); [now apply yields_gets |].
  intros listeners.
  apply (yields_fold_m (fun acc s => K s /\ clean n (snd acc))).
  intros acc' l _. now apply gating_change_listener.
Qed.

Lemma gating_change :
  yields K (fun fs s => K s /\ clean n fs) (invokeChangeListeners beh).
Proof.
  unfold invokeChangeListeners.
  apply (yields_bind _ (fun fs s => K s /\ clean n fs));
    [now apply gating_change_set |].
  intros fs. apply yields_pure. intros Hfs.
  apply (yields_bind _ (fun gs s => K s /\ clean n gs));
    [now apply gating_change_set |].
  intros gs. apply yields_ret. intros s [Hs Hgs]. split; [assumption |].
  now apply clean_app.
Qed.

(** The change dispatch that [trigger] runs for an event with a property
    [dd]. *)
Lemma gating_prelude (event : obj) :
  yields K (fun fs s => K s /\ clean n fs)
    (match own event "dd" with
     | Some (VMap patch) =>
         cloneDDtoPreviousDD ;;
         modify (fun s => with_dd (mergeObjects (dd s) patch) s) ;;
         invokeChangeListeners beh
     | _ => ret []
     end).
Proof.
  assert (Hnil : yields K (fun fs s => K s /\ clean n fs) (ret [])).
  { apply yields_ret. now split. }
  destruct (own event "dd") as [[| | | | |patch]|]; try exact Hnil.
  apply (yields_bind _ (fun _ => K)).
  { apply yields_modify. intros s. apply gating_inv_frame; reflexivity. }
  intros _. apply (yields_bind _ (fun _ => K)); [| intros _; apply gating_change].
  apply yields_modify. intros s. apply gating_inv_frame; reflexivity.
Qed.

(** A record that is not one of the two: [trigger] may call it. *)
Lemma gating_trigger_other (e : string) (event : obj) (fs : list js)
    (p : string) (i : nat) :
  ~ ((p = x /\ i = ix) \/ (p = y /\ i = iy)) ->
  yields K (fun _ => K) (trigger_handler beh e event fs p i).
Proof.
  intros Hplace. unfold trigger_handler.
  apply (yields_bind _ (fun _ => K)); [now apply yields_gets |].
  intros [r|]; [| now apply yields_ret].
  assert (Hcall : yields K (fun _ => K)
                    (guarded_call beh EventSet p i (ret (Some (VMap event)))
                       "listener-handler")).
  { apply gating_guarded_call; [| apply reads_ret]. intros [_ H]. contradiction. }
  destruct (dependsOn r); try (now apply yields_when).
  apply (yields_bind _ (fun _ => K)); [now apply yields_gets |].
  intros evs. now apply yields_when.
Qed.

End Phase.

Lemma numTriggered_both (e : string) (evs : list obj) :
  fold_left (fun k d => k + if String.eqb d e || isTriggered evs d then 1 else 0)
    (rev dl) 0
  = (if String.eqb x e || isTriggered evs x then 1 else 0)
    + (if String.eqb y e || isTriggered evs y then 1 else 0)
  /\ List.length dl = 2.
Proof. destruct both_names as [-> | ->]; simpl; split; auto; lia. Qed.

(** [trigger]'s loop body at a record that depends on the two events. *)
Lemma trigger_handler_gated (e : string) (event : obj) (fs : list js) (p : string)
    (i : nat) (r : record) (s : engine) :
  record_at EventSet p i s = Some r -> dependsOn r = JStrings dl ->
  trigger_handler beh e event fs p i s
  = when (((if String.eqb x e || isTriggered (events s) x then 1 else 0)
           + (if String.eqb y e || isTriggered (events s) y then 1 else 0) =? 2)
          && negb (_arrayHasValue fs (handler r)))
      (guarded_call beh EventSet p i (ret (Some (VMap event))) "listener-handler") s.
Proof.
  intros Hr Hd. unfold trigger_handler, bind, gets. rewrite Hr, Hd.
  destruct (numTriggered_both e (events s)) as [-> ->]. reflexivity.
Qed.

(** The first of the two events: the other is not in the log, and the
    record is passed over. *)
Lemma gating_trigger_blocked (tx : bool) (c : nat) (o : bool) (event : obj)
    (fs : list js) :
  yields (gating_inv n x y ix iy dl tx false c o) (fun _ => gating_inv n x y ix iy dl tx false c o)
    (trigger_handler beh x event fs x ix).
Proof.
  intros s Hs. pose proof Hs as (_ & H2 & _ & _ & (r & Hr & _ & Hd & _) & _).
  rewrite (trigger_handler_gated x event fs x ix r s Hr Hd).
  rewrite String.eqb_refl, H2.
  replace (String.eqb y x) with false by (symmetry; apply String.eqb_neq; congruence).
  simpl. exists tt. now split.
Qed.

(** The second of the two events: the record is invoked. *)
Lemma gating_trigger_fire (ty : bool) (c : nat) (event : obj) (fs : list js) :
  clean n fs ->
  yields (gating_inv n x y ix iy dl true ty c true) (fun _ => gating_inv n x y ix iy dl true ty (S c) false)
    (trigger_handler beh y event fs y iy).
Proof.
  intros Hfs s Hs. pose proof Hs as (H1 & _ & _ & _ & _ & (r & Hr & Hh & Hd & _)).
  rewrite (trigger_handler_gated y event fs y iy r s Hr Hd).
  unfold clean in Hfs. rewrite H1, String.eqb_refl, orb_true_r, Hh, Hfs. simpl.
  destruct (guarded_call_effect beh EventSet y iy (ret (Some (VMap event)))
              "listener-handler" s (reads_ret _)) as (s' & Heq & Heff).
  rewrite Heq. exists tt. split; [reflexivity |]. cbn in Heff.
  apply (gating_inv_fire true ty c (Some (VMap event)) s s'); auto.
  intros [? _]. congruence.
Qed.

Lemma for_each_cons {A} (a : A) (l : list A) (f : A -> M unit) (s : engine) :
  for_each (a :: l) f s = (f a ;; for_each l f) s.
Proof.
  unfold for_each. simpl. unfold bind. now destruct (f a s) as [[[]|] s'].
Qed.

Lemma bind_congr {A B} (m : M A) (k k' : A -> M B) (s : engine) :
  (forall a s', k a s' = k' a s') -> bind m k s = bind m k' s.
Proof. intros H. unfold bind. destruct (m s) as [[a|] s']; auto. Qed.

(** [trigger]'s loop over the records of one pattern. *)
Lemma gating_row_other (tx ty : bool) (c : nat) (o : bool) (e : string) (event : obj)
    (fs : list js) (p : string) :
  p <> x -> p <> y ->
  yields (gating_inv n x y ix iy dl tx ty c o) (fun _ => gating_inv n x y ix iy dl tx ty c o)
    (len <- gets (handlers_length EventSet p) ;;
     for_each (seq 0 len) (trigger_handler beh e event fs p)).
Proof.
  intros Hx Hy.
  apply (yields_bind _ (fun _ => gating_inv n x y ix iy dl tx ty c o)); [now apply yields_gets |].
  intros len. apply yields_for_each. intros i _. apply gating_trigger_other.
  intros [[? _] | [? _]]; contradiction.
Qed.

Lemma gating_row_blocked (tx : bool) (c : nat) (o : bool) (event : obj) (fs : list js) :
  yields (gating_inv n x y ix iy dl tx false c o) (fun _ => gating_inv n x y ix iy dl tx false c o)
    (len <- gets (handlers_length EventSet x) ;;
     for_each (seq 0 len) (trigger_handler beh x event fs x)).
Proof.
  apply (yields_bind _ (fun _ => gating_inv n x y ix iy dl tx false c o)); [now apply yields_gets |].
  intros len. apply yields_for_each. intros i _.
  destruct (decide (i = ix)) as [-> | Hne]; [apply gating_trigger_blocked |].
  apply gating_trigger_other. intros [[_ ?] | [? _]]; congruence.
Qed.

Lemma gating_row_fire (ty : bool) (c : nat) (event : obj) (fs : list js) :
  clean n fs ->
  yields (gating_inv n x y ix iy dl true ty c true) (fun _ => gating_inv n x y ix iy dl true ty (S c) false)
    (len <- gets (handlers_length EventSet y) ;;
     for_each (seq 0 len) (trigger_handler beh y event fs y)).
Proof.
  intros Hfs s Hs.
  set (f := trigger_handler beh y event fs y).
  set (len := handlers_length EventSet y s).
  assert (Hlt : iy < len).
  { destruct Hs as (_ & _ & _ & _ & _ & (r & Hr & _)).
    apply lookup_lt_Some in Hr. exact Hr. }
  assert (Hseq : seq 0 len = seq 0 iy ++ iy :: seq (S iy) (len - S iy)).
  { replace len with (iy + S (len - S iy)) at 1 by lia. now rewrite seq_app. }
  assert (Hy : yields (gating_inv n x y ix iy dl true ty c true)
                 (fun _ => gating_inv n x y ix iy dl true ty (S c) false)
                 (for_each (seq 0 iy) f ;;
                  (f iy ;; for_each (seq (S iy) (len - S iy)) f))).
  { apply (yields_bind _ (fun _ => gating_inv n x y ix iy dl true ty c true)).
    { apply yields_for_each. intros i Hi. apply in_seq in Hi.
      apply gating_trigger_other. intros [[? _] | [_ ?]]; [congruence | lia]. }
    intros _. apply (yields_bind _ (fun _ => gating_inv n x y ix iy dl true ty (S c) false)).
    { now apply gating_trigger_fire. }
    intros _. apply yields_for_each. intros i Hi. apply in_seq in Hi.
    apply gating_trigger_other. intros [[? _] | [_ ?]]; [congruence | lia]. }
  destruct (Hy s Hs) as (a & Ha & HQ). exists a.
  assert (Heq : (k <- gets (handlers_length EventSet y) ;; for_each (seq 0 k) f) s
                = (for_each (seq 0 iy) f ;;
                   (f iy ;; for_each (seq (S iy) (len - S iy)) f)) s).
  { unfold bind at 1. cbn [gets]. fold len. rewrite Hseq, for_each_app.
    apply bind_congr. intros _ s1. apply for_each_cons. }
  rewrite Heq. auto.
Qed.

(** The patterns that [getListeners] looks up for a name of one segment. *)
Lemma listeners_of_name (e : string) (reg : registry) :
  split_dot e = [e] ->
  getListeners e reg = rev (entry reg e) ++ rev (entry reg "*") ++ rev (entry reg "**").
Proof.
  intros He. unfold getListeners. rewrite He. simpl.
  now rewrite !rev_app_distr, app_assoc.
Qed.

Lemma in_rev_entry (reg : registry) (p : string) (l : string * list record) :
  In l (rev (entry reg p)) -> fst l = p.
Proof.
  rewrite <- in_rev. destruct l as [q hs]. intros H. now apply in_entry in H as [-> _].
Qed.

Lemma isTriggered_logged (evs : list obj) (event : obj) (e : string) :
  isTriggered (evs ++ [event]) e = event_named e event || isTriggered evs e.
Proof. unfold isTriggered. now rewrite rev_app_distr. Qed.

Lemma event_named_put (m : obj) (e z : string) (v : value) :
  event_named z (put (put m "name" (VStr e)) "timestamp" v) = String.eqb e z.
Proof.
  unfold event_named. rewrite own_put_ne by discriminate. now rewrite own_put_eq.
Qed.

Lemma gating_inv_logged (tx ty : bool) (c : nat) (o : bool) (event : obj) (s : engine) :
  gating_inv n x y ix iy dl tx ty c o s ->
  gating_inv n x y ix iy dl (event_named x event || tx) (event_named y event || ty) c o
    (with_events (events s ++ [event]) s).
Proof.
  intros (H1 & H2 & H3 & H4 & H5 & H6). unfold gating_inv. cbn [events with_events].
  rewrite !isTriggered_logged, H1, H2. split6; auto.
Qed.

(** [trigger] of the first of the two events: the handler is not called. *)
Lemma gating_trigger_first (tx : bool) (c : nat) (o : bool) (payload : option value) :
  yields (gating_inv n x y ix iy dl tx false c o) (fun _ => gating_inv n x y ix iy dl true false c o)
    (trigger beh x payload).
Proof.
  unfold trigger. apply yields_try_catch. cbv zeta.
  apply (yields_bind _ (fun _ => gating_inv n x y ix iy dl tx false c o)); [now apply yields_gets |].
  intros t. set (event := put (put _ "name" (VStr x)) "timestamp" (qz t)).
  apply (yields_bind _ (fun fs s => gating_inv n x y ix iy dl tx false c o s /\ clean n fs));
    [apply gating_prelude |].
  intros fs. apply yields_pure. intros _.
  apply (yields_bind _ (fun ls s => gating_inv n x y ix iy dl tx false c o s
                                    /\ forall l, In l ls -> fst l <> y)).
  { apply yields_gets. intros s Hs. split; [assumption |].
    intros [p hs] Hin. apply getListeners_in in Hin as [_ Hp].
    rewrite x_segments in Hp. cbn in Hp. cbn.
    destruct x_named, y_named. destruct Hp as [-> | [<- | [<- | []]]]; congruence. }
  intros ls. apply yields_pure. intros Hls.
  apply (yields_bind _ (fun _ => gating_inv n x y ix iy dl tx false c o)).
  { apply yields_for_each. intros l Hin.
    destruct (decide (fst l = x)) as [-> | Hne]; [apply gating_row_blocked |].
    apply gating_row_other; auto. }
  intros _. apply yields_modify. intros s Hs.
  apply (gating_inv_logged tx false c o event) in Hs.
  unfold event in Hs. rewrite !event_named_put, String.eqb_refl in Hs.
  replace (String.eqb x y) with false in Hs
    by (symmetry; now apply String.eqb_neq).
  exact Hs.
Qed.

(** [trigger] of the second: one call of the handler. *)
Lemma gating_trigger_second (ty : bool) (c : nat) (payload : option value) :
  yields (gating_inv n x y ix iy dl true ty c true) (fun _ => gating_inv n x y ix iy dl true true (S c) false)
    (trigger beh y payload).
Proof.
  unfold trigger. apply yields_try_catch. cbv zeta.
  apply (yields_bind _ (fun _ => gating_inv n x y ix iy dl true ty c true)); [now apply yields_gets |].
  intros t. set (event := put (put _ "name" (VStr y)) "timestamp" (qz t)).
  apply (yields_bind _ (fun fs s => gating_inv n x y ix iy dl true ty c true s /\ clean n fs));
    [apply gating_prelude |].
  intros fs. apply yields_pure. intros Hfs.
  apply (yields_bind _ (fun ls s => gating_inv n x y ix iy dl true ty c true s
                          /\ exists hs rest, ls = (y, hs) :: rest
                               /\ forall l, In l rest -> fst l <> x /\ fst l <> y)).
  { apply yields_gets. intros s Hs. split; [assumption |].
    destruct Hs as (_ & _ & _ & _ & _ & (r & Hr & _)).
    rewrite (listeners_of_name y _ y_segments).
    unfold record_at in Hr. cbn [get_set] in Hr. unfold entry at 1.
    destruct (eventListeners s !! y) as [hs|]; [| cbn in Hr; try rewrite lookup_nil in Hr; discriminate].
    exists hs, (rev (entry (eventListeners s) "*") ++ rev (entry (eventListeners s) "**")).
    split; [reflexivity |]. intros l Hin. apply in_app_iff in Hin.
    destruct x_named, y_named.
    destruct Hin as [Hin | Hin]; apply in_rev_entry in Hin; rewrite Hin; split;
      congruence. }
  intros ls. apply yields_pure. intros (hs & rest & -> & Hrest).
  apply (yields_bind _ (fun _ => gating_inv n x y ix iy dl true ty (S c) false)).
  { intros s Hs.
    assert (Hy : yields (gating_inv n x y ix iy dl true ty c true)
                   (fun _ => gating_inv n x y ix iy dl true ty (S c) false)
                   ((len <- gets (handlers_length EventSet y) ;;
                     for_each (seq 0 len) (trigger_handler beh y event fs y)) ;;
                    for_each rest
                      (fun l =>
                         len <- gets (handlers_length EventSet (fst l)) ;;
                         for_each (seq 0 len)
                           (trigger_handler beh y event fs (fst l))))).
    { apply (yields_bind _ (fun _ => gating_inv n x y ix iy dl true ty (S c) false));
        [now apply gating_row_fire |].
      intros _. apply yields_for_each. intros l Hin.
      apply gating_row_other; now apply Hrest. }
    rewrite for_each_cons. exact (Hy s Hs). }
  intros _. apply yields_modify. intros s Hs.
  apply (gating_inv_logged true ty (S c) false event) in Hs.
  unfold event in Hs. rewrite !event_named_put, String.eqb_refl in Hs.
  rewrite orb_true_r in Hs. exact Hs.
Qed.

End Gating.


(** ** [listen] with the names of two events *)

Lemma register_eq (ls : listenerSet) (p : string) (h d i : js) (s : engine) :
  register ls p h d i s
  = (Ret true,
     with_next_uid (S (next_uid s))
       (with_set ls
          (<[p := default [] (get_set ls s !! p)
                  ++ [mkRecord (next_uid s) h (if js_isString d then d else i)
                        (if js_isString d then JUndefined else d) false]]>
             (get_set ls s)) s)).
Proof.
  unfold register, registerListener.
  assert (H : existsb (fun li => record_is_value li h) (default [] (get_set ls s !! p))
              = false).
  { induction (default [] (get_set ls s !! p)) as [|r l IH]; [reflexivity |].
    simpl. rewrite IH. now destruct h. }
  now rewrite H.
Qed.

Lemma bind_eq {A B} (m : M A) (k : A -> M B) (s s' : engine) (a : A) :
  m s = (Ret a, s') -> bind m k s = k a s'.
Proof. intros H. unfold bind. now rewrite H. Qed.

(** With no event in the log, the replay of [listen] does nothing. *)
Lemma replay_nothing (beh : oracle) (h : js) (b : bool) (s : engine) :
  events s = [] ->
  when b (evs <- gets events ;; replay beh h evs ∅) s = (Ret tt, s).
Proof. intros H. destruct b; [| reflexivity]. unfold when, bind, gets. now rewrite H. Qed.

Lemma listen_both (beh : oracle) (n : nat) (a b : string) (hist hd id : js)
    (s0 : engine) :
  a <> b ->
  hd = JUser n \/ (hd = JUndefined /\ hist = JUser n) ->
  events s0 = [] ->
  exists s1 ra rb,
    listen beh (Many [a; b]) hist hd id s0 = (Ret tt, s1)
    /\ events s1 = [] /\ calls s1 = calls s0
    /\ (forall ls, ls <> EventSet -> get_set ls s1 = get_set ls s0)
    /\ eventListeners s1
       = <[a := default [] (eventListeners s0 !! a) ++ [ra]]>
           (<[b := default [] (eventListeners s0 !! b) ++ [rb]]> (eventListeners s0))
    /\ (handler ra = JUser n /\ dependsOn ra = JStrings [a; b] /\ once ra = false)
    /\ (handler rb = JUser n /\ dependsOn rb = JStrings [a; b] /\ once rb = false).
Proof.
  intros Hab Hform Hev.
  assert (Hh : (if js_isString hd then hist
                else if js_eqb hd JUndefined then hist else hd) = JUser n).
  { destruct Hform as [-> | [-> ->]]; reflexivity. }
  unfold listen. cbv zeta. rewrite Hh. unfold try_catch.
  erewrite bind_eq.
  2:{ unfold for_each. cbn [rev app fold_m]. unfold bind.
      rewrite register_eq. cbn [ret js_isString].
      rewrite register_eq. cbn [ret js_isString]. reflexivity. }
  rewrite replay_nothing by exact Hev.
  eexists _, _, _. split; [reflexivity |].
  split; [exact Hev |]. split; [reflexivity |].
  split; [intros [] Hls; try contradiction; reflexivity |].
  split.
  { cbn. rewrite lookup_insert_ne by congruence. reflexivity. }
  repeat split.
Qed.

(** The state of the scenario once [listen] has made the two records. *)
Lemma gating_inv_registered (n : nat) (x y : string) (dl : list string)
    (s0 s1 : engine) (rx ry : record) :
  x <> y ->
  events s1 = [] -> calls s1 = calls s0 ->
  (forall ls, ls <> EventSet -> get_set ls s1 = get_set ls s0) ->
  eventListeners s1 !! x = Some (default [] (eventListeners s0 !! x) ++ [rx]) ->
  eventListeners s1 !! y = Some (default [] (eventListeners s0 !! y) ++ [ry]) ->
  (forall p, p <> x -> p <> y -> eventListeners s1 !! p = eventListeners s0 !! p) ->
  handler rx = JUser n /\ dependsOn rx = JStrings dl /\ once rx = false ->
  handler ry = JUser n /\ dependsOn ry = JStrings dl /\ once ry = false ->
  (forall ls p i r, record_at ls p i s0 = Some r -> handler r <> JUser n) ->
  gating_inv n x y
    (List.length (default [] (eventListeners s0 !! x)))
    (List.length (default [] (eventListeners s0 !! y)))
    dl false false (count_calls (JUser n) (calls s0)) true s1.
Proof.
  intros Hxy Hev Hcalls Hsets Hx Hy Hrest (Hhx & Hdx & Hox) (Hhy & Hdy & Hoy) Hfresh.
  assert (Hlast : forall (l : list record) (r r' : record) (i : nat),
            (l ++ [r]) !! i = Some r' -> l !! i = Some r' \/ i = List.length l).
  { intros l r r' i H. apply lookup_app_Some in H as [H | [Hle H]]; [now left |].
    right. destruct (i - List.length l) as [|k] eqn:E; [lia |].
    cbn in H. try rewrite lookup_nil in H. discriminate. }
  unfold gating_inv, spot. rewrite Hev, Hcalls.
  split; [reflexivity |]. split; [reflexivity |]. split; [reflexivity |]. split.
  - intros ls p i r Hr Hh. destruct (decide (ls = EventSet)) as [-> | Hne].
    2:{ exfalso. unfold record_at in Hr. rewrite Hsets in Hr by assumption.
        now apply (Hfresh ls p i r). }
    split; [reflexivity |]. unfold record_at in Hr. cbn [get_set] in Hr.
    destruct (decide (p = x)) as [-> | Hpx].
    { left. split; [reflexivity |]. rewrite Hx in Hr. cbn [from_option Datatypes.id] in Hr.
      apply Hlast in Hr as [Hr | Hr]; [| exact Hr].
      exfalso. now apply (Hfresh EventSet x i r). }
    destruct (decide (p = y)) as [-> | Hpy].
    { right. split; [reflexivity |]. rewrite Hy in Hr. cbn [from_option Datatypes.id] in Hr.
      apply Hlast in Hr as [Hr | Hr]; [| exact Hr].
      exfalso. now apply (Hfresh EventSet y i r). }
    exfalso. rewrite Hrest in Hr by assumption. now apply (Hfresh EventSet p i r).
  - split.
    + exists rx. unfold record_at. cbn [get_set]. rewrite Hx. cbn [from_option Datatypes.id].
      rewrite list_lookup_middle by reflexivity. repeat split; auto.
    + exists ry. unfold record_at. cbn [get_set]. rewrite Hy. cbn [from_option Datatypes.id].
      rewrite list_lookup_middle by reflexivity. repeat split; auto.
Qed.

(** [listen] with the names [a] and [b], then [trigger] of the one and of
    the other, from an engine with no event in its log in which the handler
    has no record yet. *)
Lemma gating_scenario (beh : oracle) (n : nat) (a b x y : string) (hist hd id : js)
    (payload1 payload2 : option value) (s0 : engine) :
  (x = a /\ y = b) \/ (x = b /\ y = a) ->
  a <> b -> split_dot a = [a] -> split_dot b = [b] ->
  a <> "*" /\ a <> "**" -> b <> "*" /\ b <> "**" ->
  hd = JUser n \/ (hd = JUndefined /\ hist = JUser n) ->
  events s0 = [] ->
  (forall ls p i r, record_at ls p i s0 = Some r -> handler r <> JUser n) ->
  exists s1 s2 s3,
    listen beh (Many [a; b]) hist hd id s0 = (Ret tt, s1)
    /\ trigger beh x payload1 s1 = (Ret tt, s2)
    /\ trigger beh y payload2 s2 = (Ret tt, s3)
    /\ count_calls (JUser n) (calls s1) = count_calls (JUser n) (calls s0)
    /\ count_calls (JUser n) (calls s2) = count_calls (JUser n) (calls s0)
    /\ count_calls (JUser n) (calls s3) = S (count_calls (JUser n) (calls s0)).
Proof.
  intros Horder Hab Hsa Hsb Ha Hb Hform Hev Hfresh.
  destruct (listen_both beh n a b hist hd id s0 Hab Hform Hev)
    as (s1 & ra & rb & Hlisten & Hev1 & Hcalls1 & Hsets & Hreg & Hra & Hrb).
  set (ix := List.length (default [] (eventListeners s0 !! x))).
  set (iy := List.length (default [] (eventListeners s0 !! y))).
  assert (Hxy : x <> y) by (destruct Horder as [[-> ->] | [-> ->]]; congruence).
  assert (Hdl : [a; b] = [x; y] \/ [a; b] = [y; x])
    by (destruct Horder as [[-> ->] | [-> ->]]; auto).
  assert (Hsx : split_dot x = [x]) by (destruct Horder as [[-> ->] | [-> ->]]; auto).
  assert (Hsy : split_dot y = [y]) by (destruct Horder as [[-> ->] | [-> ->]]; auto).
  assert (Hx : x <> "*" /\ x <> "**") by (destruct Horder as [[-> ->] | [-> ->]]; auto).
  assert (Hy : y <> "*" /\ y <> "**") by (destruct Horder as [[-> ->] | [-> ->]]; auto).
  assert (H1 : gating_inv n x y ix iy [a; b] false false
                 (count_calls (JUser n) (calls s0)) true s1).
  { destruct Horder as [[-> ->] | [-> ->]].
    - apply (gating_inv_registered n a b [a; b] s0 s1 ra rb); auto.
      + rewrite Hreg. apply lookup_insert_eq.
      + rewrite Hreg, lookup_insert_ne by congruence. apply lookup_insert_eq.
      + intros p Hpa Hpb. rewrite Hreg. now rewrite !lookup_insert_ne by congruence.
    - apply (gating_inv_registered n b a [a; b] s0 s1 rb ra); auto.
      + rewrite Hreg, lookup_insert_ne by congruence. apply lookup_insert_eq.
      + rewrite Hreg. apply lookup_insert_eq.
      + intros p Hpb Hpa. rewrite Hreg. now rewrite !lookup_insert_ne by congruence. }
  destruct (gating_trigger_first beh n x y ix iy [a; b] Hsx Hxy Hx Hy Hdl
              false _ true payload1 s1 H1) as ([] & Hr2 & H2).
  destruct (trigger beh x payload1 s1) as [r2 s2] eqn:E2. cbn in Hr2, H2. subst r2.
  destruct (gating_trigger_second beh n x y ix iy [a; b] Hsy Hxy Hx Hy Hdl
              false _ payload2 s2 H2) as ([] & Hr3 & H3).
  destruct (trigger beh y payload2 s2) as [r3 s3] eqn:E3. cbn in Hr3, H3. subst r3.
  exists s1, s2, s3. repeat split; auto.
  - now rewrite Hcalls1.
  - apply H2.
  - apply H3.
Qed.



(** * Further properties *)

(** ** Reading a path: when the lookup throws *)

Lemma get_prop_throws (v : value) (k : string) : get_prop v k = Throw <-> v = VNull.
Proof.
  destruct v; simpl; try (split; [discriminate | congruence]); try tauto;
    destruct (String.eqb k "length"); split; congruence.
Qed.

Lemma walk_path_throws (segs : list string) (o : option value) :
  walk_path segs o = Throw <->
  exists q r, segs = q ++ r /\ r <> [] /\ walk_path q o = Ret (Some VNull).
Proof.
  revert o. induction segs as [|cur rest IH]; intros o.
  - simpl. split; [discriminate |]. intros (q & r & H & Hr & _).
    destruct q; destruct r; simpl in H; congruence.
  - destruct o as [v|].
    + cbn [walk_path]. destruct (get_prop v cur) as [next|] eqn:E.
      * rewrite IH. split.
        -- intros (q & r & -> & Hr & Hw). exists (cur :: q), r.
           cbn [walk_path app]. rewrite E. auto.
        -- intros (q & r & H & Hr & Hw). destruct q as [|c q].
           ++ simpl in Hw. injection Hw as ->. simpl in E. discriminate.
           ++ simpl in H. injection H as <- ->. cbn [walk_path] in Hw.
              rewrite E in Hw. eauto.
      * apply get_prop_throws in E. subst v. split; [intros _ | reflexivity].
        exists [], (cur :: rest). repeat split. discriminate.
    + cbn [walk_path]. rewrite walk_path_undefined. split; [discriminate |].
      intros (q & r & _ & _ & Hw). rewrite walk_path_undefined in Hw. discriminate.
Qed.

Lemma getObjectAtPath_throws (d : obj) (path : string) :
  getObjectAtPath d path (Some (VMap d)) = Throw <-> through_null d path.
Proof.
  unfold getObjectAtPath, through_null. cbn [typeof strict_neq same_json negb].
  destruct (String.eqb path "") eqn:E.
  - apply String.eqb_eq in E. subst path. split; [discriminate |].
    intros (q & r & H & Hq & Hr & _). simpl in H.
    destruct q as [|a [|b q]]; destruct r; simpl in H; congruence.
  - rewrite walk_path_throws. split.
    + intros (q & r & H & Hr & Hw). exists q, r. repeat split; auto.
      intros ->. discriminate.
    + intros (q & r & H & _ & Hr & Hw). eauto.
Qed.

Lemma get_unfold (beh : oracle) (path : string) (dv : option value) (c : js)
    (s : engine) :
  get beh path dv c s
  = match getObjectAtPath (dd s) path (Some (VMap (dd s))) with
    | Throw => (Throw, s)
    | Ret (Some v) => (Ret (Some v), s)
    | Ret None =>
        match dv with
        | None => (Ret None, s)
        | Some d =>
            if js_eqb c (JBool true)
            then (r <- set beh path d JUndefined None ;; ret (Some r)) s
            else (Ret (Some d), s)
        end
    end.
Proof.
  unfold get. unfold bind at 1. cbn [gets]. unfold bind at 1. unfold lift.
  destruct (getObjectAtPath (dd s) path (Some (VMap (dd s)))) as [[v|]|];
    [reflexivity | | reflexivity].
  destruct dv as [d|]; [| reflexivity].
  destruct (js_eqb c (JBool true)); reflexivity.
Qed.

Lemma set_returns (beh : oracle) (path : string) (v : value) (flag : js)
    (ttl : option value) (s : engine) :
  exists r, fst (set beh path v flag ttl s) = Ret r.
Proof.
  destruct (k_set beh (fun _ => True) (fun _ => True)) with (s := s) (path := path)
    (v := v) (flag := flag) (ttl := ttl) as [H _]; auto.
Qed.


(** ** Writing then reading ([set], [get], [has]) *)

Lemma node_at_walk (ks : list string) (v c : value) :
  node_at v ks = Some c -> walk_path ks (Some v) = Ret (Some c).
Proof.
  revert v. induction ks as [|k ks IH]; intros v H; simpl in H.
  - now injection H as ->.
  - destruct v as [| | | | |m]; try discriminate.
    destruct (own m k) as [c'|] eqn:E; [| discriminate].
    cbn [walk_path get_prop]. rewrite E. now apply IH.
Qed.

Lemma node_at_leaf (v : value) (k : string) (ks : list string) :
  isObject (Some v) = false -> node_at v (k :: ks) = None.
Proof. now destruct v. Qed.

Lemma node_at_set_at (segs : list string) (v : value) (d : obj) :
  segs <> [] ->
  node_at (VMap (set_at segs v d)) segs = Some (stored (node_at (VMap d) segs) v).
Proof.
  revert d. induction segs as [|cur rest IH]; [congruence |]. intros d _.
  destruct rest as [|next rest].
  - cbn [set_at node_at].
    destruct (own d cur) as [[| | | | |pm]|] eqn:E; cbn [stored];
      try (rewrite own_put_eq; reflexivity).
    destruct v; rewrite own_put_eq; reflexivity.
  - rewrite set_at_cons by discriminate.
    change (node_at (VMap d) (cur :: next :: rest))
      with (match own d cur with
            | Some c => node_at c (next :: rest)
            | None => None
            end).
    assert (Hfresh : node_at (VMap (set_at (next :: rest) v [])) (next :: rest)
                     = Some (stored None v)).
    { rewrite IH by discriminate. reflexivity. }
    destruct (own d cur) as [[| | | | |pm]|] eqn:E;
      cbn [node_at]; rewrite own_put_eq; try exact Hfresh.
    apply IH. discriminate.
Qed.

(** [setObjectAtPath] writes under the first segment of the path only. *)
Lemma set_at_frame (segs : list string) (v : value) (d : obj) (k : string) :
  k <> hd "" segs -> own (set_at segs v d) k = own d k.
Proof.
  destruct segs as [|cur rest]; [reflexivity |]. cbn [hd]. intros Hk.
  destruct rest as [|next rest].
  - cbn [set_at]. destruct (own d cur) as [[| | | | |pm]|]; try destruct v;
      now rewrite own_put_ne by congruence.
  - rewrite set_at_cons by discriminate.
    destruct (own d cur) as [[| | | | |pm]|]; now rewrite own_put_ne by congruence.
Qed.

Lemma getObjectAtPath_node (d : obj) (path : string) (c : value) :
  path <> "" -> node_at (VMap d) (split_dot path) = Some c ->
  getObjectAtPath d path (Some (VMap d)) = Ret (Some c).
Proof.
  intros Hp H. unfold getObjectAtPath. cbn [typeof strict_neq same_json negb].
  apply String.eqb_neq in Hp. rewrite Hp. now apply node_at_walk.
Qed.

Lemma guarded_touches (beh : oracle) (ls : listenerSet) (p : string) (h : nat)
    (ra : res (option value)) (s s' : engine) :
  guarded_effect beh ls p h ra s s' -> touches ls s s'.
Proof. intros [-> _ | r _ _ _ Ht _ _ | r a _ _ _ _ Ht _ _]; [apply touches_refl | |]; exact Ht. Qed.

(** Change dispatch keeps whatever one guarded invocation keeps. *)
Lemma dispatch_keeps (beh : oracle) (I : engine -> Prop) :
  (forall ls s s', touches ls s s' -> I s -> I s') ->
  returns I (invokeChangeListeners beh).
Proof.
  intros H. apply (k_invokeChangeListeners beh I (fun _ => True)); auto.
  intros ls p h ra s s' _ Hs Heff. apply (H ls s s'); [| assumption].
  now apply guarded_touches in Heff.
Qed.

Lemma persist_keeps (I : engine -> Prop) (path : string) (ttl : option value) :
  (forall v s, I s -> I (with_pathsToPersist v s)) ->
  (forall v s, I s -> I (with_storage v s)) ->
  (forall v s, I s -> I (with_errors v s)) ->
  (forall v n s, I s -> I (with_next_uid n (with_persistenceListeners v s))) ->
  returns I (persist path ttl).
Proof.
  intros H1 H2 H3 H4.
  apply (k_persist I (fun ls => ls = PersistenceSet)); auto.
  intros ls p h d i s -> Hs. rewrite register_eq. cbn [snd with_set]. now apply H4.
Qed.

(** What [set] returns and leaves in the tree. *)
Lemma set_effect (beh : oracle) (path : string) (v : value) (flag : js)
    (ttl : option value) (d0 : obj) :
  yields (fun s => dd s = d0)
    (fun r s => r = v /\ dd s = setObjectAtPath path v d0)
    (set beh path v flag ttl).
Proof.
  unfold set.
  apply (yields_bind _ (fun _ s => dd s = d0)).
  { apply yields_modify. now intros s. }
  intros _. apply (yields_bind _ (fun _ s => dd s = d0)).
  { apply yields_when, yields_of_returns, persist_keeps; now intros. }
  intros _. apply (yields_bind _ (fun _ s => dd s = setObjectAtPath path v d0)).
  { apply yields_modify. intros s <-. reflexivity. }
  intros _. apply (yields_bind _ (fun _ s => dd s = setObjectAtPath path v d0)).
  { apply yields_of_returns, dispatch_keeps.
    intros ls s s' (Hdd & _) Hs. now rewrite Hdd. }
  intros _. apply yields_ret. auto.
Qed.



Lemma node_at_key (d : obj) (k : string) : node_at (VMap d) [k] = own d k.
Proof. cbn [node_at]. now destruct (own d k). Qed.

(** The empty path reads the whole tree, but writes under the key that is
    the empty string: [get("")] gives the tree and [has("")] holds, while
    [set("", v)] stores [v] as the property [""] of the tree. *)
Theorem empty_path_reads_tree (beh : oracle) (s : engine) (v : value)
    (flag : js) (ttl dv : option value) (c : js) :
  get beh "" dv c s = (Ret (Some (VMap (dd s))), s)
  /\ result (has "") s = Ret true
  /\ own (dd (exec (set beh "" v flag ttl) s)) "" = Some (stored (own (dd s) "") v).
Proof.
  split; [| split].
  - rewrite get_unfold. reflexivity.
  - reflexivity.
  - unfold exec.
    destruct (set_effect beh "" v flag ttl (dd s) s eq_refl) as (r & _ & _ & ->).
    rewrite <- !node_at_key. apply (node_at_set_at [""]). discriminate.
Qed.

(** ** No change, no dispatch ([getDifferences], [set]) *)

Lemma differs_from_self (v : value) (ks : list string) : ~ differs_from (Some v) v ks.
Proof.
  unfold differs_from. cbn [mbind option_bind].
  destruct (node_at v ks) as [[| | | | |m]|]; intros H; congruence.
Qed.

Lemma no_element_nil {A} (l : list A) : (forall x, ~ In x l) -> l = [].
Proof. destruct l as [|a l]; [reflexivity |]. intros H. destruct (H a). now left. Qed.

Lemma getDifferences_same (d : obj) : wf (VMap d) -> getDifferences d d = [].
Proof.
  intros Hwf. unfold getDifferences.
  assert (H : _getDifferences (Some (VMap d)) (VMap d) [] [] = []).
  { apply no_element_nil. intros x Hx.
    apply (_getDifferences_in (VMap d) Hwf) in Hx as [[] | (ks & _ & _ & Hd)].
    now apply differs_from_self in Hd. }
  rewrite H. reflexivity.
Qed.

Lemma put_same {A} (m : list (string * A)) (k : string) (v : A) :
  own m k = Some v -> put m k v = m.
Proof.
  induction m as [|[k' v'] m IH]; simpl; [discriminate |].
  destruct (String.eqb k' k) eqn:E.
  - intros H. injection H as ->. reflexivity.
  - intros H. now rewrite IH.
Qed.

(** Writing at a path the value that is there, when it is not an object,
    leaves the tree as it is. *)
Lemma set_at_same (segs : list string) (v : value) (d : obj) :
  segs <> [] -> node_at (VMap d) segs = Some v -> isObject (Some v) = false ->
  set_at segs v d = d.
Proof.
  revert d. induction segs as [|cur rest IH]; [congruence |]. intros d _ Hn Hv.
  destruct rest as [|next rest].
  - rewrite node_at_key in Hn. cbn [set_at]. rewrite Hn.
    destruct v; try discriminate; now apply put_same.
  - rewrite set_at_cons by discriminate.
    change (node_at (VMap d) (cur :: next :: rest))
      with (match own d cur with
            | Some c => node_at c (next :: rest)
            | None => None
            end) in Hn.
    destruct (own d cur) as [[| | | | |pm]|] eqn:E; try discriminate.
    rewrite IH by (assumption || discriminate). now apply put_same.
Qed.

(** With the tree equal to its previous state, change dispatch does
    nothing. *)
Lemma dispatch_nothing (beh : oracle) (s : engine) :
  wf (VMap (dd s)) -> prev_dd s = dd s -> invokeChangeListeners beh s = (Ret [], s).
Proof.
  intros Hwf Hprev.
  assert (H : forall ls, invokeChangeListenersForListenerSet beh ls s = (Ret [], s)).
  { intros ls. unfold invokeChangeListenersForListenerSet, bind, gets.
    rewrite Hprev, getDifferences_same by assumption. reflexivity. }
  unfold invokeChangeListeners, bind. now rewrite !H.
Qed.



(** ** Deep merge ([mergeObjects]) *)

Lemma mergeObjects_props (destination source : obj) :
  mergeObjects destination source = merge_props source destination.
Proof.
  unfold mergeObjects. cbn [merge_into]. revert destination.
  induction source as [|[property v] source IH]; intros destination; [reflexivity |].
  cbn [merge_props]. rewrite <- IH. destruct v; reflexivity.
Qed.

Lemma own_absent {A} (m : list (string * A)) (k : string) :
  k ∉ map fst m -> own m k = None.
Proof.
  induction m as [|[k' v] m IH]; [reflexivity |]. simpl. intros H.
  destruct (String.eqb k' k) eqn:E.
  - apply String.eqb_eq in E. subst k'. destruct H. now left.
  - apply IH. intros Hin. apply H. now right.
Qed.

Lemma merge_props_own (source destination : obj) (k : string) :
  NoDup (map fst source) ->
  own (merge_props source destination) k
  = match own source k with
    | Some v => Some (merged_value (own destination k) v)
    | None => own destination k
    end.
Proof.
  revert destination. induction source as [|[p v] source IH]; intros destination Hnd;
    [reflexivity |].
  apply NoDup_cons in Hnd as [Hp Hnd]. cbn [merge_props own]. rewrite IH by assumption.
  destruct (String.eqb p k) eqn:E.
  - apply String.eqb_eq in E. subst p.
    rewrite (own_absent source k Hp). now rewrite own_put_eq.
  - apply String.eqb_neq in E. now rewrite own_put_ne.
Qed.

(** The deep merge, read property by property: a property of the source
    that is not an object replaces what the destination held; one that is an
    object is merged into the object of the destination, or into a fresh
    object when the destination held none; the other properties of the
    destination stay. *)
Theorem mergeObjects_lookup (destination source : obj) (k : string) :
  NoDup (map fst source) ->
  own (mergeObjects destination source) k
  = match own source k with
    | Some v => Some (merged_value (own destination k) v)
    | None => own destination k
    end.
Proof. intros Hnd. rewrite mergeObjects_props. now apply merge_props_own. Qed.

Lemma mergeObjects_lookup_witness :
  NoDup (map fst [("b", VMap [("x", qz 1)]); ("c", VStr "new")])
  /\ own (mergeObjects [("a", qz 0); ("b", qz 7); ("c", VStr "old")]
                       [("b", VMap [("x", qz 1)]); ("c", VStr "new")]) "b"
     = Some (VMap [("x", qz 1)]).
Proof.
  assert (Hnd : NoDup (map fst [("b", VMap [("x", qz 1)]); ("c", VStr "new")])).
  { cbn. apply NoDup_cons. split; [| apply NoDup_singleton].
    intros H. apply list_elem_of_singleton in H. discriminate. }
  split; [exact Hnd |].
  rewrite (mergeObjects_lookup [("a", qz 0); ("b", qz 7); ("c", VStr "old")]
             [("b", VMap [("x", qz 1)]); ("c", VStr "new")] "b" Hnd).
  reflexivity.
Defined.

Lemma merge_props_fixed (l d : obj) :
  (forall k v, In (k, v) l -> put d k (merged_value (own d k) v) = d) ->
  merge_props l d = d.
Proof.
  induction l as [|[k v] l IH]; intros H; [reflexivity |].
  cbn [merge_props]. rewrite (H k v) by now left.
  apply IH. intros k' v' Hin. apply H. now right.
Qed.

Lemma put_absent {A} (m : list (string * A)) (k : string) (v : A) :
  own m k = None -> put m k v = m ++ [(k, v)].
Proof.
  induction m as [|[k' v'] m IH]; [reflexivity |]. simpl.
  destruct (String.eqb k' k); [discriminate |]. intros H. now rewrite IH.
Qed.

Lemma own_app {A} (m1 m2 : list (string * A)) (k : string) :
  own (m1 ++ m2) k = match own m1 k with Some v => Some v | None => own m2 k end.
Proof.
  induction m1 as [|[k' v] m1 IH]; [reflexivity |]. simpl.
  now destruct (String.eqb k' k).
Qed.

Lemma merge_laws (v : value) :
  wf v ->
  forall m, v = VMap m ->
    (forall d, mergeObjects (mergeObjects d m) m = mergeObjects d m)
    /\ (forall d, (forall k, k ∈ map fst m -> own d k = None) ->
                  mergeObjects d m = d ++ m).
Proof.
  induction v as [| | | | |m0 IH] using value_ind_nested; try discriminate.
  intros Hwf m Hm. injection Hm as <-. apply wf_object in Hwf as [Hnd Hwf].
  assert (Hval : forall k v d, In (k, v) m0 ->
            merged_value (Some (merged_value d v)) v = merged_value d v
            /\ merged_value None v = v).
  { intros k v d Hin.
    pose proof (proj1 (Forall_forall _ _) IH (k, v) (proj2 (list_elem_of_In _ _) Hin)) as Hv.
    pose proof (proj1 (Forall_forall _ _) Hwf (k, v) (proj2 (list_elem_of_In _ _) Hin)) as Hw.
    cbn [snd] in Hv, Hw.
    destruct v as [| | | | |vm]; try (split; reflexivity).
    destruct (Hv Hw vm eq_refl) as [Hi He].
    cbn [merged_value]. split.
    - now rewrite Hi.
    - rewrite He; [reflexivity | reflexivity]. }
  split.
  - intros d. rewrite !mergeObjects_props. apply merge_props_fixed.
    intros k v Hin. apply put_same.
    rewrite merge_props_own by assumption.
    rewrite (proj1 (own_in_nodup m0 k v Hnd) Hin).
    now rewrite (proj1 (Hval k v (own d k) Hin)).
  - intros d. rewrite mergeObjects_props. clear IH Hwf.
    revert d. induction m0 as [|[k v] m0 IHm]; intros d Hd.
    + now rewrite app_nil_r.
    + apply NoDup_cons in Hnd as [Hk Hnd]. cbn [merge_props].
      rewrite Hd by (cbn; now left).
      rewrite (proj2 (Hval k v None (or_introl eq_refl))).
      rewrite put_absent by (apply Hd; cbn; now left).
      rewrite IHm.
      * now rewrite <- app_assoc.
      * assumption.
      * intros k' v' d' Hin. apply (Hval k'). now right.
      * intros k' Hk'. rewrite own_app, Hd by (cbn; now right). cbn [own].
        destruct (String.eqb k k') eqn:E; [| reflexivity].
        apply String.eqb_eq in E. subst k'. contradiction.
Qed.

(** Merging the same source a second time changes nothing, and merging
    into an object that has none of the properties of the source appends
    the source as it is; so [mergeObjects({}, source)] is a copy of the
    source. *)
Theorem mergeObjects_idempotent (destination source : obj) :
  wf (VMap source) ->
  mergeObjects (mergeObjects destination source) source = mergeObjects destination source
  /\ ((forall k, k ∈ map fst source -> own destination k = None) ->
      mergeObjects destination source = destination ++ source)
  /\ mergeObjects [] source = source.
Proof.
  intros Hwf. destruct (merge_laws (VMap source) Hwf source eq_refl) as [Hi He].
  split; [apply Hi | split; [apply He |]].
  now apply (He []).
Qed.

Lemma mergeObjects_idempotent_witness :
  wf (VMap [("user", VMap [("id", qz 7)])])
  /\ mergeObjects [] [("user", VMap [("id", qz 7)])] = [("user", VMap [("id", qz 7)])].
Proof.
  assert (Hwf : wf (VMap [("user", VMap [("id", qz 7)])])).
  { cbn. repeat split; apply NoDup_singleton. }
  split; [exact Hwf |].
  apply (mergeObjects_idempotent [] [("user", VMap [("id", qz 7)])] Hwf).
Defined.

(** ** The event log ([trigger], [isTriggered]) *)

Lemma trigger_handler_keeps (beh : oracle) (I : engine -> Prop) (e : string)
    (event : obj) (fs : list js) (p : string) (i : nat) :
  (forall ls s s', touches ls s s' -> I s -> I s') ->
  returns I (trigger_handler beh e event fs p i).
Proof.
  intros H. apply (k_trigger_handler beh I (fun _ => True)); auto.
  intros ls p' h ra s s' _ Hs Heff. apply (H ls s s'); [| assumption].
  now apply guarded_touches in Heff.
Qed.

(** What [trigger] appends to the log. *)
Lemma trigger_effect (beh : oracle) (name : string) (payload : option value)
    (evs : list obj) (t : Z) :
  yields (fun s => events s = evs /\ now s = t)
    (fun _ s =>
       events s
       = evs ++ [put (put match payload with Some (VMap m) => m | _ => [] end
                        "name" (VStr name)) "timestamp" (qz t)])
    (trigger beh name payload).
Proof.
  set (I := fun s : engine => events s = evs /\ now s = t).
  assert (HI : forall ls s s', touches ls s s' -> I s -> I s').
  { intros ls s s' (_ & _ & He & _ & _ & Hn & _) [H1 H2]. split; congruence. }
  unfold trigger. apply yields_try_catch. cbv zeta.
  apply (yields_bind _ (fun t' s => I s /\ t' = t)).
  { apply yields_gets. intros s [H1 H2]. now repeat split. }
  intros t'. apply yields_pure. intros ->.
  apply (yields_bind _ (fun _ => I)).
  { destruct (own _ "dd") as [[| | | | |patch]|]; try (now apply yields_ret).
    apply (yields_bind _ (fun _ => I)); [apply yields_modify; now intros s |].
    intros _. apply (yields_bind _ (fun _ => I)); [apply yields_modify; now intros s |].
    intros _. now apply yields_of_returns, dispatch_keeps. }
  intros fs. apply (yields_bind _ (fun _ => I)); [now apply yields_gets |].
  intros listeners. apply (yields_bind _ (fun _ => I)).
  { apply yields_for_each. intros l _.
    apply (yields_bind _ (fun _ => I)); [now apply yields_gets |].
    intros len. apply yields_for_each. intros i _.
    now apply yields_of_returns, trigger_handler_keeps. }
  intros _. apply yields_modify. intros s [H1 H2]. cbn. now rewrite H1.
Qed.


(** ** Appending to a list ([push]) *)

Lemma get_present (beh : oracle) (path : string) (a : option value) (c : js)
    (s : engine) :
  getObjectAtPath (dd s) path (Some (VMap (dd s))) = Ret a ->
  get beh path None c s = (Ret a, s).
Proof. intros H. rewrite get_unfold, H. now destruct a. Qed.

(** [push] returns what the path held before the call, not the list it
    leaves there. When the path held a list, it holds afterwards that list
    followed by the value, or by the elements of the value when the value
    is a list itself; when it held no list, it holds afterwards the list of
    the value alone, also when the value is a list. *)
Theorem push_appends (beh : oracle) (s : engine) (path : string) (v : value)
    (a : option value) :
  path <> "" ->
  getObjectAtPath (dd s) path (Some (VMap (dd s))) = Ret a ->
  let s' := exec (push beh path v) s in
  let new := match a with
             | Some (VList l) => l ++ match v with VList vs => vs | _ => [v] end
             | _ => [v]
             end in
  result (push beh path v) s = Ret a
  /\ get beh path None JUndefined s' = (Ret (Some (VList new)), s').
Proof.
  intros Hp Ha. cbv zeta.
  set (new := match a with
              | Some (VList l) => VList (l ++ match v with VList vs => vs | _ => [v] end)
              | _ => VList [v]
              end).
  assert (Hy : yields (fun s' => dd s' = dd s)
                 (fun r s' => r = a /\ dd s' = setObjectAtPath path new (dd s))
                 (push beh path v)).
  { unfold push. apply yields_try_catch.
    apply (yields_bind _ (fun _ s' => dd s' = dd s)).
    { apply yields_modify. now intros s'. }
    intros _. apply (yields_bind _ (fun r s' => dd s' = dd s /\ r = a)).
    { intros s' Hs'. rewrite (get_present beh path a JUndefined s').
      - exists a. auto.
      - now rewrite Hs'. }
    intros r. apply yields_pure. intros ->. fold new.
    apply (yields_bind _ (fun _ s' => dd s' = setObjectAtPath path new (dd s))).
    { apply yields_modify. now intros s' <-. }
    intros _. apply (yields_bind _ (fun _ s' => dd s' = setObjectAtPath path new (dd s))).
    { apply yields_of_returns, dispatch_keeps.
      intros ls s1 s2 (Hdd & _) Hs1. now rewrite Hdd. }
    intros _. apply yields_ret. auto. }
  unfold exec, result. destruct (Hy s eq_refl) as (r & Hr & -> & Hdd).
  split; [exact Hr |].
  apply get_present. rewrite Hdd.
  replace (VList match a with
                 | Some (VList l) => l ++ match v with VList vs => vs | _ => [v] end
                 | _ => [v]
                 end) with new by (unfold new; now destruct a as [[]|]).
  apply getObjectAtPath_node; [assumption |].
  unfold setObjectAtPath. rewrite node_at_set_at by apply split_dot_nonempty.
  assert (Hnew : isObject (Some new) = false) by (unfold new; now destruct a as [[]|]).
  destruct new; try discriminate; now destruct (node_at _ _) as [[]|].
Qed.

Lemma push_appends_witness :
  let s := with_dd [("cart", VList [VStr "tv"])] (initial true [] 0) in
  result (push quiet "cart" (VStr "radio")) s = Ret (Some (VList [VStr "tv"]))
  /\ result (get quiet "cart" None JUndefined) (exec (push quiet "cart" (VStr "radio")) s)
     = Ret (Some (VList [VStr "tv"; VStr "radio"])).
Proof.
  cbv zeta.
  pose proof (push_appends quiet (with_dd [("cart", VList [VStr "tv"])] (initial true [] 0))
                "cart" (VStr "radio") (Some (VList [VStr "tv"]))
                ltac:(discriminate) eq_refl) as [H1 H2].
  cbv zeta in H1, H2. split; [exact H1 |]. unfold result. rewrite H2. reflexivity.
Defined.

(** On a path that goes through [null], [push] catches the error of the
    lookup: it reports it to the error hook, returns [undefined] and leaves
    the tree as it is. *)
Theorem push_through_null (beh : oracle) (s : engine) (path : string) (v : value) :
  through_null (dd s) path ->
  push beh path v s
  = (Ret None,
     with_errors (mkReport "push" JUndefined :: errors s) (with_prev_dd (dd s) s)).
Proof.
  intros H. apply getObjectAtPath_throws in H.
  unfold push, try_catch. unfold bind at 1. cbn [cloneDDtoPreviousDD modify].
  unfold bind at 1. rewrite get_unfold. cbn [dd with_prev_dd]. rewrite H.
  reflexivity.
Qed.

Lemma push_through_null_witness :
  let s := with_dd [("cart", VNull)] (initial true [] 0) in
  result (push quiet "cart.items" (VStr "tv")) s = Ret None
  /\ dd (exec (push quiet "cart.items" (VStr "tv")) s) = [("cart", VNull)].
Proof.
  cbv zeta. unfold result, exec.
  rewrite (push_through_null quiet (with_dd [("cart", VNull)] (initial true [] 0))
             "cart.items" (VStr "tv")).
  - split; reflexivity.
  - exists ["cart"], ["items"]. repeat split; discriminate.
Defined.

(** ** Reading with a default ([get]) *)

Lemma walk_absent_node (d : obj) (path : string) :
  getObjectAtPath d path (Some (VMap d)) = Ret None ->
  path <> "" /\ node_at (VMap d) (split_dot path) = None.
Proof.
  intros H. assert (Hp : path <> "").
  { intros ->. discriminate. }
  split; [assumption |].
  destruct (node_at (VMap d) (split_dot path)) as [c|] eqn:E; [| reflexivity].
  rewrite (getObjectAtPath_node d path c Hp E) in H. discriminate.
Qed.



(** ** Deleting ([erase]) *)

Lemma own_del_eq {A} (m : list (string * A)) (k : string) : own (del m k) k = None.
Proof.
  induction m as [|[k' v] m IH]; [reflexivity |]. simpl.
  destruct (String.eqb k' k) eqn:E; [exact IH |]. simpl. now rewrite E.
Qed.

Lemma own_del_ne {A} (m : list (string * A)) (k k' : string) :
  k <> k' -> own (del m k) k' = own m k'.
Proof.
  intros Hne. induction m as [|[k0 v] m IH]; [reflexivity |]. simpl.
  destruct (String.eqb k0 k) eqn:E.
  - apply String.eqb_eq in E. subst k0. apply String.eqb_neq in Hne. now rewrite Hne.
  - simpl. now rewrite IH.
Qed.

Lemma node_at_snoc (q : list string) (k : string) (v c : value) :
  node_at v (q ++ [k]) = Some c ->
  exists m, node_at v q = Some (VMap m) /\ own m k = Some c.
Proof.
  revert v. induction q as [|cur q IH]; intros v H.
  - destruct v as [| | | | |m]; try discriminate.
    exists m. split; [reflexivity |]. now rewrite <- node_at_key.
  - destruct v as [| | | | |m]; try discriminate. cbn [app node_at] in *.
    destruct (own m cur) as [c1|]; [| discriminate]. now apply IH.
Qed.

Lemma delete_in_node (q : list string) (k : string) (m : obj) (c : value) :
  node_at (VMap m) (q ++ [k]) = Some c ->
  exists m', delete_in q k (VMap m) = Some (VMap m')
             /\ walk_path (q ++ [k]) (Some (VMap m')) = Ret None.
Proof.
  revert m. induction q as [|cur q IH]; intros m H.
  - exists (del m k). split; [reflexivity |].
    cbn [app walk_path get_prop]. now rewrite own_del_eq.
  - cbn [app node_at] in H. destruct (own m cur) as [c1|] eqn:E; [| discriminate].
    destruct c1 as [| | | | |m1]; try (destruct q; discriminate).
    destruct (IH m1 H) as (m1' & Hd & Hw).
    exists (put m cur (VMap m1')). split.
    + cbn [delete_in]. now rewrite E, Hd.
    + cbn [app walk_path get_prop]. now rewrite own_put_eq.
Qed.

Lemma join_dot_empty (l : list string) : join_dot l = "" -> l = [] \/ l = [""].
Proof.
  destruct l as [|x [|y l]]; [now left | intros H; right; simpl in H; now subst |].
  rewrite join_dot_cons by discriminate. destruct x; discriminate.
Qed.

(** The segments of the parent path that [erase] computes. *)
Lemma parent_segments (path : string) :
  removelast (split_dot path) <> [""] ->
  (if String.eqb (join_dot (removelast (split_dot path))) "" then []
   else split_dot (join_dot (removelast (split_dot path))))
  = removelast (split_dot path).
Proof.
  intros Hq. destruct (String.eqb _ "") eqn:E.
  - apply String.eqb_eq, join_dot_empty in E as [E | E]; [now rewrite E | contradiction].
  - apply split_join.
    + intros Hnil. rewrite Hnil in E. discriminate.
    + pose proof (split_dot_segments path) as Hall.
      rewrite (app_removelast_last "" (split_dot_nonempty path)) in Hall.
      now apply Forall_app in Hall as [Hall _].
Qed.



(** ** The persistence writer ([_persist], [persist], [unpersist]) *)

Lemma storage_keys_apart (key : string) :
  storagePrefix +:+ key <> storageExpirationPrefix +:+ key.
Proof.
  intros H. apply (f_equal String.length) in H. rewrite !append_length in H.
  cbn in H. lia.
Qed.

Lemma persist_unfold (key : string) (v ttl : option value) (s : engine) :
  _persist key v ttl s
  = (Ret tt,
     if storage_ok s then
       let t := if isInteger ttl then int_of ttl else 30%Z in
       let st := del (storage s) "__storage_test__" in
       if (now s <? now s + t * 60000)%Z
       then with_storage
              (put (put st (storagePrefix +:+ key) (stringify_cell v))
                 (storageExpirationPrefix +:+ key) (CJson (qz (now s + t * 60000)))) s
       else with_storage
              (del (del st (storagePrefix +:+ key)) (storageExpirationPrefix +:+ key)) s
     else s).
Proof.
  unfold _persist, storageAvailable, bind, gets, when, modify, ret, setItem, removeItem.
  destruct (storage_ok s); [| reflexivity]. cbn.
  destruct (now s <? now s + _)%Z; reflexivity.
Qed.

Lemma persist_items (s : engine) (key : string) (v ttl : option value) :
  let t := if isInteger ttl then int_of ttl else 30%Z in
  let s' := exec (_persist key v ttl) s in
  result (_persist key v ttl) s = Ret tt
  /\ (storage_ok s = false -> s' = s)
  /\ (storage_ok s = true -> (0 < t)%Z ->
        own (storage s') (storagePrefix +:+ key) = Some (stringify_cell v)
        /\ own (storage s') (storageExpirationPrefix +:+ key)
           = Some (CJson (qz (now s + t * 60000))))
  /\ (storage_ok s = true -> (t <= 0)%Z ->
        own (storage s') (storagePrefix +:+ key) = None
        /\ own (storage s') (storageExpirationPrefix +:+ key) = None).
Proof.
  cbv zeta. unfold exec, result. rewrite persist_unfold. cbn [fst snd].
  pose proof (storage_keys_apart key) as Hne.
  split; [reflexivity |]. split; [now intros -> |]. split; intros -> Ht; cbv zeta.
  - replace (now s <? _)%Z with true by (symmetry; apply Z.ltb_lt; lia).
    cbn [storage with_storage]. split.
    + rewrite own_put_ne by congruence. apply own_put_eq.
    + apply own_put_eq.
  - replace (now s <? _)%Z with false by (symmetry; apply Z.ltb_ge; lia).
    cbn [storage with_storage]. split.
    + rewrite own_del_ne by congruence. apply own_del_eq.
    + apply own_del_eq.
Qed.



Lemma persist_unfold_tracked (path : string) (ttl : option value) (s : engine) :
  persist path ttl s
  = (Ret tt,
     let s0 :=
       if bool_decide (is_Some (pathsToPersist s !! path)) then s
       else snd (register PersistenceSet (path +:+ ".**") (JWriter path) JUndefined
                   JUndefined
                   (snd (register PersistenceSet path (JWriter path) JUndefined
                           JUndefined s))) in
     with_pathsToPersist
       (<[path := if isInteger ttl then int_of ttl else 30%Z]> (pathsToPersist s0)) s0).
Proof.
  unfold persist, try_catch, bind, gets, when, modify, lift, ret.
  destruct (bool_decide (is_Some (pathsToPersist s !! path))); cbn [negb].
  - cbn [fst snd dd with_pathsToPersist]. rewrite getObjectAtPath_default. reflexivity.
  - rewrite register_eq. cbn [fst snd]. rewrite register_eq. cbn [fst snd].
    cbn [dd with_pathsToPersist with_next_uid with_set with_persistenceListeners].
    rewrite getObjectAtPath_default. reflexivity.
Qed.

Lemma persist_state (s : engine) (path : string) (ttl : option value) :
  let t := if isInteger ttl then int_of ttl else 30%Z in
  let s' := exec (persist path ttl) s in
  result (persist path ttl) s = Ret tt
  /\ storage s' = storage s /\ dd s' = dd s /\ calls s' = calls s /\ errors s' = errors s
  /\ pathsToPersist s' = <[path := t]> (pathsToPersist s)
  /\ (is_Some (pathsToPersist s !! path) ->
        persistenceListeners s' = persistenceListeners s)
  /\ (pathsToPersist s !! path = None ->
        exists r1 r2,
          handler r1 = JWriter path /\ handler r2 = JWriter path
          /\ once r1 = false /\ once r2 = false
          /\ persistenceListeners s'
             = <[path +:+ ".**" :=
                   default [] (<[path := default [] (persistenceListeners s !! path) ++ [r1]]>
                                 (persistenceListeners s) !! (path +:+ ".**")) ++ [r2]]>
                 (<[path := default [] (persistenceListeners s !! path) ++ [r1]]>
                    (persistenceListeners s))).
Proof.
  cbv zeta. unfold exec, result. rewrite persist_unfold_tracked. cbn [fst snd].
  destruct (bool_decide (is_Some (pathsToPersist s !! path))) eqn:E; cbv zeta.
  - apply bool_decide_eq_true in E. repeat split; auto.
    intros H. rewrite H in E. now destruct E.
  - apply bool_decide_eq_false in E. rewrite !register_eq. cbn.
    repeat split; auto; [contradiction |].
    intros _. eexists _, _. repeat split; reflexivity.
Qed.


(** [unpersist] removes the writers of the path and (with a storage at
    hand) the two items of the path, but leaves the path in the table of
    persisted paths; so a later [persist] of the same path finds it tracked
    and registers no writer: the path is not written to the storage
    again. *)
Theorem unpersist_then_persist (s : engine) (path : string) (ttl : option value)
    (t0 : Z) :
  pathsToPersist s !! path = Some t0 ->
  let s1 := exec (unpersist path) s in
  let s2 := exec (persist path ttl) s1 in
  persistenceListeners s1 !! path = None
  /\ persistenceListeners s1 !! (path +:+ ".**") = None
  /\ pathsToPersist s1 !! path = Some t0
  /\ (storage_ok s = true ->
        own (storage s1) (storagePrefix +:+ path) = None
        /\ own (storage s1) (storageExpirationPrefix +:+ path) = None)
  /\ persistenceListeners s2 !! path = None
  /\ persistenceListeners s2 !! (path +:+ ".**") = None
  /\ storage s2 = storage s1.
Proof.
  intros Ht. cbv zeta.
  assert (Hne : path <> path +:+ ".**").
  { intros H. apply (f_equal String.length) in H. rewrite append_length in H.
    cbn in H. lia. }
  assert (H1 : exec (unpersist path) s
               = exec (_persist path (Some VNull) (Some (qz 0)))
                   (with_persistenceListeners
                      (delete (path +:+ ".**") (delete path (persistenceListeners s))) s)).
  { reflexivity. }
  set (s0 := with_persistenceListeners
               (delete (path +:+ ".**") (delete path (persistenceListeners s))) s) in *.
  assert (Hfields : persistenceListeners (exec (unpersist path) s)
                    = persistenceListeners s0
                    /\ pathsToPersist (exec (unpersist path) s) = pathsToPersist s).
  { rewrite H1. unfold exec. rewrite persist_unfold. cbn [snd].
    destruct (storage_ok s0); [| now split].
    cbv zeta. destruct (now s0 <? _)%Z; now split. }
  destruct Hfields as [Hl Hp].
  assert (Hl1 : persistenceListeners (exec (unpersist path) s) !! path = None).
  { rewrite Hl. cbn. rewrite lookup_delete_ne by congruence. apply lookup_delete_eq. }
  assert (Hl2 : persistenceListeners (exec (unpersist path) s) !! (path +:+ ".**") = None).
  { rewrite Hl. cbn. apply lookup_delete_eq. }
  assert (Hp1 : pathsToPersist (exec (unpersist path) s) !! path = Some t0)
    by now rewrite Hp.
  split; [exact Hl1 |]. split; [exact Hl2 |]. split; [exact Hp1 |]. split.
  { intros Hok. rewrite H1.
    apply (persist_items s0 path (Some VNull) (Some (qz 0)));
      [exact Hok | vm_compute; discriminate]. }
  destruct (persist_state (exec (unpersist path) s) path ttl)
    as (_ & Hst & _ & _ & _ & _ & Hsame & _).
  cbv zeta in Hst, Hsame. rewrite Hsame by (rewrite Hp1; eauto).
  auto.
Qed.

Lemma unpersist_then_persist_witness :
  let s := exec (persist "k" (Some (qz 60))) (initial true [] 0) in
  pathsToPersist s !! "k" = Some 60%Z
  /\ persistenceListeners (exec (persist "k" (Some (qz 60))) (exec (unpersist "k") s)) !! "k"
     = None.
Proof.
  cbv zeta.
  assert (H : pathsToPersist (exec (persist "k" (Some (qz 60))) (initial true [] 0)) !! "k"
              = Some 60%Z) by (vm_compute; reflexivity).
  split; [exact H |].
  apply (unpersist_then_persist (exec (persist "k" (Some (qz 60))) (initial true [] 0))
           "k" (Some (qz 60)) 60%Z H).
Defined.

(** ** Registering a change listener ([change]) *)

Lemma invoke_user_calls (beh : oracle) (u : option nat) (n : nat) (a : option value)
    (s : engine) :
  snd (invoke beh u (JUser n) a s) = with_calls (mkCall u (JUser n) a :: calls s) s.
Proof.
  unfold invoke, bind, modify, gets. cbn.
  now destruct (beh _).
Qed.



(** ** A function is called only while it is registered *)

Section Unregistered.

Variable beh : oracle.
Variable n : nat.
Variable c : nat.

Let U (s : engine) : Prop :=
  unregistered (JUser n) s /\ count_calls (JUser n) (calls s) = c.

Lemma u_shrink (s s' : engine) :
  calls s' = calls s ->
  (forall ls p r, holds s' ls p r -> holds s ls p r) -> U s -> U s'.
Proof.
  intros Hc Hh [H1 H2]. split; [| now rewrite Hc].
  intros ls p r H. apply (H1 ls p r). now apply Hh.
Qed.

Lemma u_frame (s s' : engine) :
  calls s' = calls s -> (forall ls, get_set ls s' = get_set ls s) -> U s -> U s'.
Proof.
  intros Hc Hsets. apply u_shrink; [assumption |].
  intros ls p r (l & Hl & Hin). exists l. now rewrite <- Hsets.
Qed.

Lemma holds_record_at (s : engine) (ls : listenerSet) (p : string) (i : nat)
    (r : record) :
  record_at ls p i s = Some r -> holds s ls p r.
Proof.
  unfold record_at. intros H. destruct (get_set ls s !! p) as [l|] eqn:E.
  - exists l. split; [exact E |]. apply list_elem_of_lookup. eauto.
  - cbn in H. try rewrite lookup_nil in H. discriminate.
Qed.

Lemma alter_elem {A} (f : A -> A) (i : nat) (l : list A) (x : A) :
  x ∈ alter f i l -> x ∈ l \/ exists y, y ∈ l /\ x = f y.
Proof.
  intros H. apply list_elem_of_lookup in H as [j Hj].
  rewrite list_lookup_alter in Hj. destruct (decide (i = j)) as [<- |].
  - destruct (l !! i) as [y|] eqn:E; [| discriminate]. cbn in Hj.
    injection Hj as <-. right. exists y. split; [| reflexivity].
    apply list_elem_of_lookup. eauto.
  - left. apply list_elem_of_lookup. eauto.
Qed.

Lemma u_guarded (ls : listenerSet) (p : string) (i : nat) (ra : res (option value))
    (s s' : engine) :
  U s -> guarded_effect beh ls p i ra s s' -> U s'.
Proof.
  intros HU Heff.
  destruct Heff as [-> _ | r Hr Honce _ Ht Hreg Hcalls | r a Hr Honce _ Hfn Ht Hcalls Hreg].
  - assumption.
  - destruct Ht as (_ & _ & _ & _ & _ & _ & _ & Hother).
    apply (u_frame s s'); auto.
    intros ls0. destruct (decide (ls0 = ls)) as [-> |]; auto.
  - destruct Ht as (_ & _ & _ & _ & _ & _ & _ & Hother).
    destruct HU as [H1 H2].
    assert (Hh : handler r <> JUser n)
      by (apply (H1 ls p r); now apply (holds_record_at s ls p i)).
    split.
    + intros ls0 p0 r0 (l & Hl & Hin).
      destruct (decide (ls0 = ls)) as [-> | Hne].
      2:{ apply (H1 ls0 p0 r0). exists l. now rewrite <- Hother. }
      rewrite Hreg in Hl.
      destruct (user_fn (handler r) && _).
      2:{ apply (H1 ls p0 r0). now exists l. }
      rewrite lookup_alter in Hl. destruct (decide (p = p0)) as [<- |].
      2:{ apply (H1 ls p0 r0). now exists l. }
      destruct (get_set ls s !! p) as [l0|] eqn:E; [| discriminate].
      cbn in Hl. injection Hl as <-.
      apply alter_elem in Hin as [Hin | (y & Hy & ->)].
      * apply (H1 ls p r0). now exists l0.
      * cbn. apply (H1 ls p y). now exists l0.
    + rewrite Hcalls, count_calls_cons. cbn [callee].
      destruct (js_eqb (handler r) (JUser n)) eqn:E; [| assumption].
      apply js_eqb_eq in E. contradiction.
Qed.

Lemma u_register (ls : listenerSet) (p : string) (f d i : js) :
  f <> JUser n -> returns U (register ls p f d i).
Proof.
  intros Hf s [H1 H2]. rewrite register_eq. cbn [fst snd].
  split; [now exists true |]. split; [| now destruct ls].
  intros ls0 p0 r0 (l & Hl & Hin).
  assert (Hl' : get_set ls0 (with_set ls
                  (<[p := default [] (get_set ls s !! p)
                          ++ [mkRecord (next_uid s) f (if js_isString d then d else i)
                                (if js_isString d then JUndefined else d) false]]>
                     (get_set ls s)) s) !! p0 = Some l).
  { now destruct ls, ls0. }
  rewrite get_set_with_set in Hl'. destruct (decide (ls0 = ls)) as [-> |].
  2:{ apply (H1 ls0 p0 r0). now exists l. }
  rewrite lookup_insert in Hl'. destruct (decide (p = p0)) as [<- |].
  2:{ apply (H1 ls p0 r0). now exists l. }
  injection Hl' as <-. apply elem_of_app in Hin as [Hin | Hin].
  - destruct (get_set ls s !! p) as [l0|] eqn:E.
    + apply (H1 ls p r0). now exists l0.
    + cbn in Hin. now apply elem_of_nil in Hin.
  - apply list_elem_of_singleton in Hin. now subst r0.
Qed.

Lemma u_with (s s' : engine) :
  calls s' = calls s -> (forall ls, get_set ls s' = get_set ls s) -> U s -> U s'.
Proof. apply u_frame. Qed.

Local Ltac u_field :=
  eapply u_with; [| | eassumption]; [reflexivity | now intros []].

Lemma u_guarded_call (ls : listenerSet) (p : string) (i : nat)
    (arg : M (option value)) (name : string) :
  reads arg -> returns U (guarded_call beh ls p i arg name).
Proof.
  intros Harg. apply (k_guarded_call beh U (fun _ => True)); auto.
  intros ls0 p0 h ra s s' _. apply u_guarded.
Qed.

Lemma u_dispatch : returns U (invokeChangeListeners beh).
Proof.
  apply (k_invokeChangeListeners beh U (fun _ => True)); auto.
  intros ls p h ra s s' _. apply u_guarded.
Qed.

Lemma u_persist (path : string) (ttl : option value) : returns U (persist path ttl).
Proof.
  intros s Hs. rewrite persist_unfold_tracked. cbn [fst snd].
  split; [now exists tt |]. cbv zeta.
  assert (H : U (if bool_decide (is_Some (pathsToPersist s !! path)) then s
                 else snd (register PersistenceSet (path +:+ ".**") (JWriter path)
                             JUndefined JUndefined
                             (snd (register PersistenceSet path (JWriter path)
                                     JUndefined JUndefined s))))).
  { destruct (bool_decide _); [assumption |].
    apply u_register; [discriminate |]. now apply u_register. }
  u_field.
Qed.

Lemma u_set (path : string) (v : value) (flag : js) (ttl : option value) :
  returns U (set beh path v flag ttl).
Proof.
  unfold set, cloneDDtoPreviousDD. repeat k_step;
    try apply u_persist; try apply u_dispatch; u_field.
Qed.

Lemma u_get (path : string) (dv : option value) (flag : js) :
  keeps U (get beh path dv flag).
Proof.
  unfold get. repeat k_step; try (apply returns_keeps, u_set).
Qed.

Lemma u_push (path : string) (v : value) : keeps U (push beh path v).
Proof.
  unfold push, cloneDDtoPreviousDD, handleError. repeat k_step;
    try apply u_get; try (apply returns_keeps, u_dispatch); u_field.
Qed.

Lemma u_erase (path : string) : keeps U (erase beh path).
Proof.
  apply (k_erase beh U (fun _ => True)); auto;
    try (intros v s Hs; u_field).
  intros ls p h ra s s' _. apply u_guarded.
Qed.

Lemma u_trigger (name : string) (payload : option value) :
  returns U (trigger beh name payload).
Proof.
  apply (k_trigger beh U (fun _ => True)); auto;
    try (intros v s Hs; u_field).
  intros ls p h ra s s' _. apply u_guarded.
Qed.

Lemma u_replay (f : js) (evs : list obj) (seen : gset string) :
  returns U (replay beh f evs seen).
Proof.
  apply (k_replay beh U (fun _ => True)); auto;
    try (intros v s Hs; u_field).
  intros ls p h ra s s' _. apply u_guarded.
Qed.

Lemma u_listen (name : names) (a b i : js) :
  handler_of a b <> JUser n -> keeps U (listen beh name a b i).
Proof.
  intros Hf. unfold listen, handleError. cbv zeta. fold (handler_of a b).
  repeat k_step;
    try (apply returns_keeps, u_register; assumption);
    try (apply returns_keeps, u_replay); u_field.
Qed.

Lemma u_invoke (f : js) (a : option value) :
  f <> JUser n -> keeps U (invoke beh None f a).
Proof.
  intros Hf. destruct f; unfold invoke; repeat k_step;
    try (apply returns_keeps, (k__persist U)); try (intros v s Hs; u_field).
  all: match goal with
       | H : U ?s |- U _ =>
           destruct H as [H1 H2]; split; [exact H1 |];
           cbn [calls with_calls]; rewrite count_calls_cons; cbn [callee js_eqb]
       end.
  - destruct (Nat.eqb n0 n) eqn:E; [| exact H2].
    apply Nat.eqb_eq in E. congruence.
  - exact H2.
Qed.

Lemma handler_of_change (a b : js) :
  (if js_eqb (if js_isString b then a else b) JUndefined then a
   else if js_isString b then a else b) = handler_of a b.
Proof. unfold handler_of. destruct b; try reflexivity. now destruct a. Qed.

Lemma u_change (path : string) (a b i : js) :
  handler_of a b <> JUser n -> keeps U (change beh path a b i).
Proof.
  intros Hf. unfold change, handleError. cbv zeta. rewrite handler_of_change.
  repeat k_step;
    try (apply returns_keeps, u_register; assumption);
    try (apply u_invoke; assumption); u_field.
Qed.

Lemma u_unlisten (name : string) (f : js) : returns U (unlisten name f).
Proof.
  apply (k_unlisten U). intros name' f' s. apply u_shrink; [reflexivity |].
  intros ls p r (l' & Hl' & Hin). destruct ls; cbn [get_set] in Hl';
    try (exists l'; now split).
  change (eventListeners (with_eventListeners ?x s)) with x in Hl'.
  rewrite lookup_alter in Hl'. destruct (decide (name' = p)) as [-> |].
  - destruct (eventListeners s !! p) as [l|] eqn:E; [| discriminate].
    cbn in Hl'. injection Hl' as <-. exists l. split; [exact E |].
    now apply list_elem_of_filter in Hin as [_ Hin].
  - exists l'. now split.
Qed.

Lemma u_unpersist (path : string) : returns U (unpersist path).
Proof.
  apply (k_unpersist U); [intros v s Hs; u_field |].
  intros path' s. apply u_shrink; [reflexivity |].
  intros ls p r (l' & Hl' & Hin). destruct ls; cbn [get_set] in Hl';
    try (exists l'; now split).
  change (persistenceListeners (with_persistenceListeners ?x s)) with x in Hl'.
  apply lookup_delete_Some in Hl' as [_ Hl']. apply lookup_delete_Some in Hl' as [_ Hl'].
  exists l'. now split.
Qed.

Lemma u_run_op (o : op) : hands_in o <> Some (JUser n) -> keeps U (run_op beh o).
Proof.
  intros Ho. destruct o; unfold run_op; cbn [hands_in] in Ho.
  - k_step; [apply u_get | k_step].
  - k_step; [apply returns_keeps, u_set | k_step].
  - k_step; [apply u_erase | k_step].
  - k_step; [apply u_push | k_step].
  - unfold has. repeat k_step.
  - unfold empty. repeat k_step.
  - apply u_change. congruence.
  - apply returns_keeps, u_trigger.
  - apply u_listen. congruence.
  - apply returns_keeps, u_unlisten.
  - apply returns_keeps, u_persist.
  - apply returns_keeps, u_unpersist.
  - k_step. u_field.
Qed.

Lemma u_run (script : list op) (s : engine) :
  Forall (fun o => hands_in o <> Some (JUser n)) script -> U s -> U (run beh script s).
Proof.
  unfold run. revert s. induction script as [|o script IH]; intros s Hall Hs;
    [assumption |].
  inversion Hall as [|? ? Ho Hrest]; subst. cbn [fold_left]. apply IH; [assumption |].
  now apply (u_run_op o Ho s).
Qed.

End Unregistered.

(** A function of the page that no listener set holds a record of is not
    called by any operation, as long as no call of [listen] or [change]
    hands it in: the count of its calls stays, and it stays without a
    record. *)
Theorem unregistered_never_called (beh : oracle) (n : nat) (script : list op)
    (s : engine) :
  unregistered (JUser n) s ->
  Forall (fun o => hands_in o <> Some (JUser n)) script ->
  count_calls (JUser n) (calls (run beh script s)) = count_calls (JUser n) (calls s)
  /\ unregistered (JUser n) (run beh script s).
Proof.
  intros Hu Hall.
  destruct (u_run beh n (count_calls (JUser n) (calls s)) script s Hall) as [H1 H2];
    [now split | now split].
Qed.

(** After [unlisten(name, f)], a function whose records were all under
    that very name in the event listeners is not called any more, whatever
    is triggered or changed, until [listen] or [change] hands it in again.
    The name is compared as a text: a wildcard in it matches nothing
    else. *)
Theorem unlisten_stops_calls (beh : oracle) (n : nat) (name : string)
    (script : list op) (s : engine) :
  (forall ls p r, holds s ls p r -> handler r = JUser n -> ls = EventSet /\ p = name) ->
  Forall (fun o => hands_in o <> Some (JUser n)) script ->
  let s1 := exec (unlisten name (JUser n)) s in
  count_calls (JUser n) (calls (run beh script s1)) = count_calls (JUser n) (calls s)
  /\ unregistered (JUser n) (run beh script s1).
Proof.
  intros Honly Hall. cbv zeta.
  assert (Hu : unregistered (JUser n) (exec (unlisten name (JUser n)) s)).
  { intros ls p r (l' & Hl' & Hin) Hh.
    destruct ls; cbn [get_set exec unlisten modify snd] in Hl'.
    - destruct (Honly PropertySet p r) as [? _]; [now exists l' | assumption | discriminate].
    - destruct (Honly PersistenceSet p r) as [? _];
        [now exists l' | assumption | discriminate].
    - change (eventListeners (with_eventListeners ?x s)) with x in Hl'.
      rewrite lookup_alter in Hl'. destruct (decide (name = p)) as [<- | Hne].
      + destruct (eventListeners s !! name) as [l|]; [| discriminate].
        cbn in Hl'. injection Hl' as <-.
        apply list_elem_of_filter in Hin as [Hf _]. rewrite Hh in Hf.
        cbn in Hf. rewrite Nat.eqb_refl in Hf. discriminate.
      + destruct (Honly EventSet p r) as [_ ?]; [now exists l' | assumption | congruence]. }
  destruct (u_run beh n (count_calls (JUser n) (calls s)) script
              (exec (unlisten name (JUser n)) s) Hall) as [H1 H2];
    [now split | now split].
Qed.

Lemma unlisten_stops_calls_witness :
  let s := with_eventListeners
             (<["e" := [mkRecord 0 (JUser 1) JUndefined JUndefined false]]> ∅)
             (initial true [] 0) in
  count_calls (JUser 1) (calls (run quiet [OpTrigger "e" None] s)) = 1
  /\ count_calls (JUser 1)
       (calls (run quiet [OpTrigger "e" None] (exec (unlisten "e" (JUser 1)) s))) = 0.
Proof.
  cbv zeta. split; [vm_compute; reflexivity |].
  apply (unlisten_stops_calls quiet 1 "e" [OpTrigger "e" None]).
  - intros ls p r (l & Hl & Hin) _. destruct ls; cbn in Hl.
    + rewrite lookup_empty in Hl. discriminate.
    + rewrite lookup_empty in Hl. discriminate.
    + apply lookup_insert_Some in Hl as [[<- _] | [_ Hl]]; [now split |].
      rewrite lookup_empty in Hl. discriminate.
  - repeat constructor. discriminate.
Defined.

Lemma unregistered_never_called_witness :
  unregistered (JUser 1) (initial true [] 0)
  /\ count_calls (JUser 1)
       (calls (run quiet [OpListen (One "e") JUndefined (JUser 2) JUndefined;
                          OpSet "a" (qz 1) JUndefined None; OpTrigger "e" None]
                 (initial true [] 0))) = 0.
Proof.
  assert (H : unregistered (JUser 1) (initial true [] 0)).
  { intros ls p r (l & Hl & _). destruct ls; cbn in Hl;
      rewrite lookup_empty in Hl; discriminate. }
  split; [exact H |].
  apply (unregistered_never_called quiet 1
           [OpListen (One "e") JUndefined (JUser 2) JUndefined;
            OpSet "a" (qz 1) JUndefined None; OpTrigger "e" None]
           (initial true [] 0) H).
  repeat constructor; discriminate.
Defined.

(** ** Start-up ([restorePersistedDD]) *)

Lemma fresh_frame (t : Z) (s s' : engine) :
  calls s' = calls s -> events s' = events s -> errors s' = errors s ->
  eventListeners s' = eventListeners s -> propertyListeners s' = propertyListeners s ->
  now s' = now s -> pathsToPersist s' = pathsToPersist s ->
  fresh_engine t s -> fresh_engine t s'.
Proof.
  unfold fresh_engine. intros -> -> -> -> -> -> ->. auto.
Qed.

Lemma fresh_persist (t : Z) (path : string) :
  returns (fresh_engine t) (persist path None).
Proof.
  intros s Hs. rewrite persist_unfold_tracked. cbn [fst snd].
  split; [now exists tt |]. cbv zeta.
  set (s0 := if bool_decide _ then s else _).
  assert (H0 : fresh_engine t s0).
  { unfold s0. destruct (bool_decide _); [assumption |].
    rewrite !register_eq. cbn [snd]. revert Hs. now apply fresh_frame. }
  destruct H0 as (H1 & H2 & H3 & H4 & H5 & H6 & H7).
  repeat split; auto. cbn [pathsToPersist with_pathsToPersist isInteger].
  intros p ttl Hp. apply lookup_insert_Some in Hp as [[_ <-] | [_ Hp]];
    [reflexivity | now apply (H7 p)].
Qed.

Lemma fresh_restore_key (t : Z) (key : string) : keeps (fresh_engine t) (restore_key key).
Proof.
  unfold restore_key, removeItem, JSON_parse. repeat k_step;
    try (apply returns_keeps, fresh_persist);
    match goal with
    | H : fresh_engine t ?s |- fresh_engine t _ => revert H; now apply fresh_frame
    end.
Qed.

Lemma fresh_restore (t : Z) : keeps (fresh_engine t) restorePersistedDD.
Proof.
  unfold restorePersistedDD, storageAvailable. repeat k_step;
    try apply fresh_restore_key;
    match goal with
    | H : fresh_engine t ?s |- fresh_engine t _ => revert H; now apply fresh_frame
    end.
Qed.


(** ** Helpers outside the engine ([isEmptyObject], [getRootDomain]) *)

(** [isEmptyObject] on a value and [empty] on a path that holds the value
    agree, but for the number zero: [isEmptyObject(0)] is true, while
    [empty] is false for a stored zero. *)
Theorem isEmptyObject_spec (o : option value) :
  isEmptyObject o = empty_value o || same_json o (Some (qz 0)).
Proof.
  destruct o as [[| [|] | q | s | l | m]|]; try reflexivity.
  - unfold isEmptyObject, empty_value, falsy, qz.
    cbn [same_json value_eqb isObject isArray isString orb typeof String.eqb].
    change (Q2Qc (inject_Z 0)) with (Q2Qc 0).
    destruct (Qc_eqb q (Q2Qc 0)); cbn -[isInteger].
    + now rewrite orb_true_r.
    + now rewrite orb_false_r.
  - destruct s as [|ch s]; [reflexivity |].
    unfold isEmptyObject, empty_value. cbn -[trim]. now rewrite orb_false_r.
  - unfold isEmptyObject, empty_value. cbn. now rewrite orb_false_r.
  - unfold isEmptyObject, empty_value. cbn. now rewrite orb_false_r.
Qed.

Lemma nth_last3 {A} (pre : list A) (x y z d : A) :
  let l := pre ++ [x; y; z] in
  nth (List.length l - 1) l d = z /\ nth (List.length l - 2) l d = y
  /\ nth (List.length l - 3) l d = x.
Proof.
  cbv zeta. rewrite length_app. cbn [List.length].
  repeat split; rewrite app_nth2 by lia.
  - now replace (_ - _ - _) with 2 by lia.
  - now replace (_ - _ - _) with 1 by lia.
  - now replace (_ - _ - _) with 0 by lia.
Qed.

Lemma last3 {A} (l : list A) :
  2 < List.length l -> exists pre x y z, l = pre ++ [x; y; z].
Proof.
  intros H. destruct (rev l) as [|z [|y [|x r]]] eqn:E;
    apply (f_equal (@rev A)) in E; rewrite rev_involutive in E; subst l;
    cbn in H; try lia.
  exists (rev r), x, y, z. cbn. now rewrite <- !app_assoc.
Qed.

(** The root domain is made of the last two labels of the host name, or of
    the last three when the last two have two characters each; a host name
    of one or two labels is its own root domain; and the root domain of a
    root domain is itself. *)
Theorem getRootDomain_spec (hostname : string) :
  (List.length (split_dot hostname) <= 2 -> getRootDomain hostname = hostname)
  /\ (forall pre x y z, split_dot hostname = pre ++ [x; y; z] ->
        getRootDomain hostname
        = if (String.length z =? 2) && (String.length y =? 2)
          then join_dot [x; y; z] else join_dot [y; z])
  /\ getRootDomain (getRootDomain hostname) = getRootDomain hostname.
Proof.
  assert (H3 : forall h pre x y z, split_dot h = pre ++ [x; y; z] ->
            getRootDomain h
            = if (String.length z =? 2) && (String.length y =? 2)
              then join_dot [x; y; z] else join_dot [y; z]).
  { intros h pre x y z E. unfold getRootDomain. cbv zeta. rewrite E.
    destruct (nth_last3 pre x y z "") as (-> & -> & ->).
    replace (2 <? _) with true
      by (symmetry; apply Nat.ltb_lt; rewrite length_app; cbn; lia).
    reflexivity. }
  assert (H2 : forall h, List.length (split_dot h) <= 2 -> getRootDomain h = h).
  { intros h H. unfold getRootDomain. cbv zeta.
    replace (2 <? _) with false by (symmetry; apply Nat.ltb_ge; lia). reflexivity. }
  split; [apply H2 |]. split; [apply H3 |].
  destruct (le_lt_dec (List.length (split_dot hostname)) 2) as [Hle | Hgt].
  - now rewrite !(H2 hostname Hle).
  - destruct (last3 _ Hgt) as (pre & x & y & z & E).
    pose proof (split_dot_segments hostname) as Hall. rewrite E in Hall.
    apply Forall_app in Hall as [_ Hall].
    rewrite (H3 hostname pre x y z E).
    destruct ((String.length z =? 2) && (String.length y =? 2)) eqn:Hlen.
    + rewrite (H3 (join_dot [x; y; z]) [] x y z); [now rewrite Hlen |].
      now apply split_join.
    + apply H2. rewrite split_join; [cbn; lia | discriminate |].
      now inversion Hall.
Qed.

(** ** The wildcard suffix of a pattern ([change], change dispatch) *)

Lemma string_rev_onto_app (s acc : string) :
  string_rev_onto s acc = string_rev s +:+ acc.
Proof.
  unfold string_rev. revert acc. induction s as [|ch s IH]; intros acc; [reflexivity |].
  simpl. rewrite IH, (IH (String ch "")), append_assoc. reflexivity.
Qed.

Lemma string_rev_app (a b : string) :
  string_rev (a +:+ b) = string_rev b +:+ string_rev a.
Proof.
  induction a as [|ch a IH].
  - simpl. now rewrite append_nil_r.
  - unfold string_rev in *. simpl. rewrite !(string_rev_onto_app _ (String ch "")).
    fold (string_rev (a +:+ b)). fold (string_rev a). unfold string_rev.
    rewrite IH, append_assoc. reflexivity.
Qed.

Lemma string_rev_involutive (s : string) : string_rev (string_rev s) = s.
Proof.
  induction s as [|ch s IH]; [reflexivity |].
  unfold string_rev at 2. simpl. rewrite string_rev_onto_app, string_rev_app, IH.
  reflexivity.
Qed.

(** The value handed to a change listener is read at the pattern without
    its wildcard suffix: for the patterns [p.*] and [p.**] that is the path
    [p], whatever [p] is, and a pattern that does not end in a star is left
    as it is. *)
Theorem strip_wildcard_spec (p : string) :
  strip_wildcard (p +:+ ".*") = p
  /\ strip_wildcard (p +:+ ".**") = p
  /\ ((forall q, p <> q +:+ "*") -> strip_wildcard p = p).
Proof.
  split; [| split].
  - unfold strip_wildcard. rewrite string_rev_app. cbn.
    apply string_rev_involutive.
  - unfold strip_wildcard. rewrite string_rev_app. cbn.
    apply string_rev_involutive.
  - intros H. unfold strip_wildcard.
    destruct (string_rev p) as [|ch r] eqn:E; [reflexivity |].
    assert (Hch : ch <> "*"%char).
    { intros ->. apply (H (string_rev r)).
      rewrite <- (string_rev_involutive p), E.
      unfold string_rev at 1. simpl. now rewrite string_rev_onto_app. }
    destruct ch as [[] [] [] [] [] [] [] []]; try reflexivity.
    now destruct Hch.
Qed.

(** ** The listeners of a path, each pattern once ([getListeners]) *)

Lemma join_dot_inj (l1 l2 : list string) :
  l1 <> [] -> l2 <> [] ->
  Forall (fun x => dot_free x = true) l1 -> Forall (fun x => dot_free x = true) l2 ->
  join_dot l1 = join_dot l2 -> l1 = l2.
Proof.
  intros H1 H2 F1 F2 H. rewrite <- (split_join l1), <- (split_join l2) by assumption.
  now rewrite H.
Qed.

Lemma entry_patterns (reg : registry) (l : list string) :
  map fst (flat_map (entry reg) l) `sublist_of` l.
Proof.
  induction l as [|p l IH]; [constructor |].
  cbn [flat_map]. rewrite map_app. unfold entry at 1.
  destruct (reg !! p); cbn; [now constructor | now apply sublist_cons].
Qed.

Lemma last_snoc_ne (l : list string) (x y : string) :
  x <> y -> l ++ [x] <> l ++ [y].
Proof. intros Hne H. apply app_inv_head in H. congruence. Qed.

Lemma candidates_nodup (segs prev : list string) :
  Forall (fun x => dot_free x = true) prev ->
  Forall (fun x => dot_free x = true) segs ->
  segs <> [] -> List.last segs "" <> "*" -> List.last segs "" <> "**" ->
  NoDup (candidates prev segs).
Proof.
  revert prev. induction segs as [|cur rest IH]; intros prev Fp Fs Hne H1 H2;
    [congruence |].
  inversion Fs as [|? ? Fcur Frest]; subst.
  destruct rest as [|next rest].
  - cbn [candidates]. apply NoDup_cons. split; [| apply NoDup_singleton].
    intros Hin. apply list_elem_of_singleton in Hin.
    apply join_dot_inj in Hin;
      [| now destruct prev | now destruct prev
       | apply Forall_app; split; [assumption | now repeat constructor]
       | apply Forall_app; split; [assumption | now repeat constructor]].
    apply app_inv_head in Hin. cbn in H1. congruence.
  - change (candidates prev (cur :: next :: rest))
      with (join_dot (prev ++ [cur; "**"]) :: candidates (prev ++ [cur]) (next :: rest)).
    assert (Fp' : Forall (fun x => dot_free x = true) (prev ++ [cur])).
    { apply Forall_app. split; [assumption | now repeat constructor]. }
    apply NoDup_cons. split.
    2:{ apply IH; auto; discriminate. }
    intros Hin. apply list_elem_of_In, candidates_in in Hin; [| discriminate].
    assert (Fstar : forall l, Forall (fun x => dot_free x = true) l ->
              Forall (fun x => dot_free x = true) ((prev ++ [cur]) ++ l)).
    { intros l Fl. apply Forall_app. now split. }
    replace (prev ++ [cur; "**"]) with ((prev ++ [cur]) ++ ["**"]) in Hin
      by now rewrite <- app_assoc.
    destruct Hin as [(a & b & Hab & Ha & Hb & Hin) | [Hin | Hin]];
      apply join_dot_inj in Hin; try (now destruct prev);
      try (apply Fstar; now repeat constructor).
    + apply app_inv_head in Hin. destruct a as [|x [|y a]]; [congruence | |];
        discriminate.
    + apply Fstar, Forall_app. split; [| now repeat constructor].
      rewrite Hab in Frest. now apply Forall_app in Frest as [Fa _].
    + apply app_inv_head in Hin.
      destruct (removelast (next :: rest)) as [|x [|y l]]; discriminate.
    + apply Fstar, Forall_app. split; [| now repeat constructor].
      rewrite (app_removelast_last "" (l := next :: rest)) in Frest by discriminate.
      now apply Forall_app in Frest as [Fa _].
    + apply app_inv_head in Hin. rewrite <- Hin in H2. now cbn in H2.
    + now apply Fstar.
Qed.

(** For a path whose last segment is neither [*] nor [**], [getListeners]
    returns every pattern at most once, so that one walk over its result
    visits every record at most once. *)
Theorem getListeners_distinct (path : string) (reg : registry) :
  List.last (split_dot path) "" <> "*" ->
  List.last (split_dot path) "" <> "**" ->
  NoDup (map fst (getListeners path reg)).
Proof.
  intros H1 H2. unfold getListeners. rewrite getListeners_from_candidates.
  rewrite map_rev.
  apply (proj1 (NoDup_Permutation_proper _ _ (Permutation_rev _))).
  apply (sublist_NoDup _ ("**" :: candidates [] (split_dot path)));
    [| apply (entry_patterns reg ("**" :: candidates [] (split_dot path)))].
  pose proof (split_dot_segments path) as Fs.
  pose proof (split_dot_nonempty path) as Hne.
  apply NoDup_cons. split; [| now apply candidates_nodup].
  intros Hin. apply list_elem_of_In, candidates_in in Hin; [| assumption].
  change "**" with (join_dot ["**"]) in Hin. cbn [app] in Hin.
  destruct Hin as [(a & b & Hab & Ha & Hb & Hin) | [Hin | Hin]];
    apply join_dot_inj in Hin; try discriminate; try (now repeat constructor).
  - destruct a as [|x [|y a]]; [congruence | |]; discriminate.
  - now destruct a.
  - apply Forall_app. split; [| now repeat constructor].
    rewrite Hab in Fs. now apply Forall_app in Fs as [Fa _].
  - destruct (removelast (split_dot path)) as [|x [|y l]]; discriminate.
  - now destruct (removelast (split_dot path)).
  - apply Forall_app. split; [| now repeat constructor].
    rewrite (app_removelast_last "" Hne) in Fs. now apply Forall_app in Fs as [Fa _].
  - rewrite <- Hin in H2. now cbn in H2.
Qed.

(* The condition on the last segment is needed: for the name [**] itself
   the pattern [**] comes twice. *)
Lemma getListeners_distinct_witness :
  let reg : registry :=
    <["a.**" := [mkRecord 0 (JUser 0) JUndefined JUndefined false]]>
      (<["**" := [mkRecord 1 (JUser 1) JUndefined JUndefined false]]> ∅) in
  NoDup (map fst (getListeners "a.b.c" reg))
  /\ map fst (getListeners "**" reg) = ["**"; "**"].
Proof.
  cbv zeta. split; [| vm_compute; reflexivity].
  apply getListeners_distinct; vm_compute; discriminate.
Defined.

(** ** Parameters of a URL ([getParam], [getUrlParam], [getRefParam]) *)

Lemma prefix_app (a b : string) : String.prefix a (a +:+ b) = true.
Proof.
  induction a as [|c a IH]; [now destruct b |]. simpl.
  destruct (ascii_dec c c); [exact IH | contradiction].
Qed.

Lemma string_drop_app (a b : string) : string_drop (String.length a) (a +:+ b) = b.
Proof. induction a as [|c a IH]; [now destruct b | exact IH]. Qed.

Lemma value_run_no_sep (s : string) :
  forallb (fun c => negb (is_sep c)) (list_ascii_of_string (value_run s)) = true.
Proof.
  induction s as [|c s IH]; [reflexivity |]. simpl.
  destruct (is_sep c) eqn:E; [reflexivity |]. simpl. now rewrite E.
Qed.

Lemma value_run_app (v tail : string) :
  forallb (fun c => negb (is_sep c)) (list_ascii_of_string v) = true ->
  value_run tail = "" ->
  value_run (v +:+ tail) = v.
Proof.
  intros Hv Ht. induction v as [|c v IH]; [exact Ht |].
  simpl in Hv. apply andb_prop in Hv as [Hc Hv]. apply negb_true_iff in Hc.
  simpl. rewrite Hc. now rewrite IH.
Qed.

Lemma exec_param_skip (base rest needle : string) :
  forallb (fun c => negb (Ascii.eqb c "?"%char || Ascii.eqb c "&"%char))
    (list_ascii_of_string base) = true ->
  exec_param (base +:+ rest) needle = exec_param rest needle.
Proof.
  induction base as [|c base IH]; [reflexivity |]. simpl. intros H.
  apply andb_prop in H as [Hc H]. apply negb_true_iff in Hc. rewrite Hc. now apply IH.
Qed.

(** [getParam] on a name of plain characters: an empty name gives the empty
    string; the value found holds no [&] and no [#]; and in a text made of
    a part without [?] and [&], then [?], the name, [=], a value without
    [&] and [#], and a rest that is empty or begins with [&] or [#], it
    finds that value. *)
Theorem getParam_spec (name : string) :
  plain name = true ->
  (forall source, getParam source "" = Some "")
  /\ (forall source, exists v,
        getParam source name = Some v
        /\ forallb (fun c => negb (is_sep c)) (list_ascii_of_string v) = true)
  /\ (forall base v rest,
        name <> "" ->
        forallb (fun c => negb (Ascii.eqb c "?"%char || Ascii.eqb c "&"%char))
          (list_ascii_of_string base) = true ->
        forallb (fun c => negb (is_sep c)) (list_ascii_of_string v) = true ->
        value_run rest = "" ->
        getParam (base +:+ "?" +:+ name +:+ "=" +:+ v +:+ rest) name = Some v).
Proof.
  intros Hplain. split; [reflexivity |]. split.
  - intros source. unfold getParam. destruct (String.eqb name ""); [now exists "" |].
    rewrite Hplain. eexists. split; [reflexivity |].
    destruct (exec_param source (name +:+ "=")) as [found|] eqn:E; [| reflexivity].
    clear Hplain. revert E. generalize (name +:+ "="). intros needle.
    induction source as [|c source IH]; [discriminate |]. simpl.
    destruct (_ && _); [| exact IH]. intros H. injection H as <-.
    apply value_run_no_sep.
  - intros base v rest Hne Hbase Hv Hrest. unfold getParam.
    apply String.eqb_neq in Hne. rewrite Hne, Hplain.
    rewrite exec_param_skip by assumption.
    change ("?" +:+ name +:+ "=" +:+ v +:+ rest)
      with (String "?" (name +:+ "=" +:+ v +:+ rest)).
    cbn [exec_param]. rewrite <- (append_assoc name "=" (v +:+ rest)).
    rewrite prefix_app, string_drop_app. cbn.
    now rewrite value_run_app.
Qed.

Lemma getParam_spec_witness :
  plain "userid" = true
  /\ getParam "http://shop.example/cart?userid=123&product=tv#top" "userid" = Some "123".
Proof.
  split; [reflexivity |].
  destruct (getParam_spec "userid" eq_refl) as (_ & _ & H).
  apply (H "http://shop.example/cart" "123" "&product=tv#top");
    [discriminate | reflexivity | reflexivity | reflexivity].
Defined.

(** ** Writing a persisted path to the storage ([set] with [persist]) *)

Lemma wf_put (d : obj) (k : string) (x : value) :
  wf (VMap d) -> wf x -> wf (VMap (put d k x)).
Proof.
  rewrite !wf_object. intros [Hnd Hall] Hx.
  destruct (own d k) as [c|] eqn:E.
  - revert Hnd Hall E. induction d as [|[k' v'] d IH]; [discriminate |].
    intros Hnd Hall E. cbn [own] in E. cbn [put].
    apply NoDup_cons in Hnd as [Hk' Hnd]. inversion Hall as [|? ? Hv' Hd]; subst.
    destruct (String.eqb k' k) eqn:Ek.
    + split; [now apply NoDup_cons | now constructor].
    + destruct (IH Hnd Hd E) as [H1 H2]. split.
      * cbn [map fst]. apply NoDup_cons. split; [| assumption].
        intros Hin. apply Hk'. clear -Hin Ek.
        induction d as [|[k0 v0] d IHd]; cbn in *.
        -- apply list_elem_of_singleton in Hin. subst k'.
           now rewrite String.eqb_refl in Ek.
        -- destruct (String.eqb k0 k) eqn:E0; cbn in Hin; [assumption |].
           apply elem_of_cons in Hin as [-> | Hin]; [now left | right; auto].
      * now constructor.
  - rewrite put_absent by assumption. split.
    + rewrite map_app. cbn. apply NoDup_app. split; [assumption |].
      split; [| apply NoDup_singleton].
      intros y Hy Hy'. apply list_elem_of_singleton in Hy'. subst y.
      clear -Hy E. induction d as [|[k0 v0] d IHd]; [now apply elem_of_nil in Hy |].
      cbn in *. destruct (String.eqb k0 k) eqn:E0; [discriminate |].
      apply elem_of_cons in Hy as [-> | Hy]; [now rewrite String.eqb_refl in E0 | auto].
    + apply Forall_app. split; [assumption | now repeat constructor].
Qed.

Lemma wf_own (d : obj) (k : string) (c : value) :
  wf (VMap d) -> own d k = Some c -> wf c.
Proof.
  rewrite wf_object. intros [Hnd Hall] E.
  apply (own_in_nodup d k c Hnd) in E.
  now apply (proj1 (Forall_forall _ _) Hall (k, c)), list_elem_of_In.
Qed.

Lemma wf_merge (v : value) :
  wf v -> forall m, v = VMap m -> forall d, wf (VMap d) -> wf (VMap (mergeObjects d m)).
Proof.
  induction v as [| | | | |m0 IH] using value_ind_nested; try discriminate.
  intros Hwf m Hm. injection Hm as <-. apply wf_object in Hwf as [_ Hwf].
  intros d. rewrite mergeObjects_props. revert d.
  induction m0 as [|[k v] m0 IHm]; intros d Hd; [assumption |].
  cbn [merge_props]. inversion IH as [|? ? Hv IH']; subst.
  inversion Hwf as [|? ? Hwv Hwf']; subst. cbn [snd] in Hv, Hwv.
  apply IHm; [assumption | assumption |].
  apply wf_put; [assumption |].
  destruct v as [| | | | |vm]; try assumption.
  cbn [merged_value]. apply (Hv Hwv vm eq_refl).
  destruct (own d k) as [[| | | | |dm]|] eqn:E; try (cbn; split; [constructor | exact I]).
  now apply (wf_own d k).
Qed.

Lemma wf_empty_object : wf (VMap []).
Proof. cbn. split; [constructor | exact I]. Qed.

Lemma wf_set_at (segs : list string) (v : value) (d : obj) :
  wf (VMap d) -> wf v -> wf (VMap (set_at segs v d)).
Proof.
  intros Hd Hv. revert d Hd. induction segs as [|cur rest IH]; intros d Hd; [assumption |].
  destruct rest as [|next rest].
  - cbn [set_at].
    destruct (own d cur) as [[| | | | |pm]|] eqn:E; try (now apply wf_put).
    destruct v as [| | | | |vm]; try (now apply wf_put).
    apply wf_put; [assumption |].
    apply (wf_merge (VMap vm) Hv vm eq_refl). now apply (wf_own d cur).
  - rewrite set_at_cons by discriminate.
    destruct (own d cur) as [[| | | | |pm]|] eqn:E;
      try (apply wf_put; [assumption | apply IH, wf_empty_object]).
    apply wf_put; [assumption |]. apply IH. now apply (wf_own d cur).
Qed.

Lemma merged_value_stored (old : option value) (v : value) :
  wf v -> merged_value old v = stored old v.
Proof.
  intros Hv. destruct v as [| | | | |vm]; try (now destruct old as [[]|]).
  destruct old as [[| | | | |pm]|]; try reflexivity;
    cbn [merged_value stored]; f_equal;
    now apply (proj2 (merge_laws (VMap vm) Hv vm eq_refl) []).
Qed.

Lemma merge_props_changed (l d : obj) :
  merge_props l d <> d ->
  exists k v, In (k, v) l /\ put d k (merged_value (own d k) v) <> d.
Proof.
  revert d. induction l as [|[k v] l IH]; intros d H; [now destruct H |].
  cbn [merge_props] in H.
  destruct (value_eqb (VMap (put d k (merged_value (own d k) v))) (VMap d)) eqn:E.
  - apply value_eqb_eq in E. injection E as E. rewrite E in H.
    destruct (IH d H) as (k' & v' & Hin & Hne). exists k', v'. split; [now right | assumption].
  - exists k, v. split; [now left |]. intros Heq. rewrite Heq in E.
    assert (Ht : value_eqb (VMap d) (VMap d) = true) by now apply value_eqb_eq.
    congruence.
Qed.

(** Where [setObjectAtPath] changes what a node holds, one of the two
    walks of the diff finds a difference at the node or below it. *)
Lemma stored_differs (v : value) :
  wf v ->
  forall x : option value,
    x <> Some (stored x v) ->
    exists more,
      differs_from x (stored x v) more
      \/ exists xv, x = Some xv /\ differs_from (Some (stored x v)) xv more.
Proof.
  induction v as [| b | q | str | l _ | vm IH] using value_ind_nested; intros Hwf x Hx;
    try (exists []; left; unfold differs_from; cbn [node_at];
         destruct x as [[]|]; cbn in *; congruence).
  destruct x as [xv|].
  2:{ exists []. left. reflexivity. }
  destruct xv as [| b | q | str | l | pm];
    try (exists []; right; eexists; split; [reflexivity |];
         unfold differs_from; cbn; congruence).
  cbn [stored] in *.
  assert (Hm : merge_props vm pm <> pm).
  { intros H. apply Hx. now rewrite mergeObjects_props, H. }
  apply merge_props_changed in Hm as (k & vk & Hin & Hne).
  pose proof Hwf as Hwf'. apply wf_object in Hwf' as [Hnd Hall].
  assert (Hwk : wf vk).
  { now apply (proj1 (Forall_forall _ _) Hall (k, vk)), list_elem_of_In. }
  assert (Hown : own vm k = Some vk) by now apply own_in_nodup.
  rewrite merged_value_stored in Hne by assumption.
  assert (Hxk : own pm k <> Some (stored (own pm k) vk)).
  { intros H. apply Hne. now apply put_same. }
  assert (Hnew : own (mergeObjects pm vm) k = Some (stored (own pm k) vk)).
  { rewrite mergeObjects_props, merge_props_own, Hown by assumption.
    now rewrite merged_value_stored. }
  destruct (proj1 (Forall_forall _ _) IH (k, vk) (proj2 (list_elem_of_In _ _) Hin)
              Hwk (own pm k) Hxk) as (more & [Hd | (c & Hc & Hd)]).
  - exists (k :: more). left. apply differs_from_cons. eauto.
  - exists (k :: more). right. eexists. split; [reflexivity |].
    apply differs_from_cons. exists c. split; [assumption |].
    cbn [child]. now rewrite Hnew.
Qed.

Lemma node_at_app (a : value) (segs more : list string) :
  node_at a (segs ++ more) = node_at a segs ≫= fun n => node_at n more.
Proof.
  revert a. induction segs as [|k segs IH]; intros a; [reflexivity |].
  cbn [app node_at]. destruct a as [| | | | |m]; try reflexivity.
  destruct (own m k); [apply IH | reflexivity].
Qed.

(** After [setObjectAtPath] has changed what the path holds, the diff of
    the tree before and after names the path or a path below it. *)
Lemma set_at_difference (segs : list string) (v : value) (d : obj) :
  segs <> [] -> wf (VMap d) -> wf v ->
  node_at (VMap d) segs <> Some (stored (node_at (VMap d) segs) v) ->
  exists more, In (join_dot (segs ++ more)) (getDifferences d (set_at segs v d)).
Proof.
  intros Hne Hd Hv Hx.
  destruct (stored_differs v Hv _ Hx) as (more & H).
  exists more. unfold getDifferences.
  destruct (uniq_from_spec
              (rev (_getDifferences (Some (VMap d)) (VMap (set_at segs v d)) [] [] ++
                    _getDifferences (Some (VMap (set_at segs v d))) (VMap d) [] []))
              ∅ []) as [_ Hin].
  { intros x. rewrite elem_of_empty. simpl. tauto. }
  { apply NoDup_nil_2. }
  apply Hin. right. rewrite <- in_rev, in_app_iff.
  assert (Hks : segs ++ more <> []) by (destruct segs; [congruence | discriminate]).
  destruct H as [H | (xv & Hxv & H)]; [left | right].
  - apply (_getDifferences_in _ (wf_set_at segs v d Hd Hv)). right.
    exists (segs ++ more). split; [assumption |]. split; [reflexivity |].
    unfold differs_from in *. cbn [mbind option_bind].
    rewrite !node_at_app, node_at_set_at by assumption. exact H.
  - apply (_getDifferences_in _ Hd). right.
    exists (segs ++ more). split; [assumption |]. split; [reflexivity |].
    unfold differs_from in *. cbn [mbind option_bind] in *.
    rewrite !node_at_app, node_at_set_at by assumption.
    rewrite Hxv in *. exact H.
Qed.

(** Writing at a path what the path holds already leaves the tree as it
    is. *)
Lemma set_at_fixed (segs : list string) (v : value) (d : obj) :
  segs <> [] ->
  node_at (VMap d) segs = Some (stored (node_at (VMap d) segs) v) ->
  set_at segs v d = d.
Proof.
  revert d. induction segs as [|cur rest IH]; [congruence |]. intros d _ Hn.
  destruct rest as [|next rest].
  - rewrite node_at_key in Hn. cbn [set_at].
    destruct (own d cur) as [[| | | | |pm]|] eqn:E; try discriminate;
      try (cbn [stored] in Hn; apply put_same; congruence).
    destruct v as [| | | | |vm]; cbn [stored] in Hn; apply put_same; congruence.
  - rewrite set_at_cons by discriminate.
    change (node_at (VMap d) (cur :: next :: rest))
      with (match own d cur with
            | Some c => node_at c (next :: rest)
            | None => None
            end) in Hn.
    destruct (own d cur) as [[| | | | |pm]|] eqn:E; try discriminate.
    rewrite IH by (assumption || discriminate). now apply put_same.
Qed.

Lemma isInteger_qz (z : Z) : isInteger (Some (qz z)) = true.
Proof. apply isInteger_iff. now exists z. Qed.

Lemma int_of_qz (z : Z) : int_of (Some (qz z)) = z.
Proof.
  unfold int_of, qz.
  change (this (Q2Qc (inject_Z z))) with (Qred (inject_Z z)).
  rewrite (Qfloor_comp _ _ (Qred_correct (inject_Z z))). apply Qfloor_Z.
Qed.

Lemma strip_wildcard_deep (p : string) : strip_wildcard (p +:+ ".**") = p.
Proof.
  unfold strip_wildcard. rewrite string_rev_app. cbn. apply string_rev_involutive.
Qed.

Lemma del_put_ne {A} (m : list (string * A)) (k k' : string) (v : A) :
  k <> k' -> del (put m k v) k' = put (del m k') k v.
Proof.
  intros Hne. induction m as [|[k0 v0] m IH]; cbn.
  - apply String.eqb_neq in Hne. now rewrite Hne.
  - destruct (String.eqb k0 k) eqn:E; cbn.
    + apply String.eqb_eq in E. subst k0.
      apply String.eqb_neq in Hne. rewrite Hne. cbn. now rewrite String.eqb_refl.
    + destruct (String.eqb k0 k') eqn:E'; cbn; [exact IH |]. now rewrite E, IH.
Qed.

Lemma del_del {A} (m : list (string * A)) (k : string) : del (del m k) k = del m k.
Proof.
  induction m as [|[k0 v0] m IH]; [reflexivity |]. cbn.
  destruct (String.eqb k0 k) eqn:E; [exact IH |]. cbn. now rewrite E, IH.
Qed.

Lemma written_again (path : string) (w : value) (expiry : Z) (st : list (string * cell)) :
  written path w expiry (written path w expiry st) = written path w expiry st.
Proof.
  unfold written.
  assert (H1 : storagePrefix +:+ path <> "__storage_test__") by (cbn; discriminate).
  assert (H2 : storageExpirationPrefix +:+ path <> "__storage_test__")
    by (cbn; discriminate).
  pose proof (storage_keys_apart path) as H3.
  rewrite !del_put_ne, del_del by assumption.
  rewrite (put_same (put (put _ _ _) _ _) (storagePrefix +:+ path)).
  - apply put_same, own_put_eq.
  - rewrite own_put_ne by congruence. apply own_put_eq.
Qed.

Section Written.

Variable beh : oracle.
Variable path : string.
Variable w : value.
Variable t : Z.
Variables r1 r2 : record.
Variable D : obj.
Variable T : Z.
Variable PL : registry.
Variable st0 : list (string * cell).

Hypothesis r1_writer : handler r1 = JWriter path.
Hypothesis r2_writer : handler r2 = JWriter path.
Hypothesis r1_once : once r1 = false.
Hypothesis r2_once : once r2 = false.
Hypothesis t_positive : (0 < t)%Z.
Hypothesis path_plain : strip_wildcard path = path.
Hypothesis D_path : getObjectAtPath D path (Some (VMap D)) = Ret (Some w).

Let REG : registry := <[path +:+ ".**" := [r2]]> (<[path := [r1]]> ∅).
Let W := written path w (T + t * 60000).

Let J (s : engine) : Prop :=
  dd s = D /\ persistenceListeners s = REG /\ propertyListeners s = PL
  /\ pathsToPersist s !! path = Some t /\ storage_ok s = true /\ now s = T.

Let Inv (acc : gset string * list js) (s : engine) : Prop :=
  J s /\ storage s = if decide (fst acc = ∅) then st0 else W st0.

Lemma deep_pattern_apart : path <> path +:+ ".**".
Proof.
  intros H. apply (f_equal String.length) in H. rewrite append_length in H.
  cbn in H. lia.
Qed.

Lemma writer_record (p : string) (s : engine) :
  J s -> p = path \/ p = path +:+ ".**" ->
  exists r, get_set PersistenceSet s !! p = Some [r]
            /\ handler r = JWriter path /\ once r = false.
Proof.
  intros (_ & Hreg & _) Hp. cbn [get_set]. rewrite Hreg. subst REG.
  destruct Hp as [-> | ->].
  - exists r1. rewrite lookup_insert_ne by (intros H; now apply deep_pattern_apart).
    now rewrite lookup_insert_eq.
  - exists r2. now rewrite lookup_insert_eq.
Qed.

Lemma writer_call (p : string) (fs : list js) (s : engine) :
  J s -> p = path \/ p = path +:+ ".**" ->
  exists s', invoke_change_handler beh PersistenceSet p fs 0 s
             = (Ret (fs ++ [JWriter path]), s')
             /\ J s' /\ storage s' = W (storage s).
Proof.
  intros HJ Hp. pose proof (writer_record p s HJ Hp) as (r & Hrec & Hh & Ho).
  destruct HJ as (Hd & Hreg & Hpl & Htr & Hok & Hnow).
  assert (Hstrip : strip_wildcard p = path).
  { destruct Hp as [-> | ->]; [exact path_plain | apply strip_wildcard_deep]. }
  unfold invoke_change_handler, guarded_call, bind, gets, try_catch, record_at.
  rewrite Hrec. cbn [fst snd default from_option Datatypes.id lookup list_lookup].
  rewrite Ho, Hstrip, Hd, D_path, Hh. unfold lift, invoke, bind, modify, gets.
  cbn [fst snd pathsToPersist with_calls]. rewrite Htr, persist_unfold.
  cbn [storage_ok with_calls fmap option_fmap option_map now storage].
  rewrite Hok, isInteger_qz, int_of_qz, Hnow.
  replace (T <? T + t * 60000)%Z with true by (symmetry; apply Z.ltb_lt; lia).
  cbn [ret when fst snd get_set persistenceListeners with_storage with_calls].
  cbn [get_set] in Hrec. rewrite Hrec.
  cbn [default from_option Datatypes.id lookup list_lookup]. rewrite Hh.
  eexists. split; [reflexivity |]. split; [| reflexivity].
  unfold J. cbn. auto 10.
Qed.

Lemma writer_listener (acc : gset string * list js) (l : string * list record)
    (s : engine) :
  Inv acc s -> fst l = path \/ fst l = path +:+ ".**" ->
  exists acc' s',
    invoke_change_listener beh PersistenceSet acc l s = (Ret acc', s')
    /\ Inv acc' s' /\ fst acc' <> ∅.
Proof.
  intros [HJ Hst] Hp. unfold invoke_change_listener.
  destruct (decide (fst l ∈ fst acc)) as [Hin | Hnot].
  - exists acc, s. split; [reflexivity |]. split; [now split |].
    intros H. rewrite H in Hin. exact (not_elem_of_empty _ Hin).
  - pose proof (writer_record (fst l) s HJ Hp) as (r & Hrec & _).
    unfold bind, gets, handlers_length. rewrite Hrec.
    cbn [default from_option Datatypes.id List.length seq fold_m].
    unfold bind at 1.
    pose proof (writer_call (fst l) (snd acc) s HJ Hp) as (s' & E & HJ' & Hst'). rewrite E.
    cbn [ret fst snd]. eexists _, _. split; [reflexivity |].
    assert (Hne : {[fst l]} ∪ fst acc <> (∅ : gset string)).
    { intros H. apply (not_elem_of_empty (C := gset string) (fst l)).
      rewrite <- H. now apply elem_of_union_l, elem_of_singleton. }
    split; [| exact Hne]. split; [assumption |]. cbn [fst].
    destruct (decide ({[fst l]} ∪ fst acc = ∅)) as [E' | _]; [contradiction |].
    rewrite Hst', Hst. destruct (decide (fst acc = ∅)); [reflexivity |].
    apply written_again.
Qed.

Lemma writer_listeners (ls : list (string * list record)) :
  Forall (fun l => fst l = path \/ fst l = path +:+ ".**") ls ->
  forall acc s,
    Inv acc s ->
    exists acc' s',
      fold_m (invoke_change_listener beh PersistenceSet) ls acc s = (Ret acc', s')
      /\ Inv acc' s' /\ (fst acc <> ∅ \/ ls <> [] -> fst acc' <> ∅).
Proof.
  induction 1 as [|l ls Hl _ IH]; intros acc s HI.
  - exists acc, s. split; [reflexivity |]. split; [assumption |]. intros [H | H]; congruence.
  - cbn [fold_m]. unfold bind.
    destruct (writer_listener acc l s HI Hl) as (acc1 & s1 & -> & HI1 & Hne1).
    destruct (IH acc1 s1 HI1) as (acc2 & s2 & E & HI2 & Hne2).
    exists acc2, s2. split; [exact E |]. split; [assumption |]. intros _. apply Hne2. now left.
Qed.

Lemma writer_patterns (d : string) :
  Forall (fun l : string * list record => fst l = path \/ fst l = path +:+ ".**")
    (getListeners d REG).
Proof.
  apply Forall_forall. intros [pat hs] Hin. apply list_elem_of_In, getListeners_in in Hin as [Hreg _].
  cbn [fst]. subst REG.
  rewrite lookup_insert in Hreg. destruct (decide (path +:+ ".**" = pat)); [now right |].
  rewrite lookup_insert in Hreg. destruct (decide (path = pat)); [now left |].
  now rewrite lookup_empty in Hreg.
Qed.

Lemma writer_differences (ds : list string) :
  forall acc s,
    Inv acc s ->
    exists acc' s',
      fold_m (fun acc d =>
                listeners <- gets (fun s => getListeners d (get_set PersistenceSet s)) ;;
                fold_m (invoke_change_listener beh PersistenceSet) listeners acc)
        ds acc s = (Ret acc', s')
      /\ Inv acc' s'
      /\ (fst acc <> ∅ \/ (exists d, In d ds /\ getListeners d REG <> []) -> fst acc' <> ∅).
Proof.
  induction ds as [|d ds IH]; intros acc s HI.
  - exists acc, s. split; [reflexivity |]. split; [assumption |].
    intros [H | (d & [] & _)]. exact H.
  - cbn [fold_m]. unfold bind at 1. unfold bind at 1, gets at 1. cbn [fst snd get_set].
    destruct HI as [HJ Hst]. pose proof HJ as (_ & Hreg & _). rewrite Hreg.
    destruct (writer_listeners _ (writer_patterns d) acc s (conj HJ Hst))
      as (acc1 & s1 & -> & HI1 & Hne1).
    destruct (IH acc1 s1 HI1) as (acc2 & s2 & E & HI2 & Hne2).
    exists acc2, s2. split; [exact E |]. split; [assumption |].
    intros [H | (d' & [<- | Hin] & Hd')].
    + apply Hne2. left. apply Hne1. now left.
    + apply Hne2. left. apply Hne1. now right.
    + apply Hne2. right. now exists d'.
Qed.


Lemma writer_matches (more : list string) :
  getListeners (join_dot (split_dot path ++ more)) REG <> [].
Proof.
  assert (H : exists e, In e (getListeners (join_dot (split_dot path ++ more)) REG)).
  2:{ destruct H as [e He]. intros E. now rewrite E in He. }
  pose proof (split_dot_nonempty path) as Hne. subst REG.
  destruct more as [|k more].
  - rewrite app_nil_r, join_split. exists (path, [r1]). apply getListeners_in. split.
    + rewrite lookup_insert_ne by (intros H; now apply deep_pattern_apart).
      apply lookup_insert_eq.
    + right. apply candidates_in; [assumption |]. right. right.
      cbn [app]. now rewrite join_split.
  - rewrite join_dot_app, join_split by (assumption || discriminate).
    exists (path +:+ ".**", [r2]). apply getListeners_in. split.
    + apply lookup_insert_eq.
    + right. rewrite split_dot_app. apply candidates_in.
      { pose proof (split_dot_nonempty path). destruct (split_dot path); [congruence | discriminate]. }
      left. exists (split_dot path), (split_dot (join_dot (k :: more))).
      split; [reflexivity |]. split; [assumption |]. split; [apply split_dot_nonempty |].
      cbn [app]. rewrite join_dot_app, join_split by (assumption || discriminate).
      reflexivity.
Qed.

Lemma writer_dispatch (P : obj) (s : engine) :
  J s -> prev_dd s = P -> storage s = st0 ->
  exists fs s',
    invokeChangeListenersForListenerSet beh PersistenceSet s = (Ret fs, s')
    /\ J s'
    /\ ((exists more, In (join_dot (split_dot path ++ more)) (getDifferences P D)) ->
        storage s' = W st0).
Proof.
  intros HJ HP Hst. unfold invokeChangeListenersForListenerSet.
  unfold bind at 1, gets at 1. unfold bind at 1, gets at 1. cbn [fst snd].
  pose proof HJ as (Hd & _). rewrite HP, Hd. unfold bind at 1.
  destruct (writer_differences (rev (getDifferences P D)) (∅, []) s) as (acc & s' & E & [HJ' Hst'] & Hne).
  { split; [assumption |]. cbn [fst]. now destruct (decide (∅ = ∅)). }
  rewrite E. cbn [ret]. eexists _, _. split; [reflexivity |]. split; [assumption |].
  intros (more & Hin). rewrite Hst'.
  destruct (decide (fst acc = ∅)) as [Hempty | _]; [| reflexivity].
  exfalso. apply Hne; [| assumption]. right.
  exists (join_dot (split_dot path ++ more)). split; [now apply in_rev in Hin |].
  apply writer_matches.
Qed.

End Written.

(** The same function can be registered as a change listener only by the
    page; the writers of the storage are registered by [persist] alone, in
    the persistence listeners. Change dispatch over listeners that hold no
    writer leaves the storage as it is. *)
Section Unwritten.

Variable beh : oracle.
Variable st : list (string * cell).

Let I (s : engine) : Prop :=
  storage s = st
  /\ forall p r q, holds s PropertySet p r -> handler r <> JWriter q.

Lemma unwritten_guarded_call (p : string) (h : nat) (arg : M (option value))
    (name : string) :
  reads arg -> returns I (guarded_call beh PropertySet p h arg name).
Proof.
  intros Harg s [Hst Hw].
  destruct (guarded_call_effect beh PropertySet p h arg name s Harg) as (s' & E & Heff).
  rewrite E. cbn [fst snd]. split; [now exists tt |]. split.
  - rewrite <- Hst. clear Heff. revert E.
    unfold guarded_call, bind, gets, try_catch.
    destruct (record_at PropertySet p h s) as [r|] eqn:Hr; [| now intros [= <-]].
    destruct (once r); [now intros [= <-] |].
    specialize (Harg s). destruct (arg s) as [[a|] s0]; cbn [fst snd] in *; subst s0;
      [| now intros [= <-]].
    pose proof (Hw p r) as Hnot. specialize (fun q => Hnot q (holds_record_at s _ _ _ _ Hr)).
    unfold invoke, bind, modify, gets, throw.
    destruct (handler r) as [| b | str | strs | n | wpath]; try (now intros [= <-]).
    + cbn [calls with_calls fst snd].
      destruct (beh _); cbn [ret when mark_once modify handleError]; now intros [= <-].
    + now destruct (Hnot wpath).
  - intros p0 r0 q (l & Hl & Hin).
    assert (Hsame : forall r, r ∈ l -> exists l' r', propertyListeners s !! p0 = Some l'
                                               /\ r' ∈ l' /\ handler r = handler r').
    { cbn [get_set] in Hl.
      destruct Heff as [-> _ | r _ _ _ _ Hreg _ | r a _ _ _ _ _ _ Hreg].
      - intros r Hr. exists l, r. auto.
      - cbn [get_set] in Hreg. rewrite Hreg in Hl. intros r' Hr'. exists l, r'. auto.
      - cbn [get_set] in Hreg. rewrite Hreg in Hl.
        destruct (user_fn (handler r) && _); [| intros r' Hr'; exists l, r'; auto].
        rewrite lookup_alter in Hl. destruct (decide (p = p0)) as [<- |];
          [| intros r' Hr'; exists l, r'; auto].
        destruct (propertyListeners s !! p) as [l0|] eqn:El; [| discriminate].
        cbn in Hl. injection Hl as <-. intros r' Hr'.
        apply alter_elem in Hr' as [Hr' | (y & Hy & ->)]; [exists l0, r' | exists l0, y]; auto. }
    destruct (Hsame r0 Hin) as (l' & r' & Hl' & Hin' & ->).
    apply (Hw p0 r' q). now exists l'.
Qed.

Lemma unwritten_dispatch :
  returns I (invokeChangeListenersForListenerSet beh PropertySet).
Proof.
  unfold invokeChangeListenersForListenerSet, invoke_change_listener,
    invoke_change_handler.
  repeat (k_step || (apply unwritten_guarded_call; apply reads_lookup)).
Qed.

End Unwritten.

Lemma strip_wildcard_plain (p : string) :
  (forall q, p <> q +:+ "*") -> strip_wildcard p = p.
Proof.
  intros H. unfold strip_wildcard.
  destruct (string_rev p) as [|ch r] eqn:E; [reflexivity |].
  assert (Hch : ch <> "*"%char).
  { intros ->. apply (H (string_rev r)).
    rewrite <- (string_rev_involutive p), E.
    unfold string_rev at 1. simpl. now rewrite string_rev_onto_app. }
  destruct ch as [[] [] [] [] [] [] [] []]; try reflexivity.
  now destruct Hch.
Qed.




(** ** Start-up after a write ([restorePersistedDD]) *)

Lemma parseInt_qz (z : Z) : parseInt_cell (CJson (qz z)) = Some z.
Proof.
  unfold parseInt_cell, qz.
  change (this (Q2Qc (inject_Z z))) with (Qred (inject_Z z)).
  rewrite (Qfloor_comp _ _ (Qred_correct (inject_Z z))), Qfloor_Z.
  rewrite (Qceiling_comp _ _ (Qred_correct (inject_Z z))), Qceiling_Z.
  now destruct (Qle_bool 0 _).
Qed.

Lemma written_items (path : string) (w : value) (e : Z) :
  written path w e []
  = [(storagePrefix +:+ path, CJson w); (storageExpirationPrefix +:+ path, CJson (qz e))].
Proof.
  unfold written. cbn [del put].
  pose proof (storage_keys_apart path) as H. apply String.eqb_neq in H. now rewrite H.
Qed.

(** The loop body of the start-up restore at the key of a value: nothing
    happens, unless the path begins with [exp_]. *)
Lemma restore_value_key (path : string) (s : engine) :
  String.prefix "exp_" path = false ->
  own (storage s) (storagePrefix +:+ path) <> Some CUndefined ->
  restore_key (storagePrefix +:+ path) s = (Ret tt, s).
Proof.
  intros Hp Hu. unfold restore_key, bind, gets.
  replace (String.prefix storageExpirationPrefix (storagePrefix +:+ path)) with false
    by (symmetry; exact Hp).
  cbn [when ret fst snd].
  destruct (own (storage s) (storagePrefix +:+ path)) as [[| |]|]; try reflexivity.
  - now rewrite andb_false_r.
  - now destruct Hu.
  - now rewrite andb_false_r.
  - now rewrite andb_false_r.
Qed.

(** The loop body at the key of an expiry time: before the expiry the
    value is written to the tree and the path is persisted again when it is
    not tracked; from the expiry on both items are removed. *)
Lemma restore_expiry_key (path : string) (w : value) (e : Z) (s : engine) :
  own (storage s) (storagePrefix +:+ path) = Some (CJson w) ->
  own (storage s) (storageExpirationPrefix +:+ path) = Some (CJson (qz e)) ->
  restore_key (storageExpirationPrefix +:+ path) s
  = (Ret tt,
     if (e >? now s)%Z then
       let s1 := with_dd (setObjectAtPath path w (dd s)) s in
       if bool_decide (is_Some (pathsToPersist s !! path)) then s1
       else exec (persist path None) s1
     else with_storage
            (del (del (storage s) (storageExpirationPrefix +:+ path))
               (storagePrefix +:+ path)) s).
Proof.
  intros H1 H2. unfold restore_key.
  replace (String.prefix storageExpirationPrefix (storageExpirationPrefix +:+ path))
    with true by (symmetry; apply prefix_app).
  replace (string_drop (String.length storageExpirationPrefix)
             (storageExpirationPrefix +:+ path)) with path by reflexivity.
  cbn [when]. unfold bind at 1. unfold bind at 1, gets at 1. unfold bind at 1, gets at 1.
  cbn [fst snd]. rewrite H1, H2. cbn [mbind option_bind]. rewrite parseInt_qz.
  destruct (e >? now s)%Z.
  - unfold JSON_parse, lift, bind at 1. unfold bind at 1, modify at 1.
    unfold bind at 1, gets at 1. cbn [pathsToPersist with_dd].
    destruct (bool_decide (is_Some (pathsToPersist s !! path))) eqn:Etr; cbn [negb when ret].
    + unfold bind, gets. cbn [storage with_dd fst snd]. rewrite H2.
      now rewrite andb_false_r.
    + destruct (persist_state (with_dd (setObjectAtPath path w (dd s)) s) path None)
        as (Hr & Hst & _).
      unfold result, exec in *.
      destruct (persist path None (with_dd (setObjectAtPath path w (dd s)) s))
        as [r s2]. cbn [fst snd] in *. subst r.
      unfold bind, gets. cbn [fst snd]. rewrite Hst. cbn [storage with_dd]. rewrite H2.
      now rewrite andb_false_r.
  - unfold removeItem, bind, modify, gets. cbn [fst snd storage with_storage].
    rewrite own_del_ne by apply storage_keys_apart.
    rewrite own_del_eq. now rewrite andb_false_r.
Qed.

(** The loop body at the key of an expiry time whose value is missing:
    both keys are removed. *)
Lemma restore_orphan_key (path : string) (s : engine) :
  own (storage s) (storagePrefix +:+ path) = None ->
  restore_key (storageExpirationPrefix +:+ path) s
  = (Ret tt,
     with_storage
       (del (del (storage s) (storageExpirationPrefix +:+ path))
          (storagePrefix +:+ path)) s).
Proof.
  intros H1. unfold restore_key.
  replace (String.prefix storageExpirationPrefix (storageExpirationPrefix +:+ path))
    with true by (symmetry; apply prefix_app).
  replace (string_drop (String.length storageExpirationPrefix)
             (storageExpirationPrefix +:+ path)) with path by reflexivity.
  cbn [when]. unfold bind at 1. unfold bind at 1, gets at 1. unfold bind at 1, gets at 1.
  cbn [fst snd]. rewrite H1.
  unfold removeItem, bind, modify, gets. cbn [fst snd storage with_storage].
  rewrite own_del_ne by apply storage_keys_apart.
  rewrite own_del_eq. now rewrite andb_false_r.
Qed.

Lemma prefix_split (a b : string) :
  String.prefix a b = true -> exists c, b = a +:+ c.
Proof.
  revert b. induction a as [|x a IH]; intros b H; [now exists b |].
  destruct b as [|y b]; [discriminate |]. cbn in H.
  destruct (ascii_dec x y) as [<- |]; [| discriminate].
  destruct (IH b H) as [c ->]. now exists c.
Qed.

Lemma restore_unfold (s : engine) :
  storage_ok s = true ->
  restorePersistedDD s
  = try_catch
      (for_each (map fst (del (storage s) "__storage_test__"))
         (fun key =>
            st <- gets storage ;;
            when (bool_decide (is_Some (own st key))) (restore_key key)))
      (ret tt)
      (with_storage (del (storage s) "__storage_test__") s).
Proof.
  intros Hok. unfold restorePersistedDD, storageAvailable, bind, gets, modify.
  rewrite Hok. reflexivity.
Qed.

Lemma visit_two_keys (ka kb : string) (s0 s1 s2 : engine) :
  is_Some (own (storage s0) ka) ->
  restore_key ka s0 = (Ret tt, s1) ->
  match own (storage s1) kb with
  | Some _ => restore_key kb s1 = (Ret tt, s2)
  | None => s2 = s1
  end ->
  try_catch
    (for_each [ka; kb]
       (fun key =>
          st <- gets storage ;;
          when (bool_decide (is_Some (own st key))) (restore_key key)))
    (ret tt) s0
  = (Ret tt, s2).
Proof.
  intros Ha E1 E2. cbn [for_each fold_m]. unfold try_catch, bind, gets.
  rewrite bool_decide_eq_true_2 by assumption. cbn [when]. rewrite E1.
  destruct (own (storage s1) kb) as [c|].
  - rewrite bool_decide_eq_true_2 by eauto. cbn [when]. now rewrite E2.
  - rewrite bool_decide_eq_false_2 by (intros [x Hx]; discriminate).
    cbn [when ret]. now subst s2.
Qed.

Lemma eqb_by_length (a b : string) :
  String.length a <> String.length b -> String.eqb a b = false.
Proof. intros H. apply String.eqb_neq. congruence. Qed.



(** ** The replay of logged events ([listen]) *)

Lemma for_each_nothing {A} (l : list A) (f : A -> M unit) (s : engine) :
  (forall a, In a l -> f a s = (Ret tt, s)) -> for_each l f s = (Ret tt, s).
Proof.
  induction l as [|a l IH]; intros H; [reflexivity |].
  rewrite for_each_cons. unfold bind. rewrite (H a) by now left.
  apply IH. intros b Hb. apply H. now right.
Qed.

(** The lookups of [getListeners] end with the path itself; the ones
    before it end in a wildcard. *)
Lemma candidates_shape (segs prev : list string) :
  segs <> [] ->
  exists wild,
    candidates prev segs = wild ++ [join_dot (prev ++ segs)]
    /\ Forall (fun p => exists l r x, p = join_dot (prev ++ l ++ [x])
                                      /\ segs = l ++ r /\ (x = "*" \/ x = "**")) wild.
Proof.
  revert prev. induction segs as [|cur rest IH]; intros prev Hne; [congruence |].
  destruct rest as [|next rest].
  - exists [join_dot (prev ++ ["*"])]. split; [reflexivity |].
    constructor; [| constructor]. exists [], [cur], "*". auto.
  - destruct (IH (prev ++ [cur])) as (wild & E & Hw); [discriminate |].
    exists (join_dot (prev ++ [cur; "**"]) :: wild). split.
    + change (candidates prev (cur :: next :: rest))
        with (join_dot (prev ++ [cur; "**"]) :: candidates (prev ++ [cur]) (next :: rest)).
      rewrite E, <- app_assoc. reflexivity.
    + constructor.
      * exists [cur], (next :: rest), "**". auto.
      * eapply Forall_impl; [exact Hw |]. intros p (l & r & x & -> & Hs & Hx).
        exists (cur :: l), r, x. rewrite <- app_assoc. cbn [app]. rewrite Hs. auto.
Qed.

Lemma last_segment_snoc (l : list string) (x : string) :
  Forall (fun s => dot_free s = true) l -> dot_free x = true ->
  List.last (split_dot (join_dot (l ++ [x]))) "" = x.
Proof.
  intros Hl Hx. rewrite split_join.
  - apply last_last.
  - destruct l; discriminate.
  - apply Forall_app. split; [assumption | now repeat constructor].
Qed.

Section Replay.

Variable beh : oracle.
Variable n : nat.
Variable name : string.
Variable u : nat.
Variable idr : js.
Variable REG0 : registry.
Variable EV : list obj.
Variable DD : obj.

Hypothesis name_plain :
  List.last (split_dot name) "" <> "*" /\ List.last (split_dot name) "" <> "**".
Hypothesis others :
  forall p l r, REG0 !! p = Some l -> r ∈ l -> handler r <> JUser n.

Let old : list record := default [] (REG0 !! name).
Let idx : nat := List.length old.
Let new_record (o : bool) : record := mkRecord u (JUser n) idr JUndefined o.
Let REG (o : bool) : registry := <[name := old ++ [new_record o]]> REG0.
Let K (o : bool) (cs : list call) (s : engine) : Prop :=
  eventListeners s = REG o /\ calls s = cs /\ events s = EV /\ dd s = DD.

Lemma old_records (r : record) : r ∈ old -> handler r <> JUser n.
Proof.
  subst old. destruct (REG0 !! name) as [l|] eqn:E; cbn.
  - now apply (others name l).
  - intros H. now apply elem_of_nil in H.
Qed.

Lemma replay_other (seen : gset string) (ev : obj) (p : string) (h : nat)
    (o : bool) (cs : list call) (s : engine) :
  K o cs s -> p <> name \/ h <> idx ->
  replay_handler beh (JUser n) seen ev p h s = (Ret tt, s).
Proof.
  intros (Hreg & _) Hph. unfold replay_handler, bind, gets, record_at.
  cbn [get_set]. rewrite Hreg.
  destruct (default [] (REG o !! p) !! h) as [r|] eqn:E; [| reflexivity].
  assert (Hr : handler r <> JUser n).
  { subst REG. cbn beta in E. rewrite lookup_insert in E.
    destruct (decide (name = p)) as [<- | Hne].
    - cbn in E. destruct Hph as [Hp | Hh]; [congruence |].
      apply lookup_app_Some in E as [E | [Hlen E]].
      + apply old_records. apply list_elem_of_lookup. eauto.
      + destruct (h - List.length old) as [|k] eqn:Ek; [| now destruct k].
        exfalso. apply Hh. subst idx. lia.
    - destruct (REG0 !! p) as [l|] eqn:El; cbn in E.
      + apply (others p l); [assumption |]. apply list_elem_of_lookup. eauto.
      + now rewrite lookup_nil in E. }
  assert (Hne : js_eqb (JUser n) (handler r) = false).
  { destruct (js_eqb (JUser n) (handler r)) eqn:Eq; [| reflexivity].
    apply js_eqb_eq in Eq. congruence. }
  rewrite Hne. destruct (dependsOn r); try reflexivity. now rewrite andb_false_r.
Qed.

Lemma replay_new (seen : gset string) (ev : obj) (o : bool) (cs : list call)
    (s : engine) :
  K o cs s ->
  exists s',
    replay_handler beh (JUser n) seen ev name idx s = (Ret tt, s')
    /\ K (if o then true
          else returns_true (beh (mkCall (Some u) (JUser n) (Some (VMap ev)) :: cs)))
         (if o then cs else mkCall (Some u) (JUser n) (Some (VMap ev)) :: cs) s'.
Proof.
  intros (Hreg & Hcs & Hev & Hdd).
  assert (Hrec : record_at EventSet name idx s = Some (new_record o)).
  { unfold record_at. cbn [get_set]. rewrite Hreg. subst REG. cbn beta.
    rewrite lookup_insert_eq. cbn. rewrite lookup_app_r by (subst idx; lia).
    subst idx. now rewrite Nat.sub_diag. }
  unfold replay_handler, bind at 1, gets at 1. rewrite Hrec.
  cbn [new_record dependsOn handler js_eqb]. rewrite Nat.eqb_refl. cbn [when].
  destruct (guarded_call_effect beh EventSet name idx (ret (Some (VMap ev)))
              "listener-handler" s (reads_ret _)) as (s' & E & Heff).
  exists s'. split; [exact E |]. cbn [ret fst] in Heff.
  destruct Heff as [-> [Hn | (r & Hr & Ho)] | r Hr Ho [Hx | Hx] _ _ _
                   | r a Hr Ho Ha _ Ht Hcalls Hset].
  - congruence.
  - rewrite Hrec in Hr. injection Hr as <-. cbn in Ho. subst o. now repeat split.
  - discriminate.
  - rewrite Hrec in Hr. injection Hr as <-. discriminate.
  - rewrite Hrec in Hr. injection Hr as <-. cbn in Ho. subst o.
    injection Ha as <-. cbn [new_record uid handler user_fn andb] in *.
    rewrite Hcs in *. destruct Ht as (Hd' & _ & He' & _).
    split; [| split; [exact Hcalls | split; congruence]].
    cbn [get_set] in Hset. rewrite Hset, Hreg. subst REG. cbn beta.
    destruct (beh _); cbn [returns_true]; try reflexivity.
    rewrite alter_insert_eq. f_equal.
    rewrite alter_app_r_alt by (subst idx; lia).
    subst idx. rewrite Nat.sub_diag. reflexivity.
Qed.

Let next (o : bool) (cs : list call) (ev : obj) : bool :=
  if o then true
  else returns_true (beh (mkCall (Some u) (JUser n) (Some (VMap ev)) :: cs)).
Let log (o : bool) (cs : list call) (ev : obj) : list call :=
  if o then cs else mkCall (Some u) (JUser n) (Some (VMap ev)) :: cs.

Lemma replay_other_pattern (seen : gset string) (ev : obj) (p : string)
    (o : bool) (cs : list call) (s : engine) :
  K o cs s -> p <> name ->
  (k <- gets (handlers_length EventSet p) ;;
   for_each (rev (seq 0 k)) (replay_handler beh (JUser n) seen ev p)) s = (Ret tt, s).
Proof.
  intros HK Hp. unfold bind, gets. apply for_each_nothing.
  intros h _. apply (replay_other seen ev p h o cs); auto.
Qed.

Lemma replay_own_pattern (seen : gset string) (ev : obj) (o : bool) (cs : list call)
    (s : engine) :
  K o cs s ->
  exists s',
    (k <- gets (handlers_length EventSet name) ;;
     for_each (rev (seq 0 k)) (replay_handler beh (JUser n) seen ev name)) s = (Ret tt, s')
    /\ K (next o cs ev) (log o cs ev) s'.
Proof.
  intros HK. unfold bind at 1, gets at 1.
  assert (Hlen : handlers_length EventSet name s = S idx).
  { destruct HK as (Hreg & _). unfold handlers_length. cbn [get_set]. rewrite Hreg.
    subst REG. cbn beta. rewrite lookup_insert_eq. cbn.
    rewrite length_app. cbn. subst idx. lia. }
  rewrite Hlen, seq_S, rev_app_distr. cbn [rev app Nat.add].
  rewrite for_each_cons. unfold bind.
  destruct (replay_new seen ev o cs s HK) as (s' & -> & HK').
  exists s'. split; [| exact HK'].
  apply for_each_nothing. intros h Hh.
  apply (replay_other seen ev name h _ _ s' HK'). right.
  apply in_rev, in_seq in Hh. lia.
Qed.

Lemma wildcard_not_name (l : list string) (x : string) :
  Forall (fun s => dot_free s = true) l -> x = "*" \/ x = "**" ->
  join_dot (l ++ [x]) <> name.
Proof.
  intros Hl Hx E. destruct name_plain as [H1 H2].
  rewrite <- E, last_segment_snoc in H1, H2;
    try assumption; try (destruct Hx as [-> | ->]; reflexivity).
  destruct Hx; contradiction.
Qed.

(** The replay for one logged event: the handler is called when the event
    has the name listened to, and nothing happens otherwise. *)
Lemma replay_event (seen : gset string) (ev : obj) (o : bool) (cs : list call)
    (s : engine) :
  K o cs s ->
  exists s',
    (listeners <- gets (fun s => getListeners (event_name ev) (eventListeners s)) ;;
     for_each (rev listeners)
       (fun l =>
          k <- gets (handlers_length EventSet (fst l)) ;;
          for_each (rev (seq 0 k)) (replay_handler beh (JUser n) seen ev (fst l)))) s
    = (Ret tt, s')
    /\ K (if String.eqb (event_name ev) name then next o cs ev else o)
         (if String.eqb (event_name ev) name then log o cs ev else cs) s'.
Proof.
  intros HK. unfold bind at 1, gets at 1. pose proof HK as (Hreg & _). rewrite Hreg.
  unfold getListeners. rewrite rev_involutive, getListeners_from_candidates.
  destruct (candidates_shape (split_dot (event_name ev)) [])
    as (wild & -> & Hwild); [apply split_dot_nonempty |].
  cbn [app]. rewrite join_split, flat_map_app. cbn [flat_map]. rewrite app_nil_r, app_assoc.
  rewrite for_each_app. unfold bind at 1.
  rewrite for_each_nothing.
  2:{ intros [p hs] Hin. cbn [fst]. apply (replay_other_pattern seen ev p o cs s HK).
      apply in_app_iff in Hin as [Hin | Hin].
      - apply in_entry in Hin as [-> _]. apply (wildcard_not_name [] "**"); auto.
      - apply in_flat_entry in Hin as [Hin _].
        apply list_elem_of_In in Hin.
        destruct (proj1 (Forall_forall _ _) Hwild p Hin) as (l & r & x & -> & Hs & Hx).
        cbn [app].
        apply wildcard_not_name; [| assumption].
        pose proof (split_dot_segments (event_name ev)) as Hall.
        rewrite Hs in Hall. now apply Forall_app in Hall as [Hl _]. }
  destruct (String.eqb_spec (event_name ev) name) as [-> | Hne].
  - unfold entry, REG. rewrite lookup_insert_eq.
    rewrite for_each_cons. unfold bind at 1. cbn [fst].
    destruct (replay_own_pattern seen ev o cs s HK) as (s' & -> & HK').
    exists s'. split; [reflexivity | exact HK'].
  - exists s. split; [| exact HK].
    apply for_each_nothing. intros [p hs] Hin. cbn [fst].
    apply in_entry in Hin as [-> _].
    now apply (replay_other_pattern seen ev (event_name ev) o cs s HK).
Qed.

(** The replay loop: the calls are those of [replayed] for the events with
    the name listened to. *)
Lemma replay_calls (evs : list obj) :
  forall (seen : gset string) (o : bool) (cs : list call) (s : engine),
    K o cs s ->
    exists s' o',
      replay beh (JUser n) evs seen s = (Ret tt, s')
      /\ K o' (if o then cs
               else replayed beh u (JUser n)
                      (List.filter (fun ev => String.eqb (event_name ev) name) evs) cs) s'.
Proof.
  induction evs as [|ev evs IH]; intros seen o cs s HK.
  - exists s, o. split; [reflexivity |]. now destruct o.
  - cbn [replay]. unfold bind at 1, gets at 1.
    destruct (replay_event ({[event_name ev]} ∪ seen) ev o cs s HK) as (s1 & E1 & HK1).
    unfold bind at 1, gets at 1 in E1. unfold bind at 1. rewrite E1.
    destruct (IH ({[event_name ev]} ∪ seen) _ _ s1 HK1) as (s2 & o2 & -> & HK2).
    exists s2, o2. split; [reflexivity |].
    cbn [List.filter]. destruct (String.eqb (event_name ev) name); [| exact HK2].
    subst next log. cbn beta in HK2.
    destruct o; [exact HK2 |]. cbn [replayed].
    destruct (beh _); exact HK2.
Qed.

End Replay.



(** ** The tree patch of an event ([trigger]) *)


(** ** A change listener is told of a new value ([set], change dispatch) *)

Lemma fold_m_app {A B} (f : B -> A -> M B) (l1 l2 : list A) (b : B) (s : engine) :
  fold_m f (l1 ++ l2) b s = (b' <- fold_m f l1 b ;; fold_m f l2 b') s.
Proof.
  revert b s. induction l1 as [|a l1 IH]; intros b s; [reflexivity |].
  cbn [app fold_m]. unfold bind. destruct (f b a s) as [[b'|] s']; [| reflexivity].
  apply IH.
Qed.

Section Notified.

Variable beh : oracle.
Variable n : nat.
Variable path : string.
Variable i : nat.
Variable u : nat.
Variable D : obj.
Variable P : obj.
Variable v : value.
Variable cs0 : list call.

Hypothesis path_plain : strip_wildcard path = path.
Hypothesis D_path : getObjectAtPath D path (Some (VMap D)) = Ret (Some v).

Let told : call := mkCall (Some u) (JUser n) (Some v).

(** [k] says whether the listener has been told. *)
Let Q (k : bool) (s : engine) : Prop :=
  (dd s = D /\ prev_dd s = P)
  /\ (forall ls p j r, record_at ls p j s = Some r -> handler r = JUser n ->
        ls = PropertySet /\ p = path /\ j = i)
  /\ (exists r, record_at PropertySet path i s = Some r /\ handler r = JUser n
                /\ uid r = u /\ (k = false -> once r = false))
  /\ exists new, calls s = new ++ cs0
                 /\ List.filter (fun c => js_eqb (callee c) (JUser n)) new
                    = if k then [told] else [].

Lemma q_frame (k : bool) (s s' : engine) :
  dd s' = dd s -> prev_dd s' = prev_dd s -> calls s' = calls s ->
  (forall ls, get_set ls s' = get_set ls s) ->
  Q k s -> Q k s'.
Proof.
  intros Hd Hp Hc Hreg ([H1 H1'] & H2 & H3 & H4).
  assert (Hrec : forall ls p j, record_at ls p j s' = record_at ls p j s)
    by (intros; unfold record_at; now rewrite Hreg).
  split; [split; congruence |]. split; [| split].
  - intros ls p j r. rewrite Hrec. apply H2.
  - destruct H3 as (r & Hr & H3). exists r. now rewrite Hrec.
  - now rewrite Hc.
Qed.

Lemma q_marked (ls : listenerSet) (p : string) (j : nat) (s s' : engine) (r : record)
    (k k' : bool) :
  record_at ls p j s = Some r ->
  get_set ls s' = alter (alter set_once j) p (get_set ls s)
  \/ get_set ls s' = get_set ls s ->
  touches ls s s' ->
  (k = true -> k' = true) ->
  (k' = false -> ~ (ls = PropertySet /\ p = path /\ j = i)) ->
  Q k s ->
  (exists new, calls s' = new ++ cs0
               /\ List.filter (fun c => js_eqb (callee c) (JUser n)) new
                  = if k' then [told] else []) ->
  Q k' s'.
Proof.
  intros Hr Hset (Hd & Hp & _ & _ & _ & _ & _ & Hother) Hk Hk' ([H1 H1'] & H2 & H3 & _)
    Hcalls.
  assert (Hrec : forall ls' p' j' r', record_at ls' p' j' s' = Some r' ->
            exists r0, record_at ls' p' j' s = Some r0 /\ handler r' = handler r0
                       /\ uid r' = uid r0
                       /\ (once r' = true -> once r0 = false ->
                           ls' = ls /\ p' = p /\ j' = j)).
  { intros ls' p' j' r' Hr'. destruct Hset as [Hset | Hset].
    - rewrite (record_at_marked ls p j s s' ls' p' j' Hset Hother) in Hr'.
      destruct (decide (ls' = ls /\ p' = p /\ j' = j)) as [(-> & -> & ->) | Hne].
      + rewrite Hr in Hr'. cbn in Hr'. injection Hr' as <-. exists r.
        repeat split; auto.
      + exists r'. split; [assumption |]. split; [reflexivity |]. split; [reflexivity |].
        congruence.
    - exists r'. split; [| split; [reflexivity | split; [reflexivity | congruence]]].
      unfold record_at in *. destruct (decide (ls' = ls)) as [-> |];
        [now rewrite <- Hset | now rewrite <- Hother]. }
  split; [split; congruence |]. split; [| split; [| exact Hcalls]].
  - intros ls' p' j' r' Hr' Hh. destruct (Hrec ls' p' j' r' Hr') as (r0 & Hr0 & Hh0 & _).
    apply (H2 ls' p' j' r0 Hr0). congruence.
  - destruct H3 as (r0 & Hr0 & Hh0 & Hu0 & Ho0).
    assert (Hr' : exists r', record_at PropertySet path i s' = Some r'
                             /\ handler r' = handler r0 /\ uid r' = uid r0
                             /\ (once r' = true -> once r0 = false ->
                                 PropertySet = ls /\ path = p /\ i = j)).
    { destruct Hset as [Hset | Hset].
      - rewrite (record_at_marked ls p j s s' PropertySet path i Hset Hother).
        destruct (decide (PropertySet = ls /\ path = p /\ i = j)) as [(<- & <- & <-) | Hne].
        + rewrite Hr0. cbn. eexists. split; [reflexivity |]. repeat split; auto.
        + exists r0. split; [assumption |]. split; [reflexivity |].
          split; [reflexivity |]. congruence.
      - exists r0. split; [| split; [reflexivity | split; [reflexivity | congruence]]].
        unfold record_at in *. destruct (decide (PropertySet = ls)) as [<- |];
          [now rewrite Hset | now rewrite Hother]. }
    destruct Hr' as (r' & Hr' & Hh' & Hu' & Ho').
    exists r'. split; [assumption |]. split; [congruence |]. split; [congruence |].
    intros Hkf. destruct (once r') eqn:E; [| reflexivity].
    exfalso. destruct k.
    + specialize (Hk eq_refl). congruence.
    + destruct (Ho' eq_refl (Ho0 eq_refl)) as (<- & <- & <-). now apply (Hk' Hkf).
Qed.

(** A guarded invocation at another place than the one of the listener. *)
Lemma q_other (ls : listenerSet) (p : string) (j : nat) (ra : res (option value))
    (k : bool) (s s' : engine) :
  ~ (ls = PropertySet /\ p = path /\ j = i) ->
  Q k s -> guarded_effect beh ls p j ra s s' -> Q k s'.
Proof.
  intros Hne HQ Heff.
  destruct Heff as [-> _ | r Hr Ho _ Ht Hreg Hcalls | r a Hr Ho _ Hfn Ht Hcalls Hreg].
  - assumption.
  - apply (q_marked ls p j s s' r k k Hr (or_intror Hreg) Ht); auto.
    destruct HQ as (_ & _ & _ & new & Hn & Hf). exists new. now rewrite Hcalls.
  - assert (Hh : js_eqb (handler r) (JUser n) = false).
    { destruct (js_eqb (handler r) (JUser n)) eqn:E; [| reflexivity].
      apply js_eqb_eq in E. destruct HQ as (_ & Honly & _).
      destruct Hne. now apply (Honly ls p j r). }
    apply (q_marked ls p j s s' r k k Hr); auto.
    + destruct (user_fn (handler r) && _); auto.
    + destruct HQ as (_ & _ & _ & new & Hn & Hf).
      exists (mkCall (Some (uid r)) (handler r) a :: new). split.
      * now rewrite Hcalls, Hn.
      * cbn [List.filter callee]. now rewrite Hh.
Qed.

(** The guarded invocation of the listener itself. *)
Lemma q_own (s s' : engine) :
  Q false s -> guarded_effect beh PropertySet path i (Ret (Some v)) s s' -> Q true s'.
Proof.
  intros HQ Heff. pose proof HQ as (_ & _ & (r0 & Hr0 & Hh0 & Hu0 & Ho0) & new & Hn & Hf).
  specialize (Ho0 eq_refl).
  destruct Heff as [-> [Hnone | (r & Hr & Ho)] | r Hr Ho [Hx | Hx] _ _ _
                   | r a Hr Ho Ha Hfn Ht Hcalls Hreg].
  - congruence.
  - congruence.
  - discriminate.
  - rewrite Hr0 in Hr. injection Hr as <-. now rewrite Hh0 in Hx.
  - rewrite Hr0 in Hr. injection Hr as <-. injection Ha as <-.
    apply (q_marked PropertySet path i s s' r0 false true Hr0); auto.
    + destruct (user_fn (handler r0) && _); auto.
    + discriminate.
    + exists (mkCall (Some (uid r0)) (handler r0) (Some v) :: new). split.
      * now rewrite Hcalls, Hn.
      * cbn [List.filter callee]. rewrite Hh0, Hu0. cbn [js_eqb].
        rewrite Nat.eqb_refl, Hf. reflexivity.
Qed.

Lemma q_row (p : string) (idxs : list nat) :
  (p <> path \/ ~ In i idxs) ->
  forall (fs : list js) (k : bool) (s : engine),
    Q k s ->
    exists fs' s',
      fold_m (invoke_change_handler beh PropertySet p) idxs fs s = (Ret fs', s')
      /\ Q k s'.
Proof.
  intros Hp. induction idxs as [|j idxs IH]; intros fs k s HQ.
  - exists fs, s. now split.
  - cbn [fold_m]. unfold bind, invoke_change_handler at 1, bind at 1.
    destruct (guarded_call_effect beh PropertySet p j
                (d <- gets dd ;;
                 lift (getObjectAtPath d (strip_wildcard p) (Some (VMap d))))
                "listener-changehandler" s (reads_lookup _)) as (s1 & -> & Heff).
    cbn [fst snd]. unfold bind, gets. cbn [ret].
    apply IH.
    + destruct Hp as [Hp | Hp]; [now left | right]. intros H. apply Hp. now right.
    + refine (q_other PropertySet p j _ k s s1 _ HQ Heff).
      intros (_ & -> & ->). destruct Hp as [Hp | Hp]; [congruence |].
      apply Hp. now left.
Qed.

Lemma q_own_row (fs : list js) (s : engine) (len : nat) :
  i < len -> Q false s ->
  exists fs' s',
    fold_m (invoke_change_handler beh PropertySet path) (seq 0 len) fs s = (Ret fs', s')
    /\ Q true s'.
Proof.
  intros Hi HQ.
  assert (Hseq : seq 0 len = seq 0 i ++ i :: seq (S i) (len - S i)).
  { replace len with (i + S (len - S i)) at 1 by lia.
    rewrite seq_app. reflexivity. }
  rewrite Hseq.
  rewrite fold_m_app. unfold bind at 1.
  destruct (q_row path (seq 0 i)) with (fs := fs) (k := false) (s := s)
    as (fs1 & s1 & -> & HQ1); [right; rewrite in_seq; lia | assumption |].
  cbn [fold_m]. unfold bind at 1, invoke_change_handler at 1, bind at 1.
  destruct (guarded_call_effect beh PropertySet path i
              (d <- gets dd ;;
               lift (getObjectAtPath d (strip_wildcard path) (Some (VMap d))))
              "listener-changehandler" s1 (reads_lookup _)) as (s2 & -> & Heff).
  cbn [fst snd]. unfold bind at 1, gets at 1. cbn [ret].
  assert (Harg : fst ((d <- gets dd ;;
                       lift (getObjectAtPath d (strip_wildcard path) (Some (VMap d)))) s1)
                 = Ret (Some v)).
  { unfold bind, gets, lift. cbn [fst snd]. destruct HQ1 as ([-> _] & _).
    now rewrite path_plain, D_path. }
  rewrite Harg in Heff.
  apply (q_row path (seq (S i) (len - S i))); [right; rewrite in_seq; lia |].
  now apply (q_own s1 s2).
Qed.

Let Inv (acc : gset string * list js) (s : engine) : Prop :=
  Q (bool_decide (path ∈ fst acc)) s.

Lemma q_listener (acc : gset string * list js) (l : string * list record)
    (s : engine) :
  Inv acc s ->
  exists acc' s',
    invoke_change_listener beh PropertySet acc l s = (Ret acc', s')
    /\ Inv acc' s' /\ fst acc ⊆ fst acc' /\ fst l ∈ fst acc'.
Proof.
  intros HI. unfold invoke_change_listener.
  destruct (decide (fst l ∈ fst acc)) as [Hin | Hnot].
  - exists acc, s. auto.
  - unfold bind at 1, gets at 1.
    assert (Hsub : fst acc ⊆ {[fst l]} ∪ fst acc) by apply union_subseteq_r.
    assert (Hl : fst l ∈ {[fst l]} ∪ fst acc)
      by (apply elem_of_union_l; now apply elem_of_singleton).
    destruct (decide (fst l = path)) as [E | Hne].
    + rewrite E in *. unfold Inv in HI.
      rewrite bool_decide_eq_false_2 in HI by assumption.
      assert (Hlen : i < handlers_length PropertySet path s).
      { destruct HI as (_ & _ & (r & Hr & _) & _). unfold record_at in Hr.
        unfold handlers_length. apply lookup_lt_Some in Hr. exact Hr. }
      destruct (q_own_row (snd acc) s _ Hlen HI) as (fs' & s' & E' & HQ').
      unfold bind. rewrite E'. cbn [ret]. eexists _, _. split; [reflexivity |].
      split; [| split; assumption].
      unfold Inv. cbn [fst]. now rewrite bool_decide_eq_true_2.
    + destruct (q_row (fst l) (seq 0 (handlers_length PropertySet (fst l) s)))
        with (fs := snd acc) (k := bool_decide (path ∈ fst acc)) (s := s)
        as (fs' & s' & E' & HQ'); [now left | exact HI |].
      unfold bind. rewrite E'. cbn [ret]. eexists _, _. split; [reflexivity |].
      split; [| split; assumption].
      unfold Inv. cbn [fst].
      replace (bool_decide (path ∈ {[fst l]} ∪ fst acc))
        with (bool_decide (path ∈ fst acc)); [assumption |].
      apply bool_decide_ext. rewrite elem_of_union, elem_of_singleton.
      split; [auto | intros [H | H]; [congruence | assumption]].
Qed.

Lemma q_listeners (ls : list (string * list record)) :
  forall acc s,
    Inv acc s ->
    exists acc' s',
      fold_m (invoke_change_listener beh PropertySet) ls acc s = (Ret acc', s')
      /\ Inv acc' s' /\ fst acc ⊆ fst acc'
      /\ forall l, In l ls -> fst l ∈ fst acc'.
Proof.
  induction ls as [|l ls IH]; intros acc s HI.
  - exists acc, s. split; [reflexivity |]. split; [assumption |]. split; [reflexivity |].
    intros l [].
  - cbn [fold_m]. unfold bind.
    destruct (q_listener acc l s HI) as (acc1 & s1 & -> & HI1 & Hsub1 & Hl1).
    destruct (IH acc1 s1 HI1) as (acc2 & s2 & -> & HI2 & Hsub2 & Hl2).
    exists acc2, s2. split; [reflexivity |]. split; [assumption |].
    split; [now transitivity (fst acc1) |].
    intros l' [<- | Hin]; [now apply Hsub2 | now apply Hl2].
Qed.

Lemma q_differences (ds : list string) :
  forall acc s,
    Inv acc s ->
    exists acc' s',
      fold_m (fun acc d =>
                listeners <- gets (fun s => getListeners d (get_set PropertySet s)) ;;
                fold_m (invoke_change_listener beh PropertySet) listeners acc)
        ds acc s = (Ret acc', s')
      /\ Inv acc' s' /\ fst acc ⊆ fst acc'
      /\ (In path ds -> path ∈ fst acc').
Proof.
  induction ds as [|d ds IH]; intros acc s HI.
  - exists acc, s. split; [reflexivity |]. split; [assumption |]. split; [reflexivity |].
    intros [].
  - cbn [fold_m]. unfold bind at 1. unfold bind at 1, gets at 1. cbn [fst snd].
    destruct (q_listeners (getListeners d (get_set PropertySet s)) acc s HI)
      as (acc1 & s1 & -> & HI1 & Hsub1 & Hl1).
    destruct (IH acc1 s1 HI1) as (acc2 & s2 & -> & HI2 & Hsub2 & Hin2).
    exists acc2, s2. split; [reflexivity |]. split; [assumption |].
    split; [now transitivity (fst acc1) |].
    intros [-> | Hin]; [| now apply Hin2].
    apply Hsub2.
    destruct HI as (_ & _ & (r & Hr & _) & _). unfold record_at in Hr.
    destruct (get_set PropertySet s !! path) as [hs|] eqn:E;
      [| cbn in Hr; now rewrite lookup_nil in Hr].
    apply (Hl1 (path, hs)). apply getListeners_in. split; [assumption |].
    right. apply candidates_in; [apply split_dot_nonempty |]. right. right.
    cbn [app]. now rewrite join_split.
Qed.

(** Change dispatch, when the diff names the path: the listener is told
    once. *)
Lemma q_dispatch (s : engine) :
  Q false s -> In path (getDifferences P D) ->
  exists fs s', invokeChangeListeners beh s = (Ret fs, s') /\ Q true s'.
Proof.
  intros HQ Hin. unfold invokeChangeListeners.
  assert (Hpers : returns (Q false)
                    (invokeChangeListenersForListenerSet beh PersistenceSet)).
  { apply (k_invokeChangeListenersForListenerSet beh (Q false)
             (fun ls => ls = PersistenceSet)); [| reflexivity].
    intros ls p h ra s1 s2 -> H.
    apply q_other; [intros (Hx & _); discriminate | exact H]. }
  destruct (Hpers s HQ) as [[fs1 E1] HQ1]. unfold bind at 1.
  destruct (invokeChangeListenersForListenerSet beh PersistenceSet s) as [r1 s1].
  cbn [fst snd] in E1, HQ1. subst r1.
  unfold bind at 1, invokeChangeListenersForListenerSet.
  unfold bind at 1, gets at 1. unfold bind at 1, gets at 1. cbn [fst snd].
  pose proof HQ1 as ([Hd Hp] & _). rewrite Hd, Hp.
  destruct (q_differences (rev (getDifferences P D)) (∅, []) s1)
    as (acc & s2 & E2 & HI2 & _ & Hacc).
  { unfold Inv. cbn [fst]. rewrite bool_decide_eq_false_2; [assumption |].
    apply not_elem_of_empty. }
  unfold bind at 1. rewrite E2. cbn [ret]. eexists _, _. split; [reflexivity |].
  unfold Inv in HI2. rewrite bool_decide_eq_true_2 in HI2; [assumption |].
  apply Hacc. now apply in_rev in Hin.
Qed.

End Notified.

(** Writing a value that is not an object where the path held another
    value puts the path itself into the diff. *)
Lemma set_at_leaf_difference (path : string) (v : value) (d : obj) :
  wf (VMap d) -> wf v -> isObject (Some v) = false ->
  node_at (VMap d) (split_dot path) <> Some v ->
  In path (getDifferences d (setObjectAtPath path v d)).
Proof.
  intros Hd Hv Hleaf Hx. unfold setObjectAtPath, getDifferences.
  pose proof (split_dot_nonempty path) as Hne.
  destruct (uniq_from_spec
              (rev (_getDifferences (Some (VMap d))
                      (VMap (set_at (split_dot path) v d)) [] [] ++
                    _getDifferences (Some (VMap (set_at (split_dot path) v d)))
                      (VMap d) [] []))
              ∅ []) as [_ Hin].
  { intros x. rewrite elem_of_empty. simpl. tauto. }
  { apply NoDup_nil_2. }
  apply Hin. right. rewrite <- in_rev, in_app_iff. left.
  apply (_getDifferences_in _ (wf_set_at (split_dot path) v d Hd Hv)). right.
  exists (split_dot path). split; [assumption |]. split; [cbn [app]; now rewrite join_split |].
  unfold differs_from. cbn [mbind option_bind].
  rewrite node_at_set_at by assumption.
  destruct v; try discriminate; now destruct (node_at (VMap d) (split_dot path)) as [[]|].
Qed.



(** ** Examples *)

Example split_dot_ex : split_dot "a.b.c" = ["a"; "b"; "c"] /\ split_dot "" = [""]
  /\ split_dot "a." = ["a"; ""].
Proof. repeat split; reflexivity. Qed.

Example strip_wildcard_ex :
  strip_wildcard "a.b.**" = "a.b" /\ strip_wildcard "a.*" = "a" /\
  strip_wildcard "**" = "" /\ strip_wildcard "a.b" = "a.b" /\
  strip_wildcard "a.***" = "a.*".
Proof. repeat split; reflexivity. Qed.

Example set_merge_ex :
  setObjectAtPath "a" (VMap [("y", qz 2)]) (setObjectAtPath "a" (VMap [("x", qz 1)]) [])
  = [("a", VMap [("x", qz 1); ("y", qz 2)])].
Proof. vm_compute. reflexivity. Qed.

Example getDifferences_ex :
  getDifferences [("a", VMap [("b", qz 1)]); ("c", VStr "x")]
                 [("a", VMap [("b", qz 2); ("d", VMap [("e", VNull)])]); ("c", VStr "x")]
  = ["a.b"; "a.d.e"; "a.d"].
Proof. vm_compute. reflexivity. Qed.

(** Two events awaited by one handler, and one handler registered twice. *)
Example listen_trigger_ex :
  map (fun s => count_calls (JUser 7) (calls s))
    [run quiet [OpListen (Many ["evtA"; "evtB"]) (JUser 7) JUndefined JUndefined;
                OpTrigger "evtA" None] (initial true [] 0);
     run quiet [OpListen (Many ["evtA"; "evtB"]) (JUser 7) JUndefined JUndefined;
                OpTrigger "evtA" None; OpTrigger "evtB" None] (initial true [] 0);
     run quiet [OpListen (One "e") (JBool false) (JUser 7) JUndefined;
                OpListen (One "e") (JBool false) (JUser 7) JUndefined;
                OpTrigger "e" None] (initial true [] 0)] = [0; 1; 2].
Proof. vm_compute. reflexivity. Qed.

(** [persist] before and after the value is written. *)
Example persist_ex :
  storage (run quiet [OpSet "k" (VStr "v") JUndefined None; OpPersist "k" (Some (qz 60))] (initial true [] 0)) = []
  /\ storage (run quiet [OpPersist "k" (Some (qz 60)); OpSet "k" (VStr "v") JUndefined None] (initial true [] 1000))
     = [("dd_p_k", CJson (VStr "v")); ("dd_p_exp_k", CJson (qz 3601000))].
Proof. vm_compute. split; reflexivity. Qed.

(** A start-up with the storage that an earlier page left. *)
Example restore_ex :
  let s := run quiet [OpPersist "k" (Some (qz 60)); OpSet "k" (VStr "v") JUndefined None] (initial true [] 1000) in
  let b := boot true (storage s) 5000 in
  dd b = [("k", VStr "v")] /\ pathsToPersist b !! "k" = Some 30%Z.
Proof. vm_compute. split; reflexivity. Qed.
